(** * The Sana text tokenizer ([sana_text_encoder.cpp]), embedded in Rocq

    The development follows the C++ translation unit: the UTF-8 length
    classifier, the vocabulary store [SanaVocab] and its loader, the
    SentencePiece-style tokenizer (symbols, bigram candidates, priority
    queue, merge loop), the GPT-2 style byte-pair tokenizer and the
    [tokenize] dispatcher.

    Conventions.
    - A [std::string] is a list of bytes ([list ascii]); [text.c_str() + k]
      together with [text.length() - k] is the suffix [drop k text].
    - [int], [int32_t] and [uint32_t] values are integers in [Z]; the casts
      the source performs before a comparison are written out as [mod].
    - [size_t] lengths and offsets are natural numbers.
    - [std::map] is a [gmap]; only [find], [operator[]] and [empty] are used
      by the source, so the iteration order plays no role.
    - A [float] score is represented by its value in [Q]; on the floats that
      have a value (everything except NaN and the infinities) the
      comparisons [!=] and [<] of the source are those of [Q]. *)

From Stdlib Require Import ZArith QArith Ascii String List Lia Lqa.
From stdpp Require Import base gmap list strings.

Open Scope Z_scope.
Open Scope nat_scope.
Open Scope list_scope.

(** ** Machine integers *)

(** [(uint32_t) x] for an [int32_t] value [x]. *)
Definition to_uint32 (x : Z) : Z := (x mod 2 ^ 32)%Z.

(** [(size_t) x] for an [int] value [x] (sign extension, then 64 bits). *)
Definition to_size_t (x : Z) : Z := (x mod 2 ^ 64)%Z.

(** Conversion of a [uint32_t] to [int32_t] (or [int]) on assignment. *)
Definition to_int32 (x : Z) : Z := ((x + 2 ^ 31) mod 2 ^ 32 - 2 ^ 31)%Z.

(** ** Unicode utilities *)

Abbreviation bytes := (list ascii).

(** A string literal as a byte sequence. *)
Definition str (s : string) : bytes := list_ascii_of_string s.

(** The byte as [unsigned char]. *)
Definition uchar (c : ascii) : Z := Z.of_N (N_of_ascii c).

(** [utf8_len_char s max_len]: [s] is the text from the inspected position
    on.  Reading [*s] at the end of a [c_str()] yields the terminating NUL. *)
Definition utf8_len_char (s : bytes) (max_len : nat) : nat :=
  if max_len =? 0 then 0
  else
    let c := uchar (hd zero s) in
    if (c <? 128)%Z then 1
    else if (2 <=? max_len) && (Z.land c 224 =? 192)%Z then 2
    else if (3 <=? max_len) && (Z.land c 240 =? 224)%Z then 3
    else if (4 <=? max_len) && (Z.land c 248 =? 240)%Z then 4
    else 0.

(** ** SanaVocab *)

Inductive Type_ : Set := SPM | BPE.

Record SanaVocab : Type := {
  token_to_id : gmap (list ascii) Z;
  id_to_token : list (list ascii);
  id_to_score : list Q;
  bos_token_id : Z;
  eos_token_id : Z;
  pad_token_id : Z;
  unk_token_id : Z;
  type : Type_;
  bpe_ranks : gmap (list ascii * list ascii) Z;
  bpe_merges : list (list ascii)
}.

(** The member initialisers of the struct. *)
Definition SanaVocab_default : SanaVocab := {|
  token_to_id := ∅;
  id_to_token := [];
  id_to_score := [];
  bos_token_id := 0;
  eos_token_id := 1;
  pad_token_id := -1;
  unk_token_id := 2;
  type := SPM;
  bpe_ranks := ∅;
  bpe_merges := []
|}.

(** [if (unk_token_id != -1) output_tokens.push_back(unk_token_id);] *)
Definition push_unk (v : SanaVocab) : list Z :=
  if (unk_token_id v =? -1)%Z then [] else [unk_token_id v].

(** ** The per-codepoint loops

    The source walks a string with an index [k]; the state kept here is the
    unread suffix [rest = drop k text], which is all the loop body looks at.
    [fuel] bounds the number of iterations; every iteration consumes at
    least one byte, so [length rest] iterations always suffice. *)

(** [for (k = 0; k < s.length(); ) { char_len = utf8_len_char(...);
      if (char_len == 0) { k++; continue; }
      result.push_back(s.substr(k, char_len)); k += char_len; }] *)
Fixpoint split_codepoints_loop (fuel : nat) (rest : bytes) : list (list ascii) :=
  match fuel with
  | 0 => []
  | S fuel' =>
    match rest with
    | [] => []
    | _ :: _ =>
      let char_len := utf8_len_char rest (length rest) in
      if char_len =? 0 then split_codepoints_loop fuel' (drop 1 rest)
      else take char_len rest :: split_codepoints_loop fuel' (drop char_len rest)
    end
  end.

Definition split_codepoints (s : bytes) : list (list ascii) :=
  split_codepoints_loop (length s) s.

(** [for (k = 0; k < s.length(); ) { char_len = utf8_len_char(...);
      if (char_len == 0) { if (unk != -1) push(unk); k++; continue; }
      char_s = s.substr(k, char_len);
      it = token_to_id.find(char_s);
      if (it != end) push(it->second); else if (unk != -1) push(unk);
      k += char_len; }]
    This loop occurs three times in the source, with the same body. *)
Fixpoint lookup_codepoints_loop (v : SanaVocab) (fuel : nat) (rest : bytes) : list Z :=
  match fuel with
  | 0 => []
  | S fuel' =>
    match rest with
    | [] => []
    | _ :: _ =>
      let char_len := utf8_len_char rest (length rest) in
      if char_len =? 0 then push_unk v ++ lookup_codepoints_loop v fuel' (drop 1 rest)
      else
        let char_s := take char_len rest in
        match token_to_id v !! char_s with
        | Some id => [id]
        | None => push_unk v
        end ++ lookup_codepoints_loop v fuel' (drop char_len rest)
    end
  end.

Definition lookup_codepoints (v : SanaVocab) (s : bytes) : list Z :=
  lookup_codepoints_loop v (length s) s.

(** ** SentencePiece-style tokenizer *)

(** [struct SanaSpmSymbol]; [text_ptr] is kept as an offset into the text. *)
Module SanaSpmSymbol.
Record t : Type := mk { prev : Z; next : Z; text_ptr : nat; n : nat }.

(** The member initialisers. *)
Definition init : t := {| prev := -1; next := -1; text_ptr := 0; n := 0 |}.

Definition with_prev (sym : t) (p : Z) : t :=
  {| prev := p; next := next sym; text_ptr := text_ptr sym; n := n sym |}.
Definition with_next (sym : t) (x : Z) : t :=
  {| prev := prev sym; next := x; text_ptr := text_ptr sym; n := n sym |}.
Definition with_n (sym : t) (len : nat) : t :=
  {| prev := prev sym; next := next sym; text_ptr := text_ptr sym; n := len |}.
End SanaSpmSymbol.

(** [x < y] on scores. *)
Definition Qlt_bool (x y : Q) : bool := negb (Qle_bool y x).

(** [struct SanaSpmBigram] with its [comparator]. *)
Module SanaSpmBigram.
Record t : Type := mk { left : Z; right : Z; score : Q; size : nat }.

Definition comparator (l r : t) : bool :=
  if negb (Qeq_bool (score l) (score r)) then Qlt_bool (score l) (score r)
  else (left r <? left l)%Z.
End SanaSpmBigram.

(** *** The work queue

    [std::priority_queue<SanaSpmBigram, ..., comparator>] is modelled by its
    contract: the queue is the collection of pushed candidates, and [top]
    is a candidate that the comparator puts below no other.  The candidates
    are kept in push order; among candidates that the comparator does not
    separate (same score and same left index) the earliest pushed is on
    top. *)

Definition pq_push (work_queue : list SanaSpmBigram.t) (b : SanaSpmBigram.t)
  : list SanaSpmBigram.t := work_queue ++ [b].

(** Scan for the position of the top: [best] at position [best_i] is the
    greatest candidate seen so far, [q] the candidates from position [i] on. *)
Fixpoint pq_top_scan (best_i : nat) (best : SanaSpmBigram.t) (i : nat)
    (q : list SanaSpmBigram.t) : nat * SanaSpmBigram.t :=
  match q with
  | [] => (best_i, best)
  | x :: q' =>
    if SanaSpmBigram.comparator best x then pq_top_scan i x (S i) q'
    else pq_top_scan best_i best (S i) q'
  end.

(** [top()] followed by [pop()]; [None] on the empty queue. *)
Definition pq_pop (work_queue : list SanaSpmBigram.t)
  : option (SanaSpmBigram.t * list SanaSpmBigram.t) :=
  match work_queue with
  | [] => None
  | x :: q' =>
    let '(i, b) := pq_top_scan 0 x 1 q' in
    Some (b, delete i work_queue)
  end.

(** *** Symbols *)

(** [symbols[i]] for an index the source has checked to be in range. *)
Definition symbol_at (symbols : list SanaSpmSymbol.t) (i : Z) : SanaSpmSymbol.t :=
  default SanaSpmSymbol.init (symbols !! Z.to_nat i).

(** [(size_t) i >= symbols.size()] *)
Definition index_past_end (symbols : list SanaSpmSymbol.t) (i : Z) : bool :=
  (Z.of_nat (length symbols) <=? to_size_t i)%Z.

(** [std::string(text_ptr, count)] *)
Definition piece_at (text : bytes) (text_ptr count : nat) : list ascii :=
  take count (drop text_ptr text).

(** The segmentation loop of [tokenize_spm]: one symbol per codepoint, a
    byte on which [utf8_len_char] returns 0 is skipped. *)
Fixpoint spm_segment_loop (fuel : nat) (rest : bytes) (current_symbol_idx : Z)
    (current_offs : nat) (symbols : list SanaSpmSymbol.t) : list SanaSpmSymbol.t :=
  match fuel with
  | 0 => symbols
  | S fuel' =>
    match rest with
    | [] => symbols
    | _ :: _ =>
      let char_len := utf8_len_char rest (length rest) in
      if char_len =? 0
      then spm_segment_loop fuel' (drop 1 rest) current_symbol_idx (current_offs + 1) symbols
      else
        let sym := {| SanaSpmSymbol.prev := current_symbol_idx - 1;
                      SanaSpmSymbol.next := -1;
                      SanaSpmSymbol.text_ptr := current_offs;
                      SanaSpmSymbol.n := char_len |} in
        spm_segment_loop fuel' (drop char_len rest) (current_symbol_idx + 1)
          (current_offs + char_len) (symbols ++ [sym])
    end
  end.

Definition spm_segment (text : bytes) : list SanaSpmSymbol.t :=
  spm_segment_loop (length text) text 0 0 [].

(** [for (i = 0; i < symbols.size(); ++i)
      symbols[i].next = (i < symbols.size() - 1) ? i + 1 : -1;] *)
Definition spm_link (symbols : list SanaSpmSymbol.t) : list SanaSpmSymbol.t :=
  imap (fun i sym =>
          SanaSpmSymbol.with_next sym
            (if i <? length symbols - 1 then (Z.of_nat i + 1)%Z else (-1)%Z))
       symbols.

(** The lambda [try_add_bigram_spm]; the captured [work_queue] is threaded. *)
Definition try_add_bigram_spm (v : SanaVocab) (text : bytes)
    (symbols : list SanaSpmSymbol.t) (work_queue : list SanaSpmBigram.t)
    (left_idx right_idx : Z) : list SanaSpmBigram.t :=
  if (left_idx =? -1)%Z || (right_idx =? -1)%Z then work_queue
  else if index_past_end symbols left_idx || index_past_end symbols right_idx
  then work_queue
  else
    let left_s := symbol_at symbols left_idx in
    let right_s := symbol_at symbols right_idx in
    if (SanaSpmSymbol.n left_s =? 0) || (SanaSpmSymbol.n right_s =? 0) then work_queue
    else
      let piece := piece_at text (SanaSpmSymbol.text_ptr left_s)
                     (SanaSpmSymbol.n left_s + SanaSpmSymbol.n right_s) in
      match token_to_id v !! piece with
      | Some id =>
        if (to_uint32 id <? Z.of_nat (length (id_to_score v)))%Z
        then pq_push work_queue
               {| SanaSpmBigram.left := left_idx;
                  SanaSpmBigram.right := right_idx;
                  SanaSpmBigram.score := nth (Z.to_nat id) (id_to_score v) 0%Q;
                  SanaSpmBigram.size := length piece |}
        else work_queue
      | None => work_queue
      end.

(** [for (i = 0; i < symbols.size() - 1; ++i) try_add_bigram_spm(i, i + 1);] *)
Definition spm_seed_queue (v : SanaVocab) (text : bytes)
    (symbols : list SanaSpmSymbol.t) : list SanaSpmBigram.t :=
  foldl (fun work_queue i =>
           try_add_bigram_spm v text symbols work_queue (Z.of_nat i) (Z.of_nat i + 1))
        [] (seq 0 (length symbols - 1)).

(** *** The merge loop *)

Definition set_n (symbols : list SanaSpmSymbol.t) (i : Z) (len : nat) :=
  alter (fun sym => SanaSpmSymbol.with_n sym len) (Z.to_nat i) symbols.
Definition set_next (symbols : list SanaSpmSymbol.t) (i : Z) (x : Z) :=
  alter (fun sym => SanaSpmSymbol.with_next sym x) (Z.to_nat i) symbols.
Definition set_prev (symbols : list SanaSpmSymbol.t) (i : Z) (p : Z) :=
  alter (fun sym => SanaSpmSymbol.with_prev sym p) (Z.to_nat i) symbols.

(** The staleness check on a popped candidate, the two [continue]s of the
    loop body: an index past the end, an absorbed symbol, or a combined
    length that differs from the recorded size. *)
Definition spm_bigram_rejected (symbols : list SanaSpmSymbol.t)
    (bigram : SanaSpmBigram.t) : bool :=
  if index_past_end symbols (SanaSpmBigram.left bigram)
     || index_past_end symbols (SanaSpmBigram.right bigram)
  then true
  else
    let left_sym := symbol_at symbols (SanaSpmBigram.left bigram) in
    let right_sym := symbol_at symbols (SanaSpmBigram.right bigram) in
    (SanaSpmSymbol.n left_sym =? 0) || (SanaSpmSymbol.n right_sym =? 0)
    || negb (SanaSpmSymbol.n left_sym + SanaSpmSymbol.n right_sym
             =? SanaSpmBigram.size bigram).

(** The assignments of the loop body after the check, in source order;
    [left_sym] and [right_sym] are references into [symbols], so every read
    goes to the current array. *)
Definition spm_merge_symbols (symbols : list SanaSpmSymbol.t)
    (bigram : SanaSpmBigram.t) : list SanaSpmSymbol.t :=
  let l := SanaSpmBigram.left bigram in
  let r := SanaSpmBigram.right bigram in
  (* left_sym.n += right_sym.n; *)
  let symbols1 :=
    set_n symbols l (SanaSpmSymbol.n (symbol_at symbols l)
                     + SanaSpmSymbol.n (symbol_at symbols r)) in
  (* right_sym.n = 0; *)
  let symbols2 := set_n symbols1 r 0 in
  (* left_sym.next = right_sym.next; *)
  let symbols3 := set_next symbols2 l (SanaSpmSymbol.next (symbol_at symbols2 r)) in
  (* if (right_sym.next != -1 && (size_t)right_sym.next < symbols.size())
       symbols[right_sym.next].prev = bigram.left; *)
  let rn := SanaSpmSymbol.next (symbol_at symbols3 r) in
  if negb (rn =? -1)%Z && negb (index_past_end symbols3 rn)
  then set_prev symbols3 rn l
  else symbols3.

(** One iteration of [while (!work_queue.empty())], after [top]/[pop]. *)
Definition spm_merge_step (v : SanaVocab) (text : bytes)
    (symbols : list SanaSpmSymbol.t) (work_queue : list SanaSpmBigram.t)
    (bigram : SanaSpmBigram.t)
  : list SanaSpmSymbol.t * list SanaSpmBigram.t :=
  if spm_bigram_rejected symbols bigram then (symbols, work_queue)
  else
    let symbols' := spm_merge_symbols symbols bigram in
    let l := SanaSpmBigram.left bigram in
    (* try_add_bigram_spm(left_sym.prev, bigram.left); *)
    let work_queue1 :=
      try_add_bigram_spm v text symbols' work_queue
        (SanaSpmSymbol.prev (symbol_at symbols' l)) l in
    (* try_add_bigram_spm(bigram.left, left_sym.next); *)
    let work_queue2 :=
      try_add_bigram_spm v text symbols' work_queue1
        l (SanaSpmSymbol.next (symbol_at symbols' l)) in
    (symbols', work_queue2).

(** [while (!work_queue.empty()) { ... }]; [None] when [fuel] iterations do
    not empty the queue. *)
Fixpoint spm_merge_loop (fuel : nat) (v : SanaVocab) (text : bytes)
    (symbols : list SanaSpmSymbol.t) (work_queue : list SanaSpmBigram.t)
  : option (list SanaSpmSymbol.t) :=
  match pq_pop work_queue with
  | None => Some symbols
  | Some (bigram, work_queue') =>
    match fuel with
    | 0 => None
    | S fuel' =>
      let '(symbols', work_queue'') :=
        spm_merge_step v text symbols work_queue' bigram in
      spm_merge_loop fuel' v text symbols' work_queue''
    end
  end.

(** What one surviving symbol contributes to the output. *)
Definition spm_emit_symbol (v : SanaVocab) (text : bytes)
    (sym : SanaSpmSymbol.t) : list Z :=
  if 0 <? SanaSpmSymbol.n sym then
    let final_piece := piece_at text (SanaSpmSymbol.text_ptr sym) (SanaSpmSymbol.n sym) in
    match token_to_id v !! final_piece with
    | Some id => [id]
    | None => lookup_codepoints v final_piece
    end
  else [].

(** [for (int i = 0; i != -1; i = symbols[i].next) { ... }]; [None] when the
    walk leaves the array (an unchecked [symbols[i]]) or does not end within
    [fuel] steps. *)
Fixpoint spm_emit_loop (fuel : nat) (v : SanaVocab) (text : bytes)
    (symbols : list SanaSpmSymbol.t) (i : Z) : option (list Z) :=
  if (i =? -1)%Z then Some []
  else
    match fuel with
    | 0 => None
    | S fuel' =>
      if (i <? 0)%Z then None
      else
        match symbols !! Z.to_nat i with
        | None => None
        | Some sym =>
          match spm_emit_loop fuel' v text symbols (SanaSpmSymbol.next sym) with
          | None => None
          | Some output_tokens => Some (spm_emit_symbol v text sym ++ output_tokens)
          end
        end
    end.

(** [SanaVocab::tokenize_spm], with the iteration bounds made explicit: a
    merge removes one live symbol and pushes at most two candidates, and the
    final walk visits every symbol at most once. *)
Definition tokenize_spm_run (v : SanaVocab) (text : bytes) : option (list Z) :=
  if bool_decide (text = []) || bool_decide (id_to_score v = []) then
    Some (if negb (bool_decide (text = [])) then push_unk v else [])
  else
    let symbols := spm_segment text in
    if bool_decide (symbols = []) then Some []
    else
      let symbols := spm_link symbols in
      let work_queue := spm_seed_queue v text symbols in
      match spm_merge_loop (length work_queue + 2 * length symbols) v text
              symbols work_queue with
      | None => None
      | Some symbols' => spm_emit_loop (length symbols') v text symbols' 0
      end.

Definition tokenize_spm (v : SanaVocab) (text : bytes) : list Z :=
  default [] (tokenize_spm_run v text).

(** ** Byte-pair tokenizer *)

(** *** The pre-tokenization pattern

    [std::regex re(R"('s|'t|'re|'ve|'m|'ll|'d|[[:alpha:]]+|[0-9]+|[^\s[:alnum:]]+|\s+)")]
    with the ECMAScript grammar on [char] and the classic "C" locale: the
    alternatives are tried in the order written and the first that matches
    is taken; [+] is greedy and nothing follows it, so it takes the longest
    run. *)

Definition in_range (lo hi : Z) (c : ascii) : bool :=
  (lo <=? uchar c)%Z && (uchar c <=? hi)%Z.

(** [[:alpha:]] *)
Definition is_alpha (c : ascii) : bool := in_range 65 90 c || in_range 97 122 c.
(** [0-9] *)
Definition is_digit (c : ascii) : bool := in_range 48 57 c.
(** [[:alnum:]] *)
Definition is_alnum (c : ascii) : bool := is_alpha c || is_digit c.
(** [\s]: space, and tab to carriage return *)
Definition is_space (c : ascii) : bool := (uchar c =? 32)%Z || in_range 9 13 c.
(** [^\s[:alnum:]] *)
Definition is_other (c : ascii) : bool := negb (is_space c || is_alnum c).

Fixpoint starts_with (lit rest : bytes) : bool :=
  match lit, rest with
  | [], _ => true
  | a :: lit', b :: rest' => bool_decide (a = b) && starts_with lit' rest'
  | _ :: _, [] => false
  end.

(** Length of the longest prefix of [rest] in the class. *)
Fixpoint run_length (cls : ascii -> bool) (rest : bytes) : nat :=
  match rest with
  | c :: rest' => if cls c then S (run_length cls rest') else 0
  | [] => 0
  end.

(** A literal alternative: the length matched at the head of [rest]. *)
Definition match_literal (lit : string) (rest : bytes) : option nat :=
  if starts_with (str lit) rest then Some (length (str lit)) else None.

(** An alternative [cls+]. *)
Definition match_plus (cls : ascii -> bool) (rest : bytes) : option nat :=
  match run_length cls rest with
  | 0 => None
  | S k => Some (S k)
  end.

Definition gpt2_alternatives : list (list ascii -> option nat) :=
  [ match_literal "'s"; match_literal "'t"; match_literal "'re";
    match_literal "'ve"; match_literal "'m"; match_literal "'ll";
    match_literal "'d";
    match_plus is_alpha; match_plus is_digit; match_plus is_other;
    match_plus is_space ].

(** The match of the pattern that starts at the head of [rest], if any. *)
Fixpoint first_match (alts : list (list ascii -> option nat)) (rest : bytes)
  : option nat :=
  match alts with
  | [] => None
  | alt :: alts' =>
    match alt rest with
    | Some len => Some len
    | None => first_match alts' rest
    end
  end.

(** The matches enumerated by [std::sregex_token_iterator(..., re, 0)]: the
    search resumes where the previous match ended, and moves one byte to
    the right when no alternative matches at a position. *)
Fixpoint regex_matches_loop (fuel : nat) (rest : bytes) : list (list ascii) :=
  match fuel with
  | 0 => []
  | S fuel' =>
    match rest with
    | [] => []
    | _ :: _ =>
      match first_match gpt2_alternatives rest with
      | Some len => take len rest :: regex_matches_loop fuel' (drop len rest)
      | None => regex_matches_loop fuel' (drop 1 rest)
      end
    end
  end.

Definition regex_matches (text : bytes) : list (list ascii) :=
  regex_matches_loop (length text) text.

(** [bpe_pre_tokenize_gpt2] *)
Definition bpe_pre_tokenize_gpt2 (text : bytes) : list (list ascii) :=
  if bool_decide (text = []) then []
  else
    let sub_matches := regex_matches text in
    (* if (sub_match.length() > 0) result.push_back(sub_match.str()); *)
    let result := filter (fun m => 0 < length m) sub_matches in
    (* last_pos += sub_match.length(); *)
    let last_pos := foldl (fun pos m => pos + length m) 0 sub_matches in
    let result :=
      if last_pos <? length text
      then result ++ split_codepoints (drop last_pos text)
      else result in
    if bool_decide (result = []) && negb (bool_decide (text = []))
    then result ++ split_codepoints text
    else result.

(** *** The merge scan *)

(** The [for (j = 0; j < sub_tokens.size() - 1; ++j)] scan; [rest] is
    [sub_tokens] from position [j] on. *)
Fixpoint bpe_scan_loop (ranks : gmap (list ascii * list ascii) Z)
    (rest : list (list ascii)) (j : nat) (best_rank merge_idx : Z) : Z * Z :=
  match rest with
  | a :: (b :: _) as rest' =>
    match ranks !! (a, b) with
    | Some rank =>
      if (best_rank =? -1)%Z || (rank <? best_rank)%Z
      then bpe_scan_loop ranks rest' (S j) rank (Z.of_nat j)
      else bpe_scan_loop ranks rest' (S j) best_rank merge_idx
    | None => bpe_scan_loop ranks rest' (S j) best_rank merge_idx
    end
  | _ => (best_rank, merge_idx)
  end.

(** [best_rank] and [merge_idx] after the scan. *)
Definition bpe_scan (ranks : gmap (list ascii * list ascii) Z)
    (sub_tokens : list (list ascii)) : Z * Z :=
  bpe_scan_loop ranks sub_tokens 0 (-1) (-1).

(** [merged = sub_tokens[i] + sub_tokens[i+1];
     sub_tokens.erase(begin + i, begin + i + 2);
     sub_tokens.insert(begin + i, merged);] *)
Definition bpe_merge_at (sub_tokens : list (list ascii)) (merge_idx : Z)
  : list (list ascii) :=
  let i := Z.to_nat merge_idx in
  let merged_token_str := default [] (sub_tokens !! i) ++ default [] (sub_tokens !! (i + 1)) in
  let erased := take i sub_tokens ++ drop (i + 2) sub_tokens in
  take i erased ++ merged_token_str :: drop i erased.

(** [while (merged_in_iteration && sub_tokens.size() > 1) { ... }]; [None]
    when [fuel] iterations do not end the loop. *)
Fixpoint bpe_merge_loop (fuel : nat) (ranks : gmap (list ascii * list ascii) Z)
    (sub_tokens : list (list ascii)) : option (list (list ascii)) :=
  if length sub_tokens <=? 1 then Some sub_tokens
  else
    match fuel with
    | 0 => None
    | S fuel' =>
      let '(best_rank, merge_idx) := bpe_scan ranks sub_tokens in
      if (best_rank =? -1)%Z then Some sub_tokens
      else bpe_merge_loop fuel' ranks (bpe_merge_at sub_tokens merge_idx)
    end.

(** What a final piece contributes to the output. *)
Definition bpe_emit_piece (v : SanaVocab) (st : bytes) : list Z :=
  match token_to_id v !! st with
  | Some id => [id]
  | None => lookup_codepoints v st
  end.

(** The body of [for (const std::string& word : words)]. *)
Definition tokenize_bpe_word (v : SanaVocab) (word : bytes) : option (list Z) :=
  if bool_decide (word = []) then Some []
  else
    match token_to_id v !! word with
    | Some id => Some [id]
    | None =>
      let sub_tokens := split_codepoints word in
      if bool_decide (sub_tokens = []) then Some []
      else
        match bpe_merge_loop (length sub_tokens) (bpe_ranks v) sub_tokens with
        | None => None
        | Some sub_tokens' => Some (concat (map (bpe_emit_piece v) sub_tokens'))
        end
    end.

Fixpoint tokenize_bpe_words (v : SanaVocab) (words : list (list ascii))
  : option (list Z) :=
  match words with
  | [] => Some []
  | word :: words' =>
    match tokenize_bpe_word v word, tokenize_bpe_words v words' with
    | Some ids, Some output_tokens => Some (ids ++ output_tokens)
    | _, _ => None
    end
  end.

(** [SanaVocab::tokenize_bpe] *)
Definition tokenize_bpe_run (v : SanaVocab) (text : bytes) : option (list Z) :=
  if bool_decide (text = []) then Some []
  else if bool_decide (bpe_ranks v = ∅) && (length (id_to_token v) <? 256)
  then Some (lookup_codepoints v text)
  else tokenize_bpe_words v (bpe_pre_tokenize_gpt2 text).

Definition tokenize_bpe (v : SanaVocab) (text : bytes) : list Z :=
  default [] (tokenize_bpe_run v text).

(** ** [SanaVocab::tokenize] *)

(** [id != -1 && (uint32_t) id < id_to_token.size()] *)
Definition special_in_range (v : SanaVocab) (id : Z) : bool :=
  negb (id =? -1)%Z && (to_uint32 id <? Z.of_nat (length (id_to_token v)))%Z.

Definition tokenize (v : SanaVocab) (text : bytes) (add_bos add_eos : bool)
  : list Z :=
  let output :=
    if add_bos && special_in_range v (bos_token_id v) then [bos_token_id v] else [] in
  let tokens :=
    match type v with
    | SPM => tokenize_spm v text
    | BPE => tokenize_bpe v text
    end in
  let output := output ++ tokens in
  if add_eos && special_in_range v (eos_token_id v)
  then output ++ [eos_token_id v]
  else output.

(** ** Loading a vocabulary

    The GGUF key-value store is outside the translation unit; it is
    modelled by what the loader asks of it: a sequence of keyed values, a
    key search that yields an index or -1, and typed getters.  A getter
    applied to a value of another type aborts the process in the library;
    here it yields [None]. *)

Inductive gguf_type : Set :=
  | GGUF_TYPE_UINT32 | GGUF_TYPE_INT32 | GGUF_TYPE_FLOAT32
  | GGUF_TYPE_STRING | GGUF_TYPE_ARRAY.

Inductive gguf_value : Type :=
  | gguf_u32 (x : Z)
  | gguf_i32 (x : Z)
  | gguf_f32 (x : Q)
  | gguf_string (s : list ascii)
  (** an array of strings; [None] is an element for which
      [gguf_get_arr_str] returns a null pointer *)
  | gguf_strings (a : list (option (list ascii)))
  | gguf_floats (a : list Q).

Definition gguf_context : Type := list (string * gguf_value).

Fixpoint gguf_find_key_from (ctx : gguf_context) (key : string) (i : Z) : Z :=
  match ctx with
  | [] => -1
  | (k, _) :: ctx' => if bool_decide (k = key) then i else gguf_find_key_from ctx' key (i + 1)
  end.

Definition gguf_find_key (ctx : gguf_context) (key : string) : Z :=
  gguf_find_key_from ctx key 0.

Definition gguf_value_at (ctx : gguf_context) (idx : Z) : option gguf_value :=
  if (idx <? 0)%Z then None else snd <$> ctx !! Z.to_nat idx.

Definition gguf_get_kv_type (ctx : gguf_context) (idx : Z) : option gguf_type :=
  match gguf_value_at ctx idx with
  | Some (gguf_u32 _) => Some GGUF_TYPE_UINT32
  | Some (gguf_i32 _) => Some GGUF_TYPE_INT32
  | Some (gguf_f32 _) => Some GGUF_TYPE_FLOAT32
  | Some (gguf_string _) => Some GGUF_TYPE_STRING
  | Some (gguf_strings _) | Some (gguf_floats _) => Some GGUF_TYPE_ARRAY
  | None => None
  end.

Definition gguf_get_val_str (ctx : gguf_context) (idx : Z) : option (list ascii) :=
  match gguf_value_at ctx idx with Some (gguf_string s) => Some s | _ => None end.

Definition gguf_get_val_u32 (ctx : gguf_context) (idx : Z) : option Z :=
  match gguf_value_at ctx idx with Some (gguf_u32 x) => Some x | _ => None end.

Definition gguf_get_val_i32 (ctx : gguf_context) (idx : Z) : option Z :=
  match gguf_value_at ctx idx with Some (gguf_i32 x) => Some x | _ => None end.

Definition gguf_get_arr_n (ctx : gguf_context) (idx : Z) : option Z :=
  match gguf_value_at ctx idx with
  | Some (gguf_strings a) => Some (Z.of_nat (length a))
  | Some (gguf_floats a) => Some (Z.of_nat (length a))
  | _ => None
  end.

(** [gguf_get_arr_str(ctx, idx, i)]: [Some None] is a null pointer. *)
Definition gguf_get_arr_str (ctx : gguf_context) (idx : Z) (i : nat)
  : option (option (list ascii)) :=
  match gguf_value_at ctx idx with
  | Some (gguf_strings a) => a !! i
  | _ => None
  end.

Definition gguf_get_arr_data (ctx : gguf_context) (idx : Z) : option (list Q) :=
  match gguf_value_at ctx idx with Some (gguf_floats a) => Some a | _ => None end.

(** [std::vector::resize(n)] with value-initialised new elements. *)
Definition resize {A} (n : nat) (d : A) (l : list A) : list A :=
  take n l ++ replicate (n - length l) d.

(** Field updates of [*this]. *)
Definition set_token_to_id (v : SanaVocab) (x : gmap (list ascii) Z) : SanaVocab :=
  {| token_to_id := x; id_to_token := id_to_token v; id_to_score := id_to_score v;
     bos_token_id := bos_token_id v; eos_token_id := eos_token_id v;
     pad_token_id := pad_token_id v; unk_token_id := unk_token_id v; type := type v;
     bpe_ranks := bpe_ranks v; bpe_merges := bpe_merges v |}.
Definition set_id_to_token (v : SanaVocab) (x : list (list ascii)) : SanaVocab :=
  {| token_to_id := token_to_id v; id_to_token := x; id_to_score := id_to_score v;
     bos_token_id := bos_token_id v; eos_token_id := eos_token_id v;
     pad_token_id := pad_token_id v; unk_token_id := unk_token_id v; type := type v;
     bpe_ranks := bpe_ranks v; bpe_merges := bpe_merges v |}.
Definition set_id_to_score (v : SanaVocab) (x : list Q) : SanaVocab :=
  {| token_to_id := token_to_id v; id_to_token := id_to_token v; id_to_score := x;
     bos_token_id := bos_token_id v; eos_token_id := eos_token_id v;
     pad_token_id := pad_token_id v; unk_token_id := unk_token_id v; type := type v;
     bpe_ranks := bpe_ranks v; bpe_merges := bpe_merges v |}.
Definition set_bos_token_id (v : SanaVocab) (x : Z) : SanaVocab :=
  {| token_to_id := token_to_id v; id_to_token := id_to_token v; id_to_score := id_to_score v;
     bos_token_id := x; eos_token_id := eos_token_id v;
     pad_token_id := pad_token_id v; unk_token_id := unk_token_id v; type := type v;
     bpe_ranks := bpe_ranks v; bpe_merges := bpe_merges v |}.
Definition set_eos_token_id (v : SanaVocab) (x : Z) : SanaVocab :=
  {| token_to_id := token_to_id v; id_to_token := id_to_token v; id_to_score := id_to_score v;
     bos_token_id := bos_token_id v; eos_token_id := x;
     pad_token_id := pad_token_id v; unk_token_id := unk_token_id v; type := type v;
     bpe_ranks := bpe_ranks v; bpe_merges := bpe_merges v |}.
Definition set_pad_token_id (v : SanaVocab) (x : Z) : SanaVocab :=
  {| token_to_id := token_to_id v; id_to_token := id_to_token v; id_to_score := id_to_score v;
     bos_token_id := bos_token_id v; eos_token_id := eos_token_id v;
     pad_token_id := x; unk_token_id := unk_token_id v; type := type v;
     bpe_ranks := bpe_ranks v; bpe_merges := bpe_merges v |}.
Definition set_unk_token_id (v : SanaVocab) (x : Z) : SanaVocab :=
  {| token_to_id := token_to_id v; id_to_token := id_to_token v; id_to_score := id_to_score v;
     bos_token_id := bos_token_id v; eos_token_id := eos_token_id v;
     pad_token_id := pad_token_id v; unk_token_id := x; type := type v;
     bpe_ranks := bpe_ranks v; bpe_merges := bpe_merges v |}.
Definition set_type (v : SanaVocab) (x : Type_) : SanaVocab :=
  {| token_to_id := token_to_id v; id_to_token := id_to_token v; id_to_score := id_to_score v;
     bos_token_id := bos_token_id v; eos_token_id := eos_token_id v;
     pad_token_id := pad_token_id v; unk_token_id := unk_token_id v; type := x;
     bpe_ranks := bpe_ranks v; bpe_merges := bpe_merges v |}.
Definition set_bpe_ranks (v : SanaVocab) (x : gmap (list ascii * list ascii) Z) : SanaVocab :=
  {| token_to_id := token_to_id v; id_to_token := id_to_token v; id_to_score := id_to_score v;
     bos_token_id := bos_token_id v; eos_token_id := eos_token_id v;
     pad_token_id := pad_token_id v; unk_token_id := unk_token_id v; type := type v;
     bpe_ranks := x; bpe_merges := bpe_merges v |}.
Definition set_bpe_merges (v : SanaVocab) (x : list (list ascii)) : SanaVocab :=
  {| token_to_id := token_to_id v; id_to_token := id_to_token v; id_to_score := id_to_score v;
     bos_token_id := bos_token_id v; eos_token_id := eos_token_id v;
     pad_token_id := pad_token_id v; unk_token_id := unk_token_id v; type := type v;
     bpe_ranks := bpe_ranks v; bpe_merges := x |}.

(** [s.find(' ')]: the position of the first space, [None] for [npos]. *)
Fixpoint find_space (s : bytes) : option nat :=
  match s with
  | [] => None
  | c :: s' => if bool_decide (c = " "%char) then Some 0 else S <$> find_space s'
  end.

(** The body of the merges loop for index [i]. *)
Definition load_merge (ctx : gguf_context) (merges_idx : Z) (i : nat)
    (v : SanaVocab) : option SanaVocab :=
  merge_str_c ← gguf_get_arr_str ctx merges_idx i;
  let v1 :=
    match merge_str_c with
    | Some s => set_bpe_merges v (<[i := s]> (bpe_merges v))
    | None => v
    end in
  let merge := default [] (bpe_merges v1 !! i) in
  Some
    match find_space merge with
    | Some space_pos =>
      if (0 <? space_pos) && (space_pos <? length merge - 1) then
        let p1 := take space_pos merge in
        let p2 := drop (space_pos + 1) merge in
        set_bpe_ranks v1 (<[(p1, p2) := to_int32 (Z.of_nat i)]> (bpe_ranks v1))
      else v1
    | None => v1
    end.

(** [for (uint32_t i = 0; i < n_merges; ++i)], on the indices [idxs]. *)
Fixpoint load_merges_loop (ctx : gguf_context) (merges_idx : Z) (idxs : list nat)
    (v : SanaVocab) : option SanaVocab :=
  match idxs with
  | [] => Some v
  | i :: idxs' =>
    v' ← load_merge ctx merges_idx i v;
    load_merges_loop ctx merges_idx idxs' v'
  end.

(** The body of the token loop for index [i]: [inl] is the [return false].
    The data pointer of a score array is not null; reading
    [score_data[i]] past the end of the array is undefined and yields
    [None]. *)
Definition load_token (ctx : gguf_context) (tokens_idx scores_idx : Z) (i : nat)
    (v : SanaVocab) : option (SanaVocab + SanaVocab) :=
  token_text_c ← gguf_get_arr_str ctx tokens_idx i;
  match token_text_c with
  | None => Some (inl v)
  | Some token_text =>
    let v1 := set_id_to_token v (<[i := token_text]> (id_to_token v)) in
    let v2 := set_token_to_id v1 (<[token_text := to_int32 (Z.of_nat i)]> (token_to_id v1)) in
    if negb (scores_idx =? -1)%Z && (i <? length (id_to_score v2)) then
      score_data ← gguf_get_arr_data ctx scores_idx;
      score ← score_data !! i;
      Some (inr (set_id_to_score v2 (<[i := score]> (id_to_score v2))))
    else Some (inr v2)
  end.

(** [for (uint32_t i = 0; i < n_vocab_gguf; ++i)], on the indices [idxs]. *)
Fixpoint load_tokens_loop (ctx : gguf_context) (tokens_idx scores_idx : Z)
    (idxs : list nat) (v : SanaVocab) : option (SanaVocab + SanaVocab) :=
  match idxs with
  | [] => Some (inr v)
  | i :: idxs' =>
    r ← load_token ctx tokens_idx scores_idx i v;
    match r with
    | inl v' => Some (inl v')
    | inr v' => load_tokens_loop ctx tokens_idx scores_idx idxs' v'
    end
  end.

(** The lambda [load_special_token], returning the value assigned. *)
Definition load_special_token (ctx : gguf_context) (key_name : string)
    (default_val_if_not_found : Z) : option Z :=
  let key_idx := gguf_find_key ctx key_name in
  if negb (key_idx =? -1)%Z then
    ty ← gguf_get_kv_type ctx key_idx;
    match ty with
    | GGUF_TYPE_UINT32 => to_int32 <$> gguf_get_val_u32 ctx key_idx
    | GGUF_TYPE_INT32 => gguf_get_val_i32 ctx key_idx
    | _ => Some default_val_if_not_found
    end
  else Some default_val_if_not_found.

(** The model type and merges part of [load_from_gguf]. *)
Definition load_model_type (ctx : gguf_context) (v : SanaVocab) : option SanaVocab :=
  let model_type_idx := gguf_find_key ctx "tokenizer.ggml.model" in
  if negb (model_type_idx =? -1)%Z then
    model_name ← gguf_get_val_str ctx model_type_idx;
    if bool_decide (model_name = str "gpt2") || bool_decide (model_name = str "gpt-2")
       || bool_decide (model_name = str "bpe")
    then
      let v1 := set_type v BPE in
      let merges_idx := gguf_find_key ctx "tokenizer.ggml.merges" in
      if negb (merges_idx =? -1)%Z then
        arr_n ← gguf_get_arr_n ctx merges_idx;
        let n_merges := Z.to_nat (to_uint32 arr_n) in
        let v2 := set_bpe_merges v1 (resize n_merges [] (bpe_merges v1)) in
        load_merges_loop ctx merges_idx (seq 0 n_merges) v2
      else Some v1
    else Some (set_type v SPM)
  else Some v.

(** The padding id part of [load_from_gguf]. *)
Definition load_pad_token (ctx : gguf_context) (v : SanaVocab) : option SanaVocab :=
  let pad_id_idx := gguf_find_key ctx "tokenizer.ggml.padding_token_id" in
  let pad_id_idx :=
    if (pad_id_idx =? -1)%Z then gguf_find_key ctx "tokenizer.ggml.pad_token_id"
    else pad_id_idx in
  if negb (pad_id_idx =? -1)%Z then
    ty ← gguf_get_kv_type ctx pad_id_idx;
    match ty with
    | GGUF_TYPE_UINT32 =>
      x ← gguf_get_val_u32 ctx pad_id_idx; Some (set_pad_token_id v (to_int32 x))
    | GGUF_TYPE_INT32 =>
      x ← gguf_get_val_i32 ctx pad_id_idx; Some (set_pad_token_id v x)
    | _ => Some v
    end
  else Some (set_pad_token_id v (-1)).

(** [SanaVocab::load_from_gguf]: the returned flag and [*this] afterwards;
    [None] when a GGUF getter aborts. *)
Definition load_from_gguf (ctx : gguf_context) (v : SanaVocab)
  : option (bool * SanaVocab) :=
  let tokens_idx := gguf_find_key ctx "tokenizer.ggml.tokens" in
  if (tokens_idx =? -1)%Z then Some (false, v)
  else
    v1 ← load_model_type ctx v;
    arr_n ← gguf_get_arr_n ctx tokens_idx;
    let n_vocab_gguf := Z.to_nat (to_uint32 arr_n) in
    let v2 := set_id_to_token v1 (resize n_vocab_gguf [] (id_to_token v1)) in
    let scores_idx := gguf_find_key ctx "tokenizer.ggml.scores" in
    r ← (if negb (scores_idx =? -1)%Z && match type v2 with SPM => true | BPE => false end then
           scores_n ← gguf_get_arr_n ctx scores_idx;
           if (scores_n =? Z.of_nat n_vocab_gguf)%Z
           then Some (scores_idx, set_id_to_score v2 (resize n_vocab_gguf 0%Q (id_to_score v2)))
           else Some ((-1)%Z, v2)
         else Some (scores_idx, v2));
    let '(scores_idx, v3) := r in
    r ← load_tokens_loop ctx tokens_idx scores_idx (seq 0 n_vocab_gguf) v3;
    match r with
    | inl v4 => Some (false, v4)
    | inr v4 =>
      bos ← load_special_token ctx "tokenizer.ggml.bos_token_id" (-1);
      eos ← load_special_token ctx "tokenizer.ggml.eos_token_id" (-1);
      unk ← load_special_token ctx "tokenizer.ggml.unk_token_id" (-1);
      v5 ← load_pad_token ctx
             (set_unk_token_id (set_eos_token_id (set_bos_token_id v4 bos) eos) unk);
      Some (true, v5)
    end.

(** ** The output as the specification words it

    The definitions of this part follow the wording of the specification;
    the theorems compare them with the functions above. *)

(** The id of a codepoint, the unknown id (if set) for an unmapped one. *)
Definition lookup_or_unk (v : SanaVocab) (cp : list ascii) : list Z :=
  match token_to_id v !! cp with
  | Some id => [id]
  | None => push_unk v
  end.

(** Each codepoint of the text mapped to its id; a byte that does not
    decode is no codepoint. *)
Definition per_codepoint_ids (v : SanaVocab) (text : list ascii) : list Z :=
  concat (map (lookup_or_unk v) (split_codepoints text)).

(** What the walk over a text meets: a codepoint, or a byte on which
    [utf8_len_char] returns 0. *)
Inductive utf8_unit : Type :=
  | Codepoint (cp : list ascii)
  | Undecodable (b : ascii).

Fixpoint utf8_units_loop (fuel : nat) (rest : list ascii) : list utf8_unit :=
  match fuel with
  | 0 => []
  | S fuel' =>
    match rest with
    | [] => []
    | b :: _ =>
      let char_len := utf8_len_char rest (length rest) in
      if char_len =? 0 then Undecodable b :: utf8_units_loop fuel' (drop 1 rest)
      else Codepoint (take char_len rest) :: utf8_units_loop fuel' (drop char_len rest)
    end
  end.

Definition utf8_units (text : list ascii) : list utf8_unit :=
  utf8_units_loop (length text) text.

(** The ids emitted for one unit. *)
Definition unit_ids (v : SanaVocab) (u : utf8_unit) : list Z :=
  match u with
  | Codepoint cp => lookup_or_unk v cp
  | Undecodable _ => push_unk v
  end.

(** Some position of the string decodes to a codepoint. *)
Definition has_codepoint (s : list ascii) : Prop :=
  exists k, k < length s /\ utf8_len_char (drop k s) (length s - k) <> 0.


(** ** Invariants of the SPM merge loop *)

(** The number of symbols that are not absorbed. *)
Definition live_count (symbols : list SanaSpmSymbol.t) : nat :=
  length (filter (fun sym => 0 < SanaSpmSymbol.n sym) symbols).

(** The links of the symbol at index [i] point backwards and forwards:
    [prev] is -1 or a smaller index, [next] is -1 or a larger index of the
    array. *)
Definition links_ordered (len i : nat) (sym : SanaSpmSymbol.t) : Prop :=
  (-1 <= SanaSpmSymbol.prev sym < Z.of_nat i)%Z
  /\ (SanaSpmSymbol.next sym = (-1)%Z
      \/ (Z.of_nat i < SanaSpmSymbol.next sym < Z.of_nat len)%Z).

(** The symbol array is well formed: it has fewer than 2^31 symbols, the
    links are ordered, and the first symbol is alive and starts inside the
    text. *)
Definition symbols_wf (text : list ascii) (symbols : list SanaSpmSymbol.t) : Prop :=
  (Z.of_nat (length symbols) < 2 ^ 31)%Z
  /\ (forall i sym, symbols !! i = Some sym -> links_ordered (length symbols) i sym)
  /\ (exists sym0, symbols !! 0 = Some sym0
        /\ 0 < SanaSpmSymbol.n sym0
        /\ SanaSpmSymbol.text_ptr sym0 < length text).

(** Every candidate names two indices of an array of [len] symbols, the
    left one below the right one. *)
Definition queue_wf (len : nat) (work_queue : list SanaSpmBigram.t) : Prop :=
  forall b, b ∈ work_queue ->
    (0 <= SanaSpmBigram.left b < SanaSpmBigram.right b)%Z
    /\ (SanaSpmBigram.right b < Z.of_nat len)%Z.

(** What segmentation establishes for the symbol at index [i]. *)
Definition segmented (text : list ascii) (i : nat) (sym : SanaSpmSymbol.t) : Prop :=
  SanaSpmSymbol.prev sym = (Z.of_nat i - 1)%Z
  /\ 0 < SanaSpmSymbol.n sym
  /\ SanaSpmSymbol.text_ptr sym < length text.

(** The links among the symbols that are alive form one chain: between a
    live symbol and its successor no symbol is alive, the successor is
    alive, and the predecessor links back. *)
Definition chain_wf (symbols : list SanaSpmSymbol.t) : Prop :=
  forall i sym, symbols !! i = Some sym -> 0 < SanaSpmSymbol.n sym ->
    (forall j sj, i < j ->
       (SanaSpmSymbol.next sym = (-1)%Z \/ (Z.of_nat j < SanaSpmSymbol.next sym)%Z) ->
       symbols !! j = Some sj -> SanaSpmSymbol.n sj = 0)
    /\ (SanaSpmSymbol.next sym <> (-1)%Z ->
        exists sx, symbols !! Z.to_nat (SanaSpmSymbol.next sym) = Some sx
                   /\ 0 < SanaSpmSymbol.n sx)
    /\ (SanaSpmSymbol.prev sym <> (-1)%Z ->
        exists sp, symbols !! Z.to_nat (SanaSpmSymbol.prev sym) = Some sp
                   /\ SanaSpmSymbol.next sp = Z.of_nat i).

(** The text of a symbol is an entry of the vocabulary. *)
Definition known_piece (v : SanaVocab) (text : list ascii) (text_ptr count : nat) : Prop :=
  is_Some (token_to_id v !! piece_at text text_ptr count).

(** What is recorded with a candidate: when it was pushed, its symbols had
    the lengths [nl] and [nr], its right symbol was the successor of its
    left symbol, and the concatenation was an entry of the vocabulary.
    Since then a length has either grown or become 0. *)
Definition candidate_wf (v : SanaVocab) (text : list ascii)
    (symbols : list SanaSpmSymbol.t) (b : SanaSpmBigram.t) : Prop :=
  exists sl sr nl nr,
    symbols !! Z.to_nat (SanaSpmBigram.left b) = Some sl
    /\ symbols !! Z.to_nat (SanaSpmBigram.right b) = Some sr
    /\ 0 < nl /\ 0 < nr /\ SanaSpmBigram.size b <= nl + nr
    /\ (SanaSpmSymbol.n sl = nl -> SanaSpmSymbol.next sl = SanaSpmBigram.right b)
    /\ (0 < SanaSpmSymbol.n sl -> nl <= SanaSpmSymbol.n sl)
    /\ (0 < SanaSpmSymbol.n sr -> nr <= SanaSpmSymbol.n sr)
    /\ known_piece v text (SanaSpmSymbol.text_ptr sl) (SanaSpmBigram.size b).


(** ** Invariants of the merge scan and of the token loop *)


(** What the token loop has established after the indices below [k], for
    the token array [a] and the map [m0] the loop started from: the first
    [k] entries of [id_to_token] are those of the array, and a string is
    mapped to the last index below [k] that holds it. *)
Definition tokens_loaded (a : list (option (list ascii))) (m0 : gmap (list ascii) Z)
    (n k : nat) (v : SanaVocab) : Prop :=
  length (id_to_token v) = n
  /\ (forall i, i < k -> exists t, a !! i = Some (Some t) /\ id_to_token v !! i = Some t)
  /\ (forall t,
        (exists j, j < k /\ a !! j = Some (Some t)
                   /\ (forall j', j < j' < k -> a !! j' <> Some (Some t))
                   /\ token_to_id v !! t = Some (to_int32 (Z.of_nat j)))
        \/ ((forall j, j < k -> a !! j <> Some (Some t))
            /\ token_to_id v !! t = m0 !! t)).

(** ** Stores used in the examples *)

(** A store whose begin id resolves and whose end id is unset. *)
Definition vocab_bos_only : SanaVocab :=
  set_eos_token_id (set_id_to_token SanaVocab_default [str "<s>"; str "a"]) (-1).

(** An SPM store without scores and without an unknown id. *)
Definition vocab_no_scores_no_unk : SanaVocab :=
  set_unk_token_id
    (set_token_to_id (set_id_to_token SanaVocab_default [str "a"]) {[ str "a" := 0%Z ]})
    (-1).

(** An SPM store with scores and the unknown id 2. *)
Definition vocab_spm_small : SanaVocab :=
  set_id_to_score
    (set_token_to_id
       (set_id_to_token SanaVocab_default [str "<s>"; str "</s>"; str "<unk>"; str "a"])
       {[ str "<s>" := 0%Z; str "</s>" := 1%Z; str "<unk>" := 2%Z; str "a" := 3%Z ]})
    [0%Q; 0%Q; 0%Q; (-1)%Q].

(** An SPM store in which the bigrams ["ab"] and ["cd"] have the same
    score, and ["bc"] a lower one. *)
Definition vocab_tie : SanaVocab :=
  set_id_to_score
    (set_token_to_id
       (set_id_to_token SanaVocab_default
          [str "<s>"; str "</s>"; str "<unk>"; str "a"; str "b"; str "c"; str "d";
           str "ab"; str "cd"; str "bc"])
       {[ str "<s>" := 0%Z; str "</s>" := 1%Z; str "<unk>" := 2%Z;
          str "a" := 3%Z; str "b" := 4%Z; str "c" := 5%Z; str "d" := 6%Z;
          str "ab" := 7%Z; str "cd" := 8%Z; str "bc" := 9%Z ]})
    [0%Q; 0%Q; 0%Q; (-5)%Q; (-5)%Q; (-5)%Q; (-5)%Q; (-3 # 2)%Q; (-3 # 2)%Q; (-2)%Q].

(** [vocab_tie] without an unknown id. *)
Definition vocab_tie_no_unk : SanaVocab := set_unk_token_id vocab_tie (-1).

(** A byte-pair store without merges: five entries, the unknown id 2. *)
Definition vocab_bpe_small : SanaVocab :=
  set_type
    (set_token_to_id
       (set_id_to_token SanaVocab_default
          [str "<s>"; str "</s>"; str "<unk>"; str "a"; str "b"])
       {[ str "<s>" := 0%Z; str "</s>" := 1%Z; str "<unk>" := 2%Z;
          str "a" := 3%Z; str "b" := 4%Z ]})
    BPE.

(** A byte-pair store that has ["hello"] as an entry and merges that
    would assemble the word differently. *)
Definition vocab_hello : SanaVocab :=
  set_type
    (set_token_to_id
       (set_id_to_token SanaVocab_default
          [str "<s>"; str "</s>"; str "<unk>"; str "h"; str "e"; str "l";
           str "o"; str "hello"; str "he"; str "lo"])
       {[ str "<s>" := 0%Z; str "</s>" := 1%Z; str "<unk>" := 2%Z;
          str "h" := 3%Z; str "e" := 4%Z; str "l" := 5%Z; str "o" := 6%Z;
          str "hello" := 7%Z; str "he" := 8%Z; str "lo" := 9%Z ]})
    BPE.

Definition ranks_hello : gmap (list ascii * list ascii) Z :=
  {[ (str "h", str "e") := 0%Z; (str "l", str "o") := 1%Z ]}.

(** Merge ranks in which the pair (a, b) comes first. *)
Definition ranks_ab : gmap (list ascii * list ascii) Z :=
  {[ (str "a", str "b") := 0%Z; (str "b", str "a") := 1%Z ]}.

(** A token array in which ["a"] occurs at the ids 0 and 2. *)
Definition gguf_duplicate_tokens : gguf_context :=
  [ ("tokenizer.ggml.tokens"%string,
     gguf_strings [Some (str "a"); Some (str "b"); Some (str "a")]) ].

(** ** Measures and input classes used in the further properties *)

(** The bytes covered by the symbols: the sum of their lengths. *)
Definition total_n (symbols : list SanaSpmSymbol.t) : nat :=
  sum_list (SanaSpmSymbol.n <$> symbols).

(** An id the tokenizers may emit for a text: the unknown id when it is
    set, or the id stored under some key of [token_to_id]. *)
Definition emitted_id (v : SanaVocab) (id : Z) : Prop :=
  (id = unk_token_id v /\ unk_token_id v <> (-1)%Z)
  \/ exists piece, token_to_id v !! piece = Some id.

(** A byte-pair file: four tokens, one merge, the unknown id 0. *)
Definition gguf_bpe_small : gguf_context :=
  [ ("tokenizer.ggml.model"%string, gguf_string (str "gpt2"));
    ("tokenizer.ggml.tokens"%string,
     gguf_strings [Some (str "<unk>"); Some (str "a"); Some (str "b"); Some (str "ab")]);
    ("tokenizer.ggml.merges"%string, gguf_strings [Some (str "a b")]);
    ("tokenizer.ggml.unk_token_id"%string, gguf_u32 0) ].

(** An SPM file: five tokens with their scores, begin id 1, end id 2,
    unknown id 0. *)
Definition gguf_spm_small : gguf_context :=
  [ ("tokenizer.ggml.model"%string, gguf_string (str "llama"));
    ("tokenizer.ggml.tokens"%string,
     gguf_strings [Some (str "<unk>"); Some (str "<s>"); Some (str "</s>");
                   Some (str "a"); Some (str "b"); Some (str "ab")]);
    ("tokenizer.ggml.scores"%string,
     gguf_floats [0%Q; 0%Q; 0%Q; (-2)%Q; (-2)%Q; (-1)%Q]);
    ("tokenizer.ggml.bos_token_id"%string, gguf_u32 1);
    ("tokenizer.ggml.eos_token_id"%string, gguf_u32 2);
    ("tokenizer.ggml.unk_token_id"%string, gguf_u32 0) ].

(** The store a fresh [SanaVocab] holds after loading a file. *)
Definition load_fresh (ctx : gguf_context) : SanaVocab :=
  (default (false, SanaVocab_default) (load_from_gguf ctx SanaVocab_default)).2.

(** A string that [utf8_len_char] takes for one codepoint. *)
Definition single_codepoint (cp : list ascii) : Prop :=
  cp <> [] /\ utf8_len_char cp (length cp) = length cp.

(** A text on which the per-codepoint walk skips no byte: the codepoints
    it finds make up the whole text. *)
Definition decodable (text : list ascii) : Prop :=
  concat (split_codepoints text) = text.

(** In every codepoint of more than one byte, all bytes are from 0x80 on
    (as in UTF-8, where a continuation byte is 0x80..0xBF). *)
Definition multibyte_high (text : list ascii) : Prop :=
  Forall (fun cp => length cp = 1 \/ Forall (fun b => (128 <= uchar b)%Z) cp)
         (split_codepoints text).

(** The symbols lie end to end in the text, from offset [start] to offset
    [e], none of them empty. *)
Fixpoint laid_out (start : nat) (symbols : list SanaSpmSymbol.t) (e : nat) : Prop :=
  match symbols with
  | [] => start = e
  | sym :: symbols' =>
    SanaSpmSymbol.text_ptr sym = start /\ 0 < SanaSpmSymbol.n sym
    /\ laid_out (start + SanaSpmSymbol.n sym) symbols' e
  end.

(** The live symbols cover the text: the first symbol starts at offset 0,
    a live symbol spans whole codepoints and ends where its successor
    starts, or at the end of the text when it has none. *)
Definition spans_wf (text : list ascii) (symbols : list SanaSpmSymbol.t) : Prop :=
  (forall sym0, symbols !! 0 = Some sym0 -> SanaSpmSymbol.text_ptr sym0 = 0)
  /\ forall i sym, symbols !! i = Some sym -> 0 < SanaSpmSymbol.n sym ->
       decodable (piece_at text (SanaSpmSymbol.text_ptr sym) (SanaSpmSymbol.n sym))
       /\ SanaSpmSymbol.text_ptr sym + SanaSpmSymbol.n sym <= length text
       /\ (SanaSpmSymbol.next sym = (-1)%Z ->
           SanaSpmSymbol.text_ptr sym + SanaSpmSymbol.n sym = length text)
       /\ (SanaSpmSymbol.next sym <> (-1)%Z ->
           exists sx, symbols !! Z.to_nat (SanaSpmSymbol.next sym) = Some sx
             /\ SanaSpmSymbol.text_ptr sx
                = SanaSpmSymbol.text_ptr sym + SanaSpmSymbol.n sym).

(** A piece of the output: an entry of the vocabulary, or one codepoint. *)
Definition output_piece (v : SanaVocab) (piece : list ascii) : Prop :=
  piece <> [] /\ (is_Some (token_to_id v !! piece) \/ single_codepoint piece).

(** ** SanaTextEncoderModel: the hyperparameters

    [struct SanaTextEncoderParams] and the part of [SanaTextEncoderModel]
    that [load_params_from_gguf] and [tokenize] work on; the tensor members
    are not touched by them.  The [uint32_t] members are integers in [Z],
    the [float] members values in [Q]. *)

Record SanaTextEncoderParams : Type := {
  n_vocab : Z;
  n_embd : Z;
  n_layer : Z;
  n_head : Z;
  n_ff : Z;
  norm_eps : Q;
  n_rot : Z;
  rope_freq_base : Q;
  rope_freq_scale : Q;
  n_ctx_train : Z;
  n_rel_attn_bkts : Z;
  loaded : bool
}.

(** The value of the literal [1e-6f]: the binary32 number nearest to 10^-6. *)
Definition float_1e_6 : Q := 8796093 # 8796093022208.

(** The member initialisers of [SanaTextEncoderParams]. *)
Definition SanaTextEncoderParams_default : SanaTextEncoderParams := {|
  n_vocab := 32000;
  n_embd := 768;
  n_layer := 12;
  n_head := 12;
  n_ff := 3072;
  norm_eps := float_1e_6;
  n_rot := 64;
  rope_freq_base := 10000;
  rope_freq_scale := 1;
  n_ctx_train := 512;
  n_rel_attn_bkts := 0;
  loaded := false
|}.

Record SanaTextEncoderModel : Type := {
  params : SanaTextEncoderParams;
  vocab : SanaVocab
}.

Definition gguf_get_val_f32 (ctx : gguf_context) (idx : Z) : option Q :=
  match gguf_value_at ctx idx with Some (gguf_f32 x) => Some x | _ => None end.

(** [const char* prefix = "text_encoder.";] *)
Definition text_encoder_prefix : string := "text_encoder.".

(** The lambda [get_u32_optional], returning the value assigned to [val]:
    the getter is called only on a key that is present with the type
    [GGUF_TYPE_UINT32]. *)
Definition get_u32_optional (ctx : gguf_context) (suffix : string) (default_val : Z)
  : option Z :=
  let key := (text_encoder_prefix ++ suffix)%string in
  let k_idx := gguf_find_key ctx key in
  if negb (k_idx =? -1)%Z then
    ty ← gguf_get_kv_type ctx k_idx;
    match ty with
    | GGUF_TYPE_UINT32 => to_uint32 <$> gguf_get_val_u32 ctx k_idx
    | _ => Some default_val
    end
  else Some default_val.

(** The lambda [get_f32_optional]. *)
Definition get_f32_optional (ctx : gguf_context) (suffix : string) (default_val : Q)
  : option Q :=
  let key := (text_encoder_prefix ++ suffix)%string in
  let k_idx := gguf_find_key ctx key in
  if negb (k_idx =? -1)%Z then
    ty ← gguf_get_kv_type ctx k_idx;
    match ty with
    | GGUF_TYPE_FLOAT32 => gguf_get_val_f32 ctx k_idx
    | _ => Some default_val
    end
  else Some default_val.

(** [SanaTextEncoderModel::load_params_from_gguf]: the returned flag and
    the model afterwards; [None] when a GGUF getter aborts. *)
Definition load_params_from_gguf (ctx : gguf_context) (m : SanaTextEncoderModel)
  : option (bool * SanaTextEncoderModel) :=
  r ← load_from_gguf ctx (vocab m);
  let '(ok, vocab') := r in
  if negb ok then Some (false, {| params := params m; vocab := vocab' |})
  else
    (* params.n_vocab = vocab.id_to_token.empty() ? 32000 : vocab.id_to_token.size(); *)
    let n_vocab' :=
      if bool_decide (id_to_token vocab' = []) then 32000%Z
      else to_uint32 (Z.of_nat (length (id_to_token vocab'))) in
    n_embd' ← get_u32_optional ctx "embedding_length" 768;
    n_layer' ← get_u32_optional ctx "block_count" 12;
    n_head' ← get_u32_optional ctx "attention.head_count" 12;
    n_ff' ← get_u32_optional ctx "feed_forward_length" (to_uint32 (n_embd' * 4));
    norm_eps' ← get_f32_optional ctx "attention.layer_norm_rms_epsilon" (-1);
    norm_eps' ← (if Qeq_bool norm_eps' (-1)
                 then get_f32_optional ctx "attention.layer_norm_epsilon" float_1e_6
                 else Some norm_eps');
    let default_rot :=
      if (0 <? n_head')%Z && (0 <? n_embd')%Z then (n_embd' / n_head')%Z else 64%Z in
    n_rot' ← get_u32_optional ctx "rope.dimension_count" default_rot;
    rope_freq_base' ← get_f32_optional ctx "rope.freq_base" 10000;
    rope_freq_scale' ← get_f32_optional ctx "rope.scaling_factor" 1;
    n_ctx_train' ← get_u32_optional ctx "context_length" 512;
    n_rel_attn_bkts' ←
      get_u32_optional ctx "attention.relative_attention_num_buckets" 0;
    Some (true,
          {| params := {| n_vocab := n_vocab'; n_embd := n_embd'; n_layer := n_layer';
                          n_head := n_head'; n_ff := n_ff'; norm_eps := norm_eps';
                          n_rot := n_rot'; rope_freq_base := rope_freq_base';
                          rope_freq_scale := rope_freq_scale';
                          n_ctx_train := n_ctx_train';
                          n_rel_attn_bkts := n_rel_attn_bkts'; loaded := true |};
             vocab := vocab' |}).

(** [SanaTextEncoderModel::tokenize], with its default arguments. *)
Definition SanaTextEncoderModel_tokenize (m : SanaTextEncoderModel) (text : bytes)
    (add_bos add_eos : bool) : list Z :=
  tokenize (vocab m) text add_bos add_eos.

(** A model as its default constructor leaves it. *)
Definition SanaTextEncoderModel_default : SanaTextEncoderModel :=
  {| params := SanaTextEncoderParams_default; vocab := SanaVocab_default |}.

(** A file with hyperparameters: 8 heads over 512 dimensions, and a head
    count key of the wrong type for the block count. *)
Definition gguf_text_encoder_small : gguf_context :=
  gguf_bpe_small ++
  [ ("text_encoder.embedding_length"%string, gguf_u32 512);
    ("text_encoder.attention.head_count"%string, gguf_u32 8);
    ("text_encoder.block_count"%string, gguf_i32 6);
    ("text_encoder.attention.layer_norm_epsilon"%string, gguf_f32 (1 # 100000)) ].

(** The score part of [load_from_gguf], between the resize of
    [id_to_token] and the token loop: the index under which the token loop
    reads scores, and the store with [id_to_score] resized. *)
Definition load_scores_stage (ctx : gguf_context) (n_vocab_gguf : nat) (v2 : SanaVocab)
  : option (Z * SanaVocab) :=
  let scores_idx := gguf_find_key ctx "tokenizer.ggml.scores" in
  if negb (scores_idx =? -1)%Z && match type v2 with SPM => true | BPE => false end then
    scores_n ← gguf_get_arr_n ctx scores_idx;
    if (scores_n =? Z.of_nat n_vocab_gguf)%Z
    then Some (scores_idx, set_id_to_score v2 (resize n_vocab_gguf 0%Q (id_to_score v2)))
    else Some ((-1)%Z, v2)
  else Some (scores_idx, v2).

(** The special ids part of [load_from_gguf], after the token loop. *)
Definition load_special_stage (ctx : gguf_context) (v4 : SanaVocab) : option SanaVocab :=
  bos ← load_special_token ctx "tokenizer.ggml.bos_token_id" (-1);
  eos ← load_special_token ctx "tokenizer.ggml.eos_token_id" (-1);
  unk ← load_special_token ctx "tokenizer.ggml.unk_token_id" (-1);
  load_pad_token ctx
    (set_unk_token_id (set_eos_token_id (set_bos_token_id v4 bos) eos) unk).

(** A token array whose second entry is a null string. *)
Definition gguf_null_token : gguf_context :=
  [ ("tokenizer.ggml.tokens"%string, gguf_strings [Some (str "a"); None; Some (str "b")]) ].

(** A byte-pair file without any special id key. *)
Definition gguf_bpe_no_special : gguf_context :=
  [ ("tokenizer.ggml.model"%string, gguf_string (str "gpt2"));
    ("tokenizer.ggml.tokens"%string, gguf_strings [Some (str "a"); Some (str "b")]) ].

(** An SPM file whose score array is one entry short. *)
Definition gguf_spm_mismatch : gguf_context :=
  [ ("tokenizer.ggml.tokens"%string,
     gguf_strings [Some (str "<unk>"); Some (str "a"); Some (str "b")]);
    ("tokenizer.ggml.scores"%string, gguf_floats [0%Q; (-1)%Q]);
    ("tokenizer.ggml.unk_token_id"%string, gguf_u32 0) ].

(** What the merges loop has established after the indices below [k]:
    every rank comes from a merge line below [k], cut at its first space
    into two parts that are not empty. *)
Definition ranks_from_merges (k : nat) (v : SanaVocab) : Prop :=
  forall p1 p2 r, bpe_ranks v !! (p1, p2) = Some r ->
    p1 <> [] /\ p2 <> [] /\ (" "%char ∉ p1)
    /\ exists i, i < k /\ r = to_int32 (Z.of_nat i)
                 /\ bpe_merges v !! i = Some (p1 ++ " "%char :: p2).


(** * Properties *)

(** ** Machine integers and the UTF-8 classifier *)

Lemma to_uint32_small (x : Z) : (0 <= x < 2 ^ 32)%Z -> to_uint32 x = x.
Proof. intros H. unfold to_uint32. apply Z.mod_small. exact H. Qed.

Lemma to_uint32_neg (x : Z) : (- 2 ^ 31 <= x < 0)%Z -> (2 ^ 31 <= to_uint32 x)%Z.
Proof.
  intros H. unfold to_uint32.
  replace x with (x + 2 ^ 32 + (-1) * 2 ^ 32)%Z by lia.
  rewrite Z.mod_add by lia. rewrite Z.mod_small; lia.
Qed.

Lemma to_size_t_small (x : Z) : (0 <= x < 2 ^ 64)%Z -> to_size_t x = x.
Proof. intros H. unfold to_size_t. apply Z.mod_small. exact H. Qed.

Lemma to_size_t_neg (x : Z) : (- 2 ^ 31 <= x < 0)%Z -> (2 ^ 63 <= to_size_t x)%Z.
Proof.
  intros H. unfold to_size_t.
  replace x with (x + 2 ^ 64 + (-1) * 2 ^ 64)%Z by lia.
  rewrite Z.mod_add by lia. rewrite Z.mod_small; lia.
Qed.

Lemma to_int32_small (x : Z) : (0 <= x < 2 ^ 31)%Z -> to_int32 x = x.
Proof. intros H. unfold to_int32. rewrite Z.mod_small; lia. Qed.

Lemma utf8_len_char_le (s : list ascii) (max_len : nat) :
  utf8_len_char s max_len <= max_len.
Proof.
  unfold utf8_len_char.
  destruct max_len as [|[|[|[|m]]]]; simpl; repeat case_match; lia.
Qed.

Lemma utf8_len_char_le_4 (s : list ascii) (max_len : nat) :
  utf8_len_char s max_len <= 4.
Proof. unfold utf8_len_char. repeat case_match; lia. Qed.


(** ** The per-codepoint loops *)


Lemma push_unk_unset (v : SanaVocab) :
  unk_token_id v = (-1)%Z -> push_unk v = [].
Proof. intros H. unfold push_unk. rewrite H. reflexivity. Qed.

Lemma split_codepoints_loop_fuel (fuel fuel' : nat) (rest : list ascii) :
  length rest <= fuel -> length rest <= fuel' ->
  split_codepoints_loop fuel rest = split_codepoints_loop fuel' rest.
Proof.
  revert fuel' rest. induction fuel as [|fuel IH]; intros fuel' rest H H'.
  - destruct rest; [|simpl in H; lia]. destruct fuel'; reflexivity.
  - destruct fuel' as [|fuel'].
    + destruct rest; [reflexivity | simpl in H'; lia].
    + destruct rest as [|c tl]; [reflexivity|].
      cbn [split_codepoints_loop].
      destruct (Nat.eqb_spec (utf8_len_char (c :: tl) (length (c :: tl))) 0) as [E|E].
      * apply IH; rewrite length_drop; simpl in *; lia.
      * f_equal. apply IH; rewrite length_drop; simpl in *; lia.
Qed.

Lemma lookup_codepoints_loop_fuel (v : SanaVocab) (fuel fuel' : nat) (rest : list ascii) :
  length rest <= fuel -> length rest <= fuel' ->
  lookup_codepoints_loop v fuel rest = lookup_codepoints_loop v fuel' rest.
Proof.
  revert fuel' rest. induction fuel as [|fuel IH]; intros fuel' rest H H'.
  - destruct rest; [|simpl in H; lia]. destruct fuel'; reflexivity.
  - destruct fuel' as [|fuel'].
    + destruct rest; [reflexivity | simpl in H'; lia].
    + destruct rest as [|c tl]; [reflexivity|].
      cbn [lookup_codepoints_loop].
      destruct (Nat.eqb_spec (utf8_len_char (c :: tl) (length (c :: tl))) 0) as [E|E].
      * f_equal. apply IH; rewrite length_drop; simpl in *; lia.
      * f_equal. apply IH; rewrite length_drop; simpl in *; lia.
Qed.

(** Unfolding equations of the two loops at the level of whole strings. *)
Lemma split_codepoints_nil : split_codepoints [] = [].
Proof. reflexivity. Qed.

Lemma split_codepoints_cons (c : ascii) (tl : list ascii) :
  split_codepoints (c :: tl) =
  let char_len := utf8_len_char (c :: tl) (length (c :: tl)) in
  if char_len =? 0 then split_codepoints tl
  else take char_len (c :: tl) :: split_codepoints (drop char_len (c :: tl)).
Proof.
  unfold split_codepoints at 1. cbn [length split_codepoints_loop]. cbv zeta.
  destruct (Nat.eqb_spec (utf8_len_char (c :: tl) (S (length tl))) 0) as [E|E].
  - reflexivity.
  - f_equal. apply split_codepoints_loop_fuel; [|lia].
    rewrite length_drop. simpl. lia.
Qed.

Lemma lookup_codepoints_nil (v : SanaVocab) : lookup_codepoints v [] = [].
Proof. reflexivity. Qed.

Lemma lookup_codepoints_cons (v : SanaVocab) (c : ascii) (tl : list ascii) :
  lookup_codepoints v (c :: tl) =
  let char_len := utf8_len_char (c :: tl) (length (c :: tl)) in
  if char_len =? 0 then push_unk v ++ lookup_codepoints v tl
  else
    match token_to_id v !! take char_len (c :: tl) with
    | Some id => [id]
    | None => push_unk v
    end ++ lookup_codepoints v (drop char_len (c :: tl)).
Proof.
  unfold lookup_codepoints at 1. cbn [length lookup_codepoints_loop]. cbv zeta.
  destruct (Nat.eqb_spec (utf8_len_char (c :: tl) (S (length tl))) 0) as [E|E].
  - reflexivity.
  - f_equal. apply lookup_codepoints_loop_fuel; [|lia].
    rewrite length_drop. simpl. lia.
Qed.


(** ** Early returns of the two tokenizers *)

Lemma tokenize_spm_run_empty_text (v : SanaVocab) : tokenize_spm_run v [] = Some [].
Proof. reflexivity. Qed.

Lemma tokenize_bpe_run_empty_text (v : SanaVocab) : tokenize_bpe_run v [] = Some [].
Proof. reflexivity. Qed.

Lemma tokenize_spm_run_no_scores (v : SanaVocab) (text : list ascii) :
  id_to_score v = [] ->
  tokenize_spm_run v text = Some (if bool_decide (text = []) then [] else push_unk v).
Proof.
  intros Hs. unfold tokenize_spm_run. rewrite Hs.
  rewrite (bool_decide_eq_true_2 ([] = [])) by reflexivity.
  rewrite orb_true_r. destruct (bool_decide (text = [])); reflexivity.
Qed.

(** The check [id != -1 && (uint32_t) id < id_to_token.size()] on 32-bit
    ids and a vocabulary of at most 2^31 entries: the id is an index. *)
Lemma special_in_range_spec (v : SanaVocab) (id : Z) :
  (- 2 ^ 31 <= id < 2 ^ 31)%Z ->
  (Z.of_nat (length (id_to_token v)) <= 2 ^ 31)%Z ->
  special_in_range v id = true <-> (0 <= id < Z.of_nat (length (id_to_token v)))%Z.
Proof.
  intros Hid Hlen. unfold special_in_range.
  rewrite andb_true_iff, negb_true_iff, Z.eqb_neq, Z.ltb_lt.
  destruct (Z.lt_ge_cases id 0) as [Hneg|Hpos].
  - pose proof (to_uint32_neg id ltac:(lia)). lia.
  - rewrite to_uint32_small by lia. lia.
Qed.

(** ** C3: decoration of the empty text *)

(** C3, as the code has it: [tokenize("", true, true)] is the begin id, if
    it passes the range check, followed by the end id, if it passes the
    range check; each id is decided on its own.  So the result is
    [[bos_id, eos_id]] when both pass, [[bos_id]] or [[eos_id]] when exactly
    one passes, and empty when neither does. *)
Theorem tokenize_empty_text_decoration (v : SanaVocab) :
  tokenize v [] true true =
    (if special_in_range v (bos_token_id v) then [bos_token_id v] else [])
    ++ (if special_in_range v (eos_token_id v) then [eos_token_id v] else []).
Proof.
  unfold tokenize, tokenize_spm, tokenize_bpe.
  rewrite tokenize_spm_run_empty_text, tokenize_bpe_run_empty_text.
  cbn [andb default].
  destruct (type v); rewrite app_nil_r;
    destruct (special_in_range v (eos_token_id v)); by rewrite ?app_nil_r.
Qed.

(** C3 as stated fails: only the begin id resolves, yet the result is not
    empty. *)
Lemma tokenize_empty_text_one_sided :
  ~ ((bos_token_id vocab_bos_only <> (-1)%Z
      /\ (bos_token_id vocab_bos_only < Z.of_nat (length (id_to_token vocab_bos_only)))%Z
      /\ eos_token_id vocab_bos_only <> (-1)%Z
      /\ (eos_token_id vocab_bos_only < Z.of_nat (length (id_to_token vocab_bos_only)))%Z)
     \/ tokenize vocab_bos_only [] true true = []).
Proof.
  intros [(_ & _ & Heos & _) | Hnil].
  - apply Heos. reflexivity.
  - vm_compute in Hnil. discriminate Hnil.
Qed.

(** ** C5: the store without scores *)

(** C5, as the code has it: on an empty text or an empty score table the
    SPM tokenizer returns at once; the result is the unknown id alone when
    the text is non-empty and the unknown id is set (not -1), and empty
    otherwise.  Nothing of the vocabulary is consulted. *)
Theorem tokenize_spm_unusable_store (v : SanaVocab) (text : list ascii) :
  text = [] \/ id_to_score v = [] ->
  tokenize_spm v text =
    if bool_decide (text <> []) && negb (unk_token_id v =? -1)%Z
    then [unk_token_id v] else [].
Proof.
  intros [-> | Hs].
  - reflexivity.
  - unfold tokenize_spm. rewrite tokenize_spm_run_no_scores by exact Hs.
    cbn [default]. unfold push_unk.
    destruct text; cbn; [reflexivity|].
    destruct (unk_token_id v =? -1)%Z; reflexivity.
Qed.

Lemma tokenize_spm_unusable_store_witness :
  tokenize_spm vocab_no_scores_no_unk (str "a") = [].
Proof.
  apply (tokenize_spm_unusable_store vocab_no_scores_no_unk (str "a")).
  right. reflexivity.
Defined.

(** C5 as stated fails: the text is non-empty, the score table is empty,
    and the unknown id is not emitted. *)
Lemma tokenize_spm_unusable_store_no_unk :
  id_to_score vocab_no_scores_no_unk = []
  /\ str "a" <> []
  /\ tokenize_spm vocab_no_scores_no_unk (str "a")
     <> [unk_token_id vocab_no_scores_no_unk].
Proof. split; [reflexivity|]. split; [discriminate|]. vm_compute. discriminate. Qed.

(** ** C10: texts without a decodable byte *)

Lemma spm_segment_loop_undecodable (fuel : nat) (rest : list ascii)
    (idx : Z) (offs : nat) (symbols : list SanaSpmSymbol.t) :
  (forall k, k < length rest -> utf8_len_char (drop k rest) (length rest - k) = 0) ->
  spm_segment_loop fuel rest idx offs symbols = symbols.
Proof.
  revert rest offs. induction fuel as [|fuel IH]; intros rest offs H; [reflexivity|].
  destruct rest as [|c tl]; [reflexivity|].
  cbn [spm_segment_loop].
  pose proof (H 0 ltac:(simpl; lia)) as H0.
  rewrite drop_0, Nat.sub_0_r in H0. rewrite H0. cbn [Nat.eqb].
  apply IH. intros k Hk. cbn [drop] in Hk |- *. rewrite drop_0 in Hk |- *.
  apply (H (S k)). simpl. lia.
Qed.

(** C10: on a store with scores, a non-empty text in which no position
    decodes to a codepoint yields the empty sequence, whatever the unknown
    id is. *)
Theorem tokenize_spm_undecodable (v : SanaVocab) (text : list ascii) :
  id_to_score v <> [] ->
  text <> [] ->
  (forall k, k < length text -> utf8_len_char (drop k text) (length text - k) = 0) ->
  tokenize_spm v text = [].
Proof.
  intros Hs Ht H. unfold tokenize_spm, tokenize_spm_run.
  rewrite (bool_decide_eq_false_2 _ Ht), (bool_decide_eq_false_2 _ Hs). cbn [orb].
  unfold spm_segment. rewrite spm_segment_loop_undecodable by exact H.
  reflexivity.
Qed.

Lemma tokenize_spm_undecodable_witness :
  unk_token_id vocab_spm_small = 2%Z
  /\ tokenize_spm vocab_spm_small ["128"%char; "191"%char] = [].
Proof.
  split; [reflexivity|].
  apply (tokenize_spm_undecodable vocab_spm_small ["128"%char; "191"%char]).
  - discriminate.
  - discriminate.
  - intros k Hk. destruct k as [|[|k]]; [reflexivity | reflexivity | simpl in Hk; lia].
Defined.


(** ** C6: the bootstrap shortcut of the byte-pair tokenizer *)

Lemma lookup_codepoints_loop_units (v : SanaVocab) (fuel : nat) (rest : list ascii) :
  lookup_codepoints_loop v fuel rest
  = concat (map (unit_ids v) (utf8_units_loop fuel rest)).
Proof.
  revert rest. induction fuel as [|fuel IH]; intros rest; [reflexivity|].
  destruct rest as [|c tl]; [reflexivity|].
  cbn [lookup_codepoints_loop utf8_units_loop].
  destruct (utf8_len_char (c :: tl) (length (c :: tl)) =? 0);
    cbn [map concat unit_ids]; rewrite IH; reflexivity.
Qed.

Lemma tokenize_bpe_run_bootstrap (v : SanaVocab) (text : list ascii) :
  bpe_ranks v = ∅ -> length (id_to_token v) < 256 ->
  tokenize_bpe_run v text = Some (lookup_codepoints v text).
Proof.
  intros Hr Hn. unfold tokenize_bpe_run.
  destruct text as [|c tl]; [reflexivity|].
  rewrite bool_decide_eq_false_2 by discriminate.
  rewrite (bool_decide_eq_true_2 _ Hr).
  apply Nat.ltb_lt in Hn. rewrite Hn. reflexivity.
Qed.

(** C6, as the code has it: with no merge ranks and fewer than 256 entries
    the output is obtained by one walk over the text, without
    pre-tokenization or merging: every codepoint is mapped to its id, and
    every unmapped codepoint and every byte that does not decode is
    replaced by the unknown id when that is set and dropped when it is
    unset. *)
Theorem tokenize_bpe_bootstrap (v : SanaVocab) (text : list ascii) :
  bpe_ranks v = ∅ ->
  length (id_to_token v) < 256 ->
  tokenize_bpe v text = concat (map (unit_ids v) (utf8_units text)).
Proof.
  intros Hr Hn. unfold tokenize_bpe.
  rewrite tokenize_bpe_run_bootstrap by assumption. cbn [default].
  apply lookup_codepoints_loop_units.
Qed.

Lemma tokenize_bpe_bootstrap_witness :
  tokenize_bpe vocab_bpe_small (str "ab")
  = concat (map (unit_ids vocab_bpe_small) (utf8_units (str "ab"))).
Proof.
  apply (tokenize_bpe_bootstrap vocab_bpe_small (str "ab")).
  - reflexivity.
  - vm_compute. lia.
Defined.

(** On the text ["ab"] the shortcut yields the ids of ['a'] and ['b']. *)
Example tokenize_bpe_bootstrap_ab :
  tokenize vocab_bpe_small (str "ab") false false = [3%Z; 4%Z].
Proof. vm_compute. reflexivity. Qed.

(** C6 as stated fails: a byte that is no codepoint is not dropped, the
    unknown id is emitted for it. *)
Lemma tokenize_bpe_bootstrap_undecodable :
  bpe_ranks vocab_bpe_small = ∅
  /\ length (id_to_token vocab_bpe_small) < 256
  /\ tokenize_bpe vocab_bpe_small ["128"%char]
     <> per_codepoint_ids vocab_bpe_small ["128"%char].
Proof.
  split; [reflexivity|]. split; [vm_compute; lia|].
  vm_compute. discriminate.
Qed.

(** Where every byte met by the walk decodes, the walk is the
    per-codepoint mapping of the claim. *)
Lemma units_all_codepoints (v : SanaVocab) (fuel : nat) (rest : list ascii) :
  (forall b, Undecodable b ∉ utf8_units_loop fuel rest) ->
  concat (map (unit_ids v) (utf8_units_loop fuel rest))
  = concat (map (lookup_or_unk v) (split_codepoints_loop fuel rest)).
Proof.
  revert rest. induction fuel as [|fuel IH]; intros rest H; [reflexivity|].
  destruct rest as [|c tl]; [reflexivity|].
  cbn [utf8_units_loop split_codepoints_loop] in H |- *.
  destruct (utf8_len_char (c :: tl) (length (c :: tl)) =? 0).
  - exfalso. apply (H c). apply list_elem_of_here.
  - cbn [map concat unit_ids]. f_equal. apply IH.
    intros b Hb. apply (H b). apply list_elem_of_further. exact Hb.
Qed.

(** ** C7: the whole-word shortcut *)

Lemma split_codepoints_loop_nonempty (fuel : nat) (rest cp : list ascii) :
  cp ∈ split_codepoints_loop fuel rest -> cp <> [].
Proof.
  revert rest. induction fuel as [|fuel IH]; intros rest H; [by apply elem_of_nil in H|].
  destruct rest as [|c tl]; [by apply elem_of_nil in H|].
  cbn [split_codepoints_loop] in H.
  destruct (Nat.eqb_spec (utf8_len_char (c :: tl) (length (c :: tl))) 0) as [E|E].
  - by apply IH in H.
  - apply elem_of_cons in H as [-> | H]; [|by apply IH in H].
    destruct (utf8_len_char (c :: tl) (length (c :: tl))); [done|]. discriminate.
Qed.




(** The merges alone would give the pieces ["he"], ["l"], ["lo"]; the entry
    ["hello"] is emitted instead. *)
Example tokenize_bpe_hello :
  bpe_merge_loop 5 ranks_hello (split_codepoints (str "hello"))
    = Some [str "he"; str "l"; str "lo"]
  /\ tokenize (set_bpe_ranks vocab_hello ranks_hello) (str "hello") false false = [7%Z].
Proof. split; vm_compute; reflexivity. Qed.


(** ** C1: the order of the work queue *)

Lemma comparator_spec (l r : SanaSpmBigram.t) :
  SanaSpmBigram.comparator l r = true <->
  (SanaSpmBigram.score l < SanaSpmBigram.score r)%Q
  \/ ((SanaSpmBigram.score l == SanaSpmBigram.score r)%Q
      /\ (SanaSpmBigram.left r < SanaSpmBigram.left l)%Z).
Proof.
  unfold SanaSpmBigram.comparator, Qlt_bool.
  destruct (Qeq_bool (SanaSpmBigram.score l) (SanaSpmBigram.score r)) eqn:E; cbn [negb].
  - apply Qeq_bool_iff in E. rewrite Z.ltb_lt. split.
    + intros H. right. split; assumption.
    + intros [H | [_ H]]; [lra | exact H].
  - apply Qeq_bool_neq in E. rewrite negb_true_iff.
    rewrite <- not_true_iff_false, Qle_bool_iff. split.
    + intros H. left. lra.
    + intros [H | [H _]]; [lra | contradiction].
Qed.

Lemma comparator_false (l r : SanaSpmBigram.t) :
  SanaSpmBigram.comparator l r = false <->
  (SanaSpmBigram.score r <= SanaSpmBigram.score l)%Q
  /\ ((SanaSpmBigram.score r == SanaSpmBigram.score l)%Q
      -> (SanaSpmBigram.left l <= SanaSpmBigram.left r)%Z).
Proof.
  rewrite <- not_true_iff_false, comparator_spec. split.
  - intros H. split.
    + destruct (Qlt_le_dec (SanaSpmBigram.score l) (SanaSpmBigram.score r)); [|assumption].
      exfalso. apply H. left. assumption.
    + intros E. destruct (Z.le_gt_cases (SanaSpmBigram.left l) (SanaSpmBigram.left r)); [assumption|].
      exfalso. apply H. right. split; [symmetry; assumption | lia].
  - intros [Hle Heq] [Hlt | [E Hl]]; [lra|].
    specialize (Heq ltac:(symmetry; assumption)). lia.
Qed.

Lemma comparator_irrefl (a : SanaSpmBigram.t) : SanaSpmBigram.comparator a a = false.
Proof. apply comparator_false. split; [lra | lia]. Qed.

(** A candidate not above [best] is not above anything that beats [best]. *)
Lemma comparator_step (best x y : SanaSpmBigram.t) :
  SanaSpmBigram.comparator best x = false ->
  SanaSpmBigram.comparator best y = true ->
  SanaSpmBigram.comparator y x = false.
Proof.
  rewrite !comparator_false, comparator_spec.
  intros [Hle Heq] [Hlt | [E Hl]].
  - split; [lra | intros E; lra].
  - split; [lra|]. intros E'. specialize (Heq ltac:(lra)). lia.
Qed.

Lemma pq_top_scan_spec (q pre : list SanaSpmBigram.t) (best_i : nat)
    (best : SanaSpmBigram.t) :
  (pre ++ q) !! best_i = Some best ->
  (forall c, c ∈ pre -> SanaSpmBigram.comparator best c = false) ->
  let r := pq_top_scan best_i best (length pre) q in
  (pre ++ q) !! r.1 = Some r.2
  /\ forall c, c ∈ pre ++ q -> SanaSpmBigram.comparator r.2 c = false.
Proof.
  revert pre best_i best. induction q as [|x q IH]; intros pre best_i best Hb Hpre.
  - cbn. rewrite app_nil_r in *. split; assumption.
  - cbn [pq_top_scan].
    replace (pre ++ x :: q) with ((pre ++ [x]) ++ q) in * by (by rewrite <- app_assoc).
    replace (S (length pre)) with (length (pre ++ [x])) by (rewrite length_app; simpl; lia).
    destruct (SanaSpmBigram.comparator best x) eqn:E.
    + apply IH.
      * rewrite <- app_assoc. cbn [app]. by apply list_lookup_middle.
      * intros c Hc. apply elem_of_app in Hc as [Hc | Hc].
        -- eapply comparator_step; [by apply Hpre | exact E].
        -- apply list_elem_of_singleton in Hc as ->. apply comparator_irrefl.
    + apply IH; [exact Hb|].
      intros c Hc. apply elem_of_app in Hc as [Hc | Hc]; [by apply Hpre|].
      by apply list_elem_of_singleton in Hc as ->.
Qed.

Lemma pq_pop_spec (q q' : list SanaSpmBigram.t) (b : SanaSpmBigram.t) :
  pq_pop q = Some (b, q') ->
  exists i, q !! i = Some b /\ q' = delete i q
            /\ forall c, c ∈ q -> SanaSpmBigram.comparator b c = false.
Proof.
  destruct q as [|x q0]; [discriminate|]. unfold pq_pop.
  pose proof (pq_top_scan_spec q0 [x] 0 x eq_refl) as H.
  cbn [length app] in H.
  destruct (pq_top_scan 0 x 1 q0) as [i b0]. cbn [fst snd] in H.
  intros [= <- <-]. exists i.
  destruct H as [H1 H2].
  - intros c Hc. apply list_elem_of_singleton in Hc as ->. apply comparator_irrefl.
  - done.
Qed.

Lemma pq_pop_none (q : list SanaSpmBigram.t) : pq_pop q = None <-> q = [].
Proof.
  destruct q as [|x q0]; [done|]. unfold pq_pop.
  destruct (pq_top_scan 0 x 1 q0). split; discriminate.
Qed.



(** The four symbols of ["abcd"], the bigrams ["ab"] and ["cd"] with the
    same score: the first merge is the one at the left index 0. *)
Example spm_tie_break_abcd :
  let symbols := spm_link (spm_segment (str "abcd")) in
  let seeded := spm_seed_queue vocab_tie (str "abcd") symbols in
  map (fun b => (SanaSpmBigram.left b, SanaSpmBigram.score b)) seeded
    = [(0%Z, (-3 # 2)%Q); (1%Z, (-2)%Q); (2%Z, (-3 # 2)%Q)]
  /\ (fst <$> pq_pop seeded)
     = Some {| SanaSpmBigram.left := 0; SanaSpmBigram.right := 1;
               SanaSpmBigram.score := (-3 # 2)%Q; SanaSpmBigram.size := 2 |}
  /\ tokenize vocab_tie (str "abcd") false false = [7%Z; 8%Z].
Proof. repeat split; vm_compute; reflexivity. Qed.


(** ** C2: the staleness check of the merge loop *)

Lemma symbol_at_alter (f : SanaSpmSymbol.t -> SanaSpmSymbol.t)
    (symbols : list SanaSpmSymbol.t) (i j : Z) :
  symbol_at (alter f (Z.to_nat i) symbols) j =
    if decide (Z.to_nat i = Z.to_nat j /\ Z.to_nat j < length symbols)
    then f (symbol_at symbols j) else symbol_at symbols j.
Proof.
  unfold symbol_at. destruct (decide (Z.to_nat i = Z.to_nat j)) as [E|E].
  - rewrite E, list_lookup_alter_eq.
    destruct (symbols !! Z.to_nat j) eqn:Hj; cbn.
    + apply lookup_lt_Some in Hj. case_decide; [reflexivity | tauto].
    + apply lookup_ge_None in Hj. case_decide; [lia | reflexivity].
  - rewrite list_lookup_alter_ne by done. case_decide; [tauto | reflexivity].
Qed.

Lemma symbol_at_n_pos (symbols : list SanaSpmSymbol.t) (i : Z) :
  0 < SanaSpmSymbol.n (symbol_at symbols i) -> Z.to_nat i < length symbols.
Proof.
  unfold symbol_at. destruct (symbols !! Z.to_nat i) eqn:E.
  - intros _. by apply lookup_lt_Some in E.
  - cbn. lia.
Qed.

Lemma spm_bigram_rejected_false (symbols : list SanaSpmSymbol.t) (bigram : SanaSpmBigram.t) :
  spm_bigram_rejected symbols bigram = false <->
  index_past_end symbols (SanaSpmBigram.left bigram) = false
  /\ index_past_end symbols (SanaSpmBigram.right bigram) = false
  /\ 0 < SanaSpmSymbol.n (symbol_at symbols (SanaSpmBigram.left bigram))
  /\ 0 < SanaSpmSymbol.n (symbol_at symbols (SanaSpmBigram.right bigram))
  /\ SanaSpmSymbol.n (symbol_at symbols (SanaSpmBigram.left bigram))
     + SanaSpmSymbol.n (symbol_at symbols (SanaSpmBigram.right bigram))
     = SanaSpmBigram.size bigram.
Proof.
  unfold spm_bigram_rejected.
  destruct (index_past_end symbols (SanaSpmBigram.left bigram)); cbn [orb];
    [split; [discriminate | intros [? _]; discriminate]|].
  destruct (index_past_end symbols (SanaSpmBigram.right bigram)); cbn [orb];
    [split; [discriminate | intros (_ & ? & _); discriminate]|].
  rewrite !orb_false_iff, negb_false_iff, !Nat.eqb_neq, Nat.eqb_eq. split.
  - intros [[? ?] ?]. repeat split; [lia | lia | assumption].
  - intros (_ & _ & ? & ? & ?). repeat split; [lia | lia | assumption].
Qed.

Lemma spm_merge_symbols_length (symbols : list SanaSpmSymbol.t) (bigram : SanaSpmBigram.t) :
  length (spm_merge_symbols symbols bigram) = length symbols.
Proof.
  unfold spm_merge_symbols, set_n, set_next, set_prev.
  destruct (_ && _); rewrite ?length_alter; reflexivity.
Qed.

(** C2: the popped candidate is applied only when both symbols it names
    are still alive and their lengths add up to the recorded size.  A
    candidate that fails the check leaves the symbols and the queue as
    they are; one that passes extends the left symbol by the right one,
    marks the right one absorbed and links the left symbol to the right
    one's successor. *)
Theorem spm_merge_step_staleness (v : SanaVocab) (text : list ascii)
    (symbols : list SanaSpmSymbol.t) (work_queue : list SanaSpmBigram.t)
    (bigram : SanaSpmBigram.t) :
  let l := SanaSpmBigram.left bigram in
  let r := SanaSpmBigram.right bigram in
  let n_left := SanaSpmSymbol.n (symbol_at symbols l) in
  let n_right := SanaSpmSymbol.n (symbol_at symbols r) in
  let fresh := 0 < n_left /\ 0 < n_right /\ n_left + n_right = SanaSpmBigram.size bigram in
  let symbols' := (spm_merge_step v text symbols work_queue bigram).1 in
  (~ fresh -> spm_merge_step v text symbols work_queue bigram = (symbols, work_queue))
  /\ (symbols' <> symbols -> fresh)
  /\ (spm_bigram_rejected symbols bigram = false ->
      fresh
      /\ length symbols' = length symbols
      /\ SanaSpmSymbol.n (symbol_at symbols' r) = 0
      /\ (Z.to_nat l <> Z.to_nat r ->
          SanaSpmSymbol.n (symbol_at symbols' l) = n_left + n_right
          /\ SanaSpmSymbol.next (symbol_at symbols' l)
             = SanaSpmSymbol.next (symbol_at symbols r))).
Proof.
  intros l r n_left n_right fresh symbols'.
  assert (Hrej : spm_bigram_rejected symbols bigram = false -> fresh).
  { intros H. apply spm_bigram_rejected_false in H as (_ & _ & ? & ? & ?). done. }
  assert (Hstale : ~ fresh ->
    spm_merge_step v text symbols work_queue bigram = (symbols, work_queue)).
  { intros Hn. unfold spm_merge_step.
    destruct (spm_bigram_rejected symbols bigram); [reflexivity|].
    exfalso. by apply Hn, Hrej. }
  split; [exact Hstale|]. split.
  - intros Hne. destruct (decide fresh) as [|Hn]; [assumption|].
    exfalso. apply Hne. subst symbols'. by rewrite Hstale.
  - intros H. split; [by apply Hrej|].
    subst symbols'. unfold spm_merge_step. rewrite H. cbn [fst].
    split; [apply spm_merge_symbols_length|].
    apply spm_bigram_rejected_false in H as (_ & _ & Hl & Hr & _).
    apply symbol_at_n_pos in Hl, Hr. fold l in Hl. fold r in Hr.
    unfold spm_merge_symbols. fold l r.
    set (symbols3 := set_next _ _ _).
    assert (H3r : SanaSpmSymbol.n (symbol_at symbols3 r) = 0).
    { subst symbols3. unfold set_next, set_n. rewrite !symbol_at_alter.
      rewrite !length_alter.
      repeat case_decide; cbn; try reflexivity; exfalso; tauto. }
    assert (H3l : Z.to_nat l <> Z.to_nat r ->
       SanaSpmSymbol.n (symbol_at symbols3 l) = n_left + n_right
       /\ SanaSpmSymbol.next (symbol_at symbols3 l)
          = SanaSpmSymbol.next (symbol_at symbols r)).
    { intros Hlr. subst symbols3. unfold set_next, set_n. rewrite !symbol_at_alter.
      rewrite !length_alter.
      repeat case_decide; cbn; try (exfalso; tauto); try (exfalso; lia).
      split; reflexivity. }
    destruct (_ && _) eqn:Hcond; [|by split].
    unfold set_prev. rewrite !symbol_at_alter.
    split; [by case_decide|].
    intros Hlr. by case_decide; apply H3l.
Qed.

(** After the merge of ["ab"] in ["abcd"], the candidate for ["bc"] names an
    absorbed symbol and is dropped. *)
Lemma spm_merge_step_staleness_witness :
  let symbols := spm_link (spm_segment (str "abcd")) in
  let ab := {| SanaSpmBigram.left := 0; SanaSpmBigram.right := 1;
               SanaSpmBigram.score := (-3 # 2)%Q; SanaSpmBigram.size := 2 |} in
  let bc := {| SanaSpmBigram.left := 1; SanaSpmBigram.right := 2;
               SanaSpmBigram.score := (-2)%Q; SanaSpmBigram.size := 2 |} in
  let symbols1 := (spm_merge_step vocab_tie (str "abcd") symbols [] ab).1 in
  spm_merge_step vocab_tie (str "abcd") symbols1 [] bc = (symbols1, []).
Proof.
  intros symbols ab bc symbols1.
  apply (spm_merge_step_staleness vocab_tie (str "abcd") symbols1 [] bc).
  vm_compute. lia.
Defined.


(** ** C9: the merge scan of the byte-pair tokenizer *)




Lemma bpe_merge_at_spec (l : list (list ascii)) (i : nat) (a b : list ascii) :
  l !! i = Some a -> l !! (i + 1) = Some b ->
  bpe_merge_at l (Z.of_nat i) = take i l ++ (a ++ b) :: drop (i + 2) l.
Proof.
  intros Ha Hb. unfold bpe_merge_at. rewrite Nat2Z.id, Ha, Hb. cbn [default].
  apply lookup_lt_Some in Ha.
  assert (Hlen : length (take i l) = i) by (apply length_take_le; lia).
  rewrite (take_app_length' (take i l) (drop (i + 2) l) i) by done.
  rewrite (drop_app_length' (take i l) (drop (i + 2) l) i) by done.
  reflexivity.
Qed.



(** In ["babab"] the pair (a, b) of rank 0 occurs at the positions 1 and 3;
    the one at position 1 is merged first. *)
Example bpe_scan_babab :
  bpe_scan ranks_ab [str "b"; str "a"; str "b"; str "a"; str "b"] = (0%Z, 1%Z)
  /\ bpe_merge_at [str "b"; str "a"; str "b"; str "a"; str "b"] 1
     = [str "b"; str "ab"; str "a"; str "b"]
  /\ bpe_merge_loop 5 ranks_ab [str "b"; str "a"; str "b"; str "a"; str "b"]
     = Some [str "b"; str "ab"; str "ab"].
Proof. repeat split; vm_compute; reflexivity. Qed.


(** ** C8: duplicate strings in the token array *)

Lemma load_merge_tokens (ctx : gguf_context) (merges_idx : Z) (i : nat) (v v' : SanaVocab) :
  load_merge ctx merges_idx i v = Some v' ->
  token_to_id v' = token_to_id v /\ id_to_token v' = id_to_token v.
Proof.
  unfold load_merge. intros H.
  destruct (gguf_get_arr_str ctx merges_idx i) as [merge_str_c|]; [|discriminate].
  cbn in H. injection H as <-.
  destruct merge_str_c; repeat case_match; done.
Qed.

Lemma load_merges_loop_tokens (ctx : gguf_context) (merges_idx : Z) (idxs : list nat)
    (v v' : SanaVocab) :
  load_merges_loop ctx merges_idx idxs v = Some v' ->
  token_to_id v' = token_to_id v /\ id_to_token v' = id_to_token v.
Proof.
  revert v. induction idxs as [|i idxs IH]; intros v H.
  - by injection H as <-.
  - cbn [load_merges_loop] in H.
    destruct (load_merge ctx merges_idx i v) as [v1|] eqn:E; [|discriminate].
    cbn in H. apply IH in H as [-> ->]. by apply load_merge_tokens in E.
Qed.

Lemma load_model_type_tokens (ctx : gguf_context) (v v' : SanaVocab) :
  load_model_type ctx v = Some v' ->
  token_to_id v' = token_to_id v /\ id_to_token v' = id_to_token v.
Proof.
  unfold load_model_type. intros H.
  destruct (negb _); [|by injection H as <-].
  destruct (gguf_get_val_str _ _) as [model_name|]; [|discriminate]. cbn in H.
  destruct (_ || _); [|by injection H as <-].
  destruct (negb _); [|by injection H as <-].
  destruct (gguf_get_arr_n _ _) as [arr_n|]; [|discriminate]. cbn in H.
  by apply load_merges_loop_tokens in H as [-> ->].
Qed.

Lemma load_pad_token_tokens (ctx : gguf_context) (v v' : SanaVocab) :
  load_pad_token ctx v = Some v' ->
  token_to_id v' = token_to_id v /\ id_to_token v' = id_to_token v.
Proof.
  unfold load_pad_token. intros H.
  destruct (negb _); [|by injection H as <-].
  destruct (gguf_get_kv_type _ _) as [ty|]; [|discriminate]. cbn in H.
  destruct ty; try (by injection H as <-).
  - destruct (gguf_get_val_u32 _ _); [|discriminate]. by injection H as <-.
  - destruct (gguf_get_val_i32 _ _); [|discriminate]. by injection H as <-.
Qed.

Lemma load_token_step (ctx : gguf_context) (tokens_idx scores_idx : Z)
    (a : list (option (list ascii))) (m0 : gmap (list ascii) Z) (n k : nat)
    (v v' : SanaVocab) :
  gguf_value_at ctx tokens_idx = Some (gguf_strings a) ->
  k < n ->
  tokens_loaded a m0 n k v ->
  load_token ctx tokens_idx scores_idx k v = Some (inr v') ->
  tokens_loaded a m0 n (S k) v'.
Proof.
  intros Ha Hk (Hlen & Hids & Hmap) H.
  unfold load_token, gguf_get_arr_str in H. rewrite Ha in H.
  destruct (a !! k) as [[t|]|] eqn:Hak; [|discriminate..]. cbn [mbind option_bind] in H.
  set (v2 := set_token_to_id _ _) in H.
  assert (Hv' : token_to_id v' = <[t := to_int32 (Z.of_nat k)]> (token_to_id v)
                /\ id_to_token v' = <[k := t]> (id_to_token v)).
  { destruct (_ && _).
    - destruct (gguf_get_arr_data _ _) as [score_data|]; [|discriminate].
      cbn [mbind option_bind] in H.
      destruct (score_data !! k); [|discriminate]. by injection H as <-.
    - by injection H as <-. }
  destruct Hv' as [Hm Hi]. clear H v2.
  split; [by rewrite Hi, length_insert|]. split.
  - intros i Hlt. destruct (decide (i = k)) as [->|Hne].
    + exists t. split; [exact Hak|]. rewrite Hi. apply list_lookup_insert_eq. lia.
    + destruct (Hids i ltac:(lia)) as (t' & ? & ?). exists t'.
      split; [assumption|]. rewrite Hi. by rewrite list_lookup_insert_ne.
  - intros t'. destruct (decide (t' = t)) as [->|Hne].
    + left. exists k. split; [lia|]. split; [exact Hak|]. split; [lia|].
      rewrite Hm. apply lookup_insert_eq.
    + destruct (Hmap t') as [(j & Hj & Haj & Hlast & Hlook) | [Hnone Hlook]].
      * left. exists j. split; [lia|]. split; [exact Haj|]. split.
        -- intros j' Hj'. destruct (decide (j' = k)) as [->|]; [congruence|].
           apply Hlast. lia.
        -- rewrite Hm. by rewrite lookup_insert_ne.
      * right. split.
        -- intros j Hj. destruct (decide (j = k)) as [->|]; [congruence|].
           apply Hnone. lia.
        -- rewrite Hm. by rewrite lookup_insert_ne.
Qed.

Lemma load_tokens_loop_loaded (ctx : gguf_context) (tokens_idx scores_idx : Z)
    (a : list (option (list ascii))) (m0 : gmap (list ascii) Z) (n m k : nat)
    (v v' : SanaVocab) :
  gguf_value_at ctx tokens_idx = Some (gguf_strings a) ->
  k + m <= n ->
  tokens_loaded a m0 n k v ->
  load_tokens_loop ctx tokens_idx scores_idx (seq k m) v = Some (inr v') ->
  tokens_loaded a m0 n (k + m) v'.
Proof.
  intros Ha. revert k v. induction m as [|m IH]; intros k v Hle Hinv H.
  - injection H as <-. by rewrite Nat.add_0_r.
  - cbn [seq load_tokens_loop] in H.
    destruct (load_token ctx tokens_idx scores_idx k v) as [[v1|v1]|] eqn:E;
      [discriminate | | discriminate].
    cbn in H. replace (k + S m) with (S k + m) by lia.
    apply (IH (S k) v1); [lia | | exact H].
    by apply (load_token_step ctx tokens_idx scores_idx a m0 n k v v1); [|lia|..].
Qed.

Lemma length_resize {A} (n : nat) (d : A) (l : list A) : length (resize n d l) = n.
Proof. unfold resize. rewrite length_app, length_take, length_replicate. lia. Qed.

(** The state of the two tables when [load_from_gguf] returns [true]. *)
Lemma load_from_gguf_loaded (ctx : gguf_context) (v v' : SanaVocab)
    (a : list (option (list ascii))) :
  gguf_value_at ctx (gguf_find_key ctx "tokenizer.ggml.tokens") = Some (gguf_strings a) ->
  (Z.of_nat (length a) <= 2 ^ 31)%Z ->
  load_from_gguf ctx v = Some (true, v') ->
  tokens_loaded a (token_to_id v) (length a) (length a) v'.
Proof.
  intros Ha Hlen H. unfold load_from_gguf in H. cbv zeta in H.
  destruct (_ =? -1)%Z; [discriminate|].
  destruct (load_model_type ctx v) as [v1|] eqn:E1; [|discriminate].
  apply load_model_type_tokens in E1 as [Em1 Ei1]. cbn [mbind option_bind] in H.
  assert (Hn : gguf_get_arr_n ctx (gguf_find_key ctx "tokenizer.ggml.tokens")
               = Some (Z.of_nat (length a))) by (unfold gguf_get_arr_n; by rewrite Ha).
  rewrite Hn in H. cbn [mbind option_bind] in H.
  rewrite to_uint32_small, Nat2Z.id in H by lia.
  set (v2 := set_id_to_token v1 _) in H.
  match type of H with
  | context [mbind _ ?e] =>
    assert (Hr : e = None
              \/ exists s v3, e = Some (s, v3) /\ token_to_id v3 = token_to_id v2
                              /\ id_to_token v3 = id_to_token v2);
    [| destruct Hr as [Hr | (s & v3 & Hr & Em3 & Ei3)]; rewrite Hr in H; clear Hr]
  end.
  { destruct (_ && _); [|right; by eexists _, _].
    destruct (gguf_get_arr_n _ _); [|by left]. cbn.
    destruct (_ =? _)%Z; right; by eexists _, _. }
  { discriminate. }
  cbn [mbind option_bind] in H.
  destruct (load_tokens_loop _ _ _ _ _) as [[v4|v4]|] eqn:E4; [discriminate | | discriminate].
  cbn [mbind option_bind] in H.
  destruct (load_special_token ctx "tokenizer.ggml.bos_token_id" _) as [bos|];
    [|discriminate]. cbn [mbind option_bind] in H.
  destruct (load_special_token ctx "tokenizer.ggml.eos_token_id" _) as [eos|];
    [|discriminate]. cbn [mbind option_bind] in H.
  destruct (load_special_token ctx "tokenizer.ggml.unk_token_id" _) as [unk|];
    [|discriminate]. cbn [mbind option_bind] in H.
  destruct (load_pad_token ctx _) as [v5|] eqn:E5; [|discriminate].
  injection H as <-.
  apply load_pad_token_tokens in E5 as [Em5 Ei5].
  cbn [set_unk_token_id set_eos_token_id set_bos_token_id token_to_id id_to_token] in Em5, Ei5.
  apply (load_tokens_loop_loaded ctx _ _ a (token_to_id v) (length a) (length a) 0) in E4;
    [| exact Ha | lia |].
  - destruct E4 as (H1 & H2 & H3). unfold tokens_loaded.
    rewrite Em5, Ei5. done.
  - split; [|split].
    + rewrite Ei3. subst v2. cbn. apply length_resize.
    + intros i Hi. lia.
    + intros t. right. split; [intros j Hj; lia|].
      rewrite Em3. subst v2. cbn. by rewrite Em1.
Qed.



(** The array ["a"; "b"; "a"]: all three ids keep their string, ["a"] is
    looked up as 2, and no lookup yields 0. *)
Example load_from_gguf_aba :
  let v' := (default (false, SanaVocab_default)
               (load_from_gguf gguf_duplicate_tokens SanaVocab_default)).2 in
  id_to_token v' = [str "a"; str "b"; str "a"]
  /\ token_to_id v' !! str "a" = Some 2%Z
  /\ map_to_list (token_to_id v') ≡ₚ [(str "a", 2%Z); (str "b", 1%Z)].
Proof.
  repeat split; try (vm_compute; reflexivity).
  vm_compute. apply Permutation_refl || apply perm_swap.
Qed.


(** ** Termination of the SPM loops *)

Lemma index_past_end_false (symbols : list SanaSpmSymbol.t) (i : Z) :
  (0 <= i < Z.of_nat (length symbols))%Z ->
  (Z.of_nat (length symbols) < 2 ^ 31)%Z ->
  index_past_end symbols i = false.
Proof.
  intros Hi Hlen. unfold index_past_end.
  rewrite to_size_t_small by lia. apply Z.leb_gt. lia.
Qed.

Lemma live_count_alter_same (f : SanaSpmSymbol.t -> SanaSpmSymbol.t)
    (symbols : list SanaSpmSymbol.t) (i : nat) :
  (forall sym, symbols !! i = Some sym ->
     (0 < SanaSpmSymbol.n (f sym) <-> 0 < SanaSpmSymbol.n sym)) ->
  live_count (alter f i symbols) = live_count symbols.
Proof.
  unfold live_count. revert i. induction symbols as [|s symbols IH]; intros i H; [done|].
  destruct i as [|i]; cbn [alter list_alter].
  - specialize (H s eq_refl). rewrite !filter_cons.
    destruct (decide (0 < SanaSpmSymbol.n (f s))), (decide (0 < SanaSpmSymbol.n s));
      cbn; tauto || lia || reflexivity.
  - rewrite !filter_cons. specialize (IH i H).
    destruct (decide (0 < SanaSpmSymbol.n s)); cbn; by rewrite IH.
Qed.

Lemma live_count_alter_kill (f : SanaSpmSymbol.t -> SanaSpmSymbol.t)
    (symbols : list SanaSpmSymbol.t) (i : nat) (sym : SanaSpmSymbol.t) :
  symbols !! i = Some sym ->
  0 < SanaSpmSymbol.n sym ->
  SanaSpmSymbol.n (f sym) = 0 ->
  S (live_count (alter f i symbols)) = live_count symbols.
Proof.
  unfold live_count. revert i.
  induction symbols as [|s symbols IH]; intros i Hi Hpos Hzero; [done|].
  destruct i as [|i]; cbn [alter list_alter].
  - injection Hi as ->. rewrite !filter_cons.
    rewrite decide_False by lia. rewrite decide_True by lia. reflexivity.
  - rewrite !filter_cons. specialize (IH i Hi Hpos Hzero).
    destruct (decide (0 < SanaSpmSymbol.n s)); cbn; lia.
Qed.

Lemma live_count_le (symbols : list SanaSpmSymbol.t) :
  live_count symbols <= length symbols.
Proof. unfold live_count. apply length_filter. Qed.

Lemma symbols_wf_alter (text : list ascii) (f : SanaSpmSymbol.t -> SanaSpmSymbol.t)
    (symbols : list SanaSpmSymbol.t) (j : nat) :
  symbols_wf text symbols ->
  (forall sym, symbols !! j = Some sym ->
     links_ordered (length symbols) j sym ->
     links_ordered (length symbols) j (f sym)
     /\ SanaSpmSymbol.text_ptr (f sym) = SanaSpmSymbol.text_ptr sym
     /\ (j = 0 -> 0 < SanaSpmSymbol.n sym -> 0 < SanaSpmSymbol.n (f sym))) ->
  symbols_wf text (alter f j symbols).
Proof.
  intros (Hlen & Hlinks & sym0 & H0 & Hn0 & Hp0) Hf.
  unfold symbols_wf. rewrite length_alter. split; [exact Hlen|]. split.
  - intros i sym Hi. rewrite list_lookup_alter in Hi.
    destruct (decide (j = i)) as [->|Hne]; [|by apply Hlinks].
    destruct (symbols !! i) as [s|] eqn:E; [|discriminate].
    injection Hi as <-. apply Hf; [reflexivity | by apply Hlinks].
  - rewrite list_lookup_alter. destruct (decide (j = 0)) as [->|Hne].
    + rewrite H0. cbn. eexists. split; [reflexivity|].
      destruct (Hf sym0 H0 (Hlinks 0 sym0 H0)) as (_ & Hptr & Hn).
      split; [by apply Hn | by rewrite Hptr].
    + exists sym0. done.
Qed.

Lemma symbol_at_lookup (symbols : list SanaSpmSymbol.t) (i : Z) (sym : SanaSpmSymbol.t) :
  symbols !! Z.to_nat i = Some sym -> symbol_at symbols i = sym.
Proof. intros H. unfold symbol_at. by rewrite H. Qed.

(** An accepted candidate keeps the array well formed and absorbs exactly
    one symbol. *)
Lemma spm_merge_symbols_wf (text : list ascii) (symbols : list SanaSpmSymbol.t)
    (bigram : SanaSpmBigram.t) :
  symbols_wf text symbols ->
  (0 <= SanaSpmBigram.left bigram < SanaSpmBigram.right bigram)%Z ->
  (SanaSpmBigram.right bigram < Z.of_nat (length symbols))%Z ->
  spm_bigram_rejected symbols bigram = false ->
  symbols_wf text (spm_merge_symbols symbols bigram)
  /\ S (live_count (spm_merge_symbols symbols bigram)) = live_count symbols.
Proof.
  intros Hwf Hlr Hr Hacc.
  apply spm_bigram_rejected_false in Hacc as (_ & _ & Hnl & Hnr & _).
  unfold spm_merge_symbols.
  set (l := SanaSpmBigram.left bigram) in *. set (r := SanaSpmBigram.right bigram) in *.
  destruct (lookup_lt_is_Some_2 symbols (Z.to_nat l) ltac:(lia)) as [sl Hsl].
  destruct (lookup_lt_is_Some_2 symbols (Z.to_nat r) ltac:(lia)) as [sr Hsr].
  rewrite (symbol_at_lookup _ _ _ Hsl), (symbol_at_lookup _ _ _ Hsr) in *.
  pose proof Hwf as (Hlen & Hlinks & _).
  assert (Hne : Z.to_nat l <> Z.to_nat r) by lia.
  (* left_sym.n += right_sym.n *)
  set (symbols1 := set_n symbols l _).
  assert (Hwf1 : symbols_wf text symbols1).
  { apply symbols_wf_alter; [exact Hwf|]. intros sym _ Hl. cbn. split; [exact Hl|].
    split; [reflexivity | lia]. }
  assert (Hc1 : live_count symbols1 = live_count symbols).
  { apply live_count_alter_same. intros sym Hs. rewrite Hsl in Hs. injection Hs as <-.
    cbn. lia. }
  assert (Hsr1 : symbols1 !! Z.to_nat r = Some sr).
  { subst symbols1. unfold set_n. by rewrite list_lookup_alter_ne. }
  assert (Hlen1 : length symbols1 = length symbols) by apply length_alter.
  (* right_sym.n = 0 *)
  set (symbols2 := set_n symbols1 r 0).
  assert (Hwf2 : symbols_wf text symbols2).
  { apply symbols_wf_alter; [exact Hwf1|]. intros sym _ Hl. cbn. split; [exact Hl|].
    split; [reflexivity | lia]. }
  assert (Hc2 : S (live_count symbols2) = live_count symbols1).
  { by apply (live_count_alter_kill _ symbols1 (Z.to_nat r) sr). }
  assert (Hsr2 : symbols2 !! Z.to_nat r = Some (SanaSpmSymbol.with_n sr 0)).
  { subst symbols2. unfold set_n. by rewrite list_lookup_alter_eq, Hsr1. }
  assert (Hlen2 : length symbols2 = length symbols)
    by (subst symbols2; unfold set_n; by rewrite length_alter).
  rewrite (symbol_at_lookup _ _ _ Hsr2). cbn [SanaSpmSymbol.with_n SanaSpmSymbol.next].
  destruct (Hlinks _ _ Hsr) as [_ Hx].
  (* left_sym.next = right_sym.next *)
  set (symbols3 := set_next symbols2 l _).
  assert (Hwf3 : symbols_wf text symbols3).
  { apply symbols_wf_alter; [exact Hwf2|]. intros sym _ [Hp Hn].
    unfold links_ordered. cbn. rewrite Hlen2.
    split; [|split; [reflexivity | auto]]. lia. }
  assert (Hc3 : live_count symbols3 = live_count symbols2).
  { apply live_count_alter_same. intros sym _. cbn. reflexivity. }
  assert (Hsr3 : symbols3 !! Z.to_nat r = Some (SanaSpmSymbol.with_n sr 0)).
  { subst symbols3. unfold set_next. by rewrite list_lookup_alter_ne. }
  assert (Hlen3 : length symbols3 = length symbols)
    by (subst symbols3; unfold set_next; by rewrite length_alter).
  rewrite (symbol_at_lookup _ _ _ Hsr3). cbn [SanaSpmSymbol.with_n SanaSpmSymbol.next].
  (* symbols[right_sym.next].prev = bigram.left *)
  destruct (negb (SanaSpmSymbol.next sr =? -1)%Z
            && negb (index_past_end symbols3 (SanaSpmSymbol.next sr))) eqn:Hcond.
  - apply andb_true_iff in Hcond as [Hx1 _].
    apply negb_true_iff, Z.eqb_neq in Hx1.
    split.
    + apply symbols_wf_alter; [exact Hwf3|]. intros sym _ [Hp Hn].
      unfold links_ordered. cbn. rewrite Hlen3 in *.
      split; [|split; [reflexivity | auto]].
      split; [lia | exact Hn].
    + unfold set_prev. rewrite live_count_alter_same; [lia|].
      intros sym _. cbn. reflexivity.
  - split; [exact Hwf3 | lia].
Qed.

Lemma try_add_bigram_spm_wf (v : SanaVocab) (text : list ascii)
    (symbols : list SanaSpmSymbol.t) (work_queue : list SanaSpmBigram.t)
    (left_idx right_idx : Z) :
  queue_wf (length symbols) work_queue ->
  (-1 <= left_idx)%Z ->
  (right_idx = (-1)%Z \/ (left_idx < right_idx < Z.of_nat (length symbols))%Z) ->
  queue_wf (length symbols)
    (try_add_bigram_spm v text symbols work_queue left_idx right_idx)
  /\ length (try_add_bigram_spm v text symbols work_queue left_idx right_idx)
     <= S (length work_queue).
Proof.
  intros Hq Hl Hr. unfold try_add_bigram_spm.
  destruct (_ || _) eqn:E1; [split; [exact Hq | lia]|].
  apply orb_false_iff in E1 as [El Er].
  apply Z.eqb_neq in El, Er.
  destruct (_ || _); [split; [exact Hq | lia]|].
  destruct (_ || _); [split; [exact Hq | lia]|].
  destruct (token_to_id v !! _) as [id|]; [|split; [exact Hq | lia]].
  destruct (_ <? _)%Z; [|split; [exact Hq | lia]].
  unfold pq_push. split.
  - intros b Hb. apply elem_of_app in Hb as [Hb | Hb]; [by apply Hq|].
    apply list_elem_of_singleton in Hb as ->. cbn. lia.
  - rewrite length_app. simpl. lia.
Qed.

Lemma pq_pop_length (q q' : list SanaSpmBigram.t) (b : SanaSpmBigram.t) :
  pq_pop q = Some (b, q') -> b ∈ q /\ q' ⊆ q /\ length q = S (length q').
Proof.
  intros H. apply pq_pop_spec in H as (i & Hi & -> & _).
  split; [by eapply list_elem_of_lookup_2|]. split.
  - intros c Hc. by apply list_elem_of_delete_inv in Hc.
  - pose proof (lookup_lt_Some _ _ _ Hi). rewrite length_delete by eauto. lia.
Qed.

(** One iteration keeps the state well formed and lowers the measure
    [length work_queue + 2 * live_count symbols], counted before the pop. *)
Lemma spm_merge_step_wf (v : SanaVocab) (text : list ascii)
    (symbols : list SanaSpmSymbol.t) (work_queue : list SanaSpmBigram.t)
    (bigram : SanaSpmBigram.t) :
  symbols_wf text symbols ->
  queue_wf (length symbols) work_queue ->
  (0 <= SanaSpmBigram.left bigram < SanaSpmBigram.right bigram)%Z ->
  (SanaSpmBigram.right bigram < Z.of_nat (length symbols))%Z ->
  let r := spm_merge_step v text symbols work_queue bigram in
  symbols_wf text r.1
  /\ length r.1 = length symbols
  /\ queue_wf (length symbols) r.2
  /\ length r.2 + 2 * live_count r.1 <= length work_queue + 2 * live_count symbols.
Proof.
  intros Hwf Hq Hlr Hr. unfold spm_merge_step.
  destruct (spm_bigram_rejected symbols bigram) eqn:Hrej; cbn [fst snd].
  { split; [exact Hwf|]. split; [reflexivity|]. split; [exact Hq|]. lia. }
  destruct (spm_merge_symbols_wf text symbols bigram Hwf Hlr Hr Hrej) as [Hwf' Hlive].
  pose proof (spm_merge_symbols_length symbols bigram) as Hlen.
  set (symbols' := spm_merge_symbols symbols bigram) in *.
  set (l := SanaSpmBigram.left bigram) in *.
  pose proof Hwf' as (Hlen' & Hlinks' & H0').
  destruct (lookup_lt_is_Some_2 symbols' (Z.to_nat l) ltac:(lia)) as [sl Hsl].
  rewrite (symbol_at_lookup _ _ _ Hsl).
  destruct (Hlinks' _ _ Hsl) as [Hp Hn]. rewrite Hlen in Hn.
  rewrite <- Hlen in Hq.
  destruct (try_add_bigram_spm_wf v text symbols' work_queue
              (SanaSpmSymbol.prev sl) l Hq) as [Hq1 Hl1]; [lia | right; lia |].
  destruct (try_add_bigram_spm_wf v text symbols' _ l (SanaSpmSymbol.next sl) Hq1)
    as [Hq2 Hl2]; [lia | rewrite Hlen; lia |].
  rewrite Hlen in Hq2.
  split; [exact Hwf'|]. split; [exact Hlen|]. split; [exact Hq2|]. lia.
Qed.


Lemma spm_emit_loop_total (v : SanaVocab) (text : list ascii)
    (symbols : list SanaSpmSymbol.t) (fuel i : nat) :
  (forall j sym, symbols !! j = Some sym -> links_ordered (length symbols) j sym) ->
  i < length symbols ->
  length symbols - i <= fuel ->
  exists sym output_tokens,
    symbols !! i = Some sym
    /\ spm_emit_loop fuel v text symbols (Z.of_nat i)
       = Some (spm_emit_symbol v text sym ++ output_tokens).
Proof.
  intros Hlinks. revert i. induction fuel as [|fuel IH]; intros i Hi Hfuel; [lia|].
  destruct (lookup_lt_is_Some_2 symbols i Hi) as [sym Hsym].
  exists sym. cbn [spm_emit_loop].
  destruct (Z.eqb_spec (Z.of_nat i) (-1)); [lia|].
  destruct (Z.ltb_spec (Z.of_nat i) 0); [lia|].
  rewrite Nat2Z.id, Hsym.
  destruct (Hlinks i sym Hsym) as [_ [Hn | Hn]].
  - rewrite Hn. destruct fuel; cbn; eexists; (split; [reflexivity|]); reflexivity.
  - destruct (IH (Z.to_nat (SanaSpmSymbol.next sym)) ltac:(lia) ltac:(lia))
      as (sym' & out & _ & Hout).
    rewrite Z2Nat.id in Hout by lia. rewrite Hout.
    eexists. split; reflexivity.
Qed.


(** ** The initial state of the merge loop *)

Lemma has_codepoint_cons (c : ascii) (s : list ascii) :
  has_codepoint (c :: s) ->
  utf8_len_char (c :: s) (length (c :: s)) <> 0 \/ has_codepoint s.
Proof.
  intros [k [Hk H]]. destruct k as [|k].
  - left. by rewrite drop_0, Nat.sub_0_r in H.
  - right. exists k. simpl in Hk, H. split; [lia | exact H].
Qed.

Lemma has_codepoint_nonempty (s : list ascii) : has_codepoint s -> s <> [].
Proof. intros [k [Hk _]] ->. simpl in Hk. lia. Qed.

Lemma spm_segment_loop_spec (text : list ascii) (fuel : nat) (rest : list ascii)
    (idx : Z) (offs : nat) (acc : list SanaSpmSymbol.t) :
  length rest <= fuel ->
  idx = Z.of_nat (length acc) ->
  offs + length rest = length text ->
  length acc <= offs ->
  (forall i sym, acc !! i = Some sym -> segmented text i sym) ->
  let r := spm_segment_loop fuel rest idx offs acc in
  (forall i sym, r !! i = Some sym -> segmented text i sym)
  /\ length r <= length text
  /\ (acc <> [] \/ has_codepoint rest -> r <> []).
Proof.
  revert rest idx offs acc.
  induction fuel as [|fuel IH]; intros rest idx offs acc Hfuel Hidx Hoffs Hlen Hacc.
  - destruct rest; [|simpl in Hfuel; lia]. cbn.
    split; [exact Hacc|]. split; [lia|].
    intros [H | H]; [exact H | by apply has_codepoint_nonempty in H].
  - destruct rest as [|c tl].
    { cbn. split; [exact Hacc|]. split; [lia|].
      intros [H | H]; [exact H | by apply has_codepoint_nonempty in H]. }
    cbn [spm_segment_loop]. cbv zeta.
    pose proof (utf8_len_char_le (c :: tl) (length (c :: tl))) as Hle.
    destruct (Nat.eqb_spec (utf8_len_char (c :: tl) (length (c :: tl))) 0) as [E|E].
    + cbn [drop]. rewrite drop_0.
      destruct (IH tl idx (offs + 1) acc) as (H1 & H2 & H3);
        [simpl in *; lia | exact Hidx | simpl in *; lia | lia | exact Hacc |].
      split; [exact H1|]. split; [exact H2|].
      intros [H | H]; apply H3; [by left|].
      apply has_codepoint_cons in H as [H | H]; [contradiction | by right].
    + set (char_len := utf8_len_char (c :: tl) (length (c :: tl))) in *.
      clearbody char_len.
      set (sym := SanaSpmSymbol.mk _ _ _ _).
      destruct (IH (drop char_len (c :: tl)) (idx + 1)%Z (offs + char_len) (acc ++ [sym]))
        as (H1 & H2 & H3).
      * rewrite length_drop. simpl in *. lia.
      * rewrite length_app. simpl. lia.
      * rewrite length_drop. simpl in *. lia.
      * rewrite length_app. simpl. lia.
      * intros i s Hi. apply lookup_app_Some in Hi as [Hi | [Hge Hi]]; [by apply Hacc|].
        apply list_lookup_singleton_Some in Hi as [Hi <-].
        unfold segmented. cbn. simpl in *. repeat split; lia.
      * split; [exact H1|]. split; [exact H2|].
        intros _. apply H3. left. by destruct acc.
Qed.

Lemma spm_segment_spec (text : list ascii) :
  (forall i sym, spm_segment text !! i = Some sym -> segmented text i sym)
  /\ length (spm_segment text) <= length text
  /\ (has_codepoint text -> spm_segment text <> []).
Proof.
  destruct (spm_segment_loop_spec text (length text) text 0 0 [])
    as (H1 & H2 & H3); try done; try lia.
  split; [exact H1|]. split; [exact H2|]. intros H. apply H3. by right.
Qed.

Lemma spm_link_length (symbols : list SanaSpmSymbol.t) :
  length (spm_link symbols) = length symbols.
Proof. unfold spm_link. apply length_imap. Qed.

Lemma spm_link_wf (text : list ascii) :
  (Z.of_nat (length text) < 2 ^ 31)%Z ->
  spm_segment text <> [] ->
  symbols_wf text (spm_link (spm_segment text)).
Proof.
  intros Hlen Hne. destruct (spm_segment_spec text) as (Hseg & Hle & _).
  unfold symbols_wf. rewrite spm_link_length. split; [lia|]. split.
  - intros i sym Hi. unfold spm_link in Hi. rewrite list_lookup_imap in Hi.
    destruct (spm_segment text !! i) as [s|] eqn:E; [|discriminate].
    injection Hi as <-. destruct (Hseg i s E) as (Hp & _ & _).
    pose proof (lookup_lt_Some _ _ _ E) as Hlt.
    unfold links_ordered.
    cbn [SanaSpmSymbol.with_next SanaSpmSymbol.prev SanaSpmSymbol.next].
    split; [lia|].
    destruct (Nat.ltb_spec i (length (spm_segment text) - 1)); [right; lia | by left].
  - destruct (spm_segment text) as [|s0 rest] eqn:E; [done|].
    destruct (Hseg 0 s0 eq_refl) as (_ & Hn & Hp).
    eexists. split; [reflexivity|]. cbn. done.
Qed.

Lemma spm_seed_queue_wf (v : SanaVocab) (text : list ascii)
    (symbols : list SanaSpmSymbol.t) :
  queue_wf (length symbols) (spm_seed_queue v text symbols).
Proof.
  unfold spm_seed_queue.
  assert (H : forall idxs q,
    queue_wf (length symbols) q ->
    (forall i, i ∈ idxs -> i + 1 < length symbols) ->
    queue_wf (length symbols)
      (foldl (fun work_queue i =>
                try_add_bigram_spm v text symbols work_queue (Z.of_nat i) (Z.of_nat i + 1))
             q idxs)).
  { induction idxs as [|i idxs IH]; intros q Hq Hidx; [exact Hq|].
    cbn [foldl]. apply IH.
    - apply try_add_bigram_spm_wf; [exact Hq | lia |].
      right. specialize (Hidx i ltac:(left)). lia.
    - intros j Hj. apply Hidx. by right. }
  apply H.
  - intros b Hb. by apply elem_of_nil in Hb.
  - intros i Hi. apply elem_of_seq in Hi. lia.
Qed.

(** ** The SPM tokenizer returns *)





(** ** The byte-pair tokenizer returns *)

Lemma bpe_scan_loop_index (ranks : gmap (list ascii * list ascii) Z)
    (rest : list (list ascii)) (j : nat) (best_rank merge_idx : Z) :
  (best_rank <> (-1)%Z -> exists i, merge_idx = Z.of_nat i /\ i < j) ->
  let r := bpe_scan_loop ranks rest j best_rank merge_idx in
  r.1 <> (-1)%Z -> exists i, r.2 = Z.of_nat i /\ i + 1 <= j + (length rest - 1).
Proof.
  revert j best_rank merge_idx.
  induction rest as [|a rest IH]; intros j best_rank merge_idx H.
  - cbn. intros Hb. destruct (H Hb) as (i & ? & ?). exists i. split; [done | lia].
  - destruct rest as [|b rest].
    + cbn. intros Hb. destruct (H Hb) as (i & ? & ?). exists i. split; [done | lia].
    + cbn [bpe_scan_loop]. cbv zeta.
      assert (Hstep : forall br mi,
        (br <> (-1)%Z -> exists i, mi = Z.of_nat i /\ i < S j) ->
        (bpe_scan_loop ranks (b :: rest) (S j) br mi).1 <> (-1)%Z ->
        exists i, (bpe_scan_loop ranks (b :: rest) (S j) br mi).2 = Z.of_nat i
                  /\ i + 1 <= j + (length (a :: b :: rest) - 1)).
      { intros br mi Hinv Hne. destruct (IH (S j) br mi Hinv Hne) as (i & ? & ?).
        exists i. split; [done | simpl in *; lia]. }
      destruct (ranks !! (a, b)) as [rank|].
      * destruct (_ || _).
        -- apply Hstep. intros _. exists j. split; [done | lia].
        -- apply Hstep. intros Hb. destruct (H Hb) as (i & ? & ?).
           exists i. split; [done | lia].
      * apply Hstep. intros Hb. destruct (H Hb) as (i & ? & ?).
        exists i. split; [done | lia].
Qed.

Lemma bpe_scan_index (ranks : gmap (list ascii * list ascii) Z)
    (sub_tokens : list (list ascii)) (best_rank merge_idx : Z) :
  bpe_scan ranks sub_tokens = (best_rank, merge_idx) ->
  best_rank <> (-1)%Z ->
  exists i, merge_idx = Z.of_nat i /\ i + 1 < length sub_tokens.
Proof.
  intros Hscan Hb.
  pose proof (bpe_scan_loop_index ranks sub_tokens 0 (-1) (-1)) as H.
  fold (bpe_scan ranks sub_tokens) in H. rewrite Hscan in H. cbn [fst snd] in H.
  destruct H as (i & Hi & Hle); [done | exact Hb |].
  exists i. split; [exact Hi | lia].
Qed.

(** The merge loop ends within [length sub_tokens] iterations, and leaves
    at least one piece, none of them empty. *)
Lemma bpe_merge_loop_total (ranks : gmap (list ascii * list ascii) Z) (fuel : nat)
    (sub_tokens : list (list ascii)) :
  length sub_tokens <= fuel ->
  sub_tokens <> [] ->
  Forall (fun st => st <> []) sub_tokens ->
  exists sub_tokens',
    bpe_merge_loop fuel ranks sub_tokens = Some sub_tokens'
    /\ sub_tokens' <> []
    /\ Forall (fun st => st <> []) sub_tokens'.
Proof.
  revert sub_tokens. induction fuel as [|fuel IH]; intros sub_tokens Hfuel Hne Hall.
  - destruct sub_tokens; [done | simpl in Hfuel; lia].
  - cbn [bpe_merge_loop].
    destruct (Nat.leb_spec (length sub_tokens) 1); [by eexists|].
    destruct (bpe_scan ranks sub_tokens) as [best_rank merge_idx] eqn:Hscan.
    destruct (Z.eqb_spec best_rank (-1)); [by eexists|].
    destruct (bpe_scan_index _ _ _ _ Hscan ltac:(done)) as (i & -> & Hi).
    destruct (lookup_lt_is_Some_2 sub_tokens i ltac:(lia)) as [a Ha].
    destruct (lookup_lt_is_Some_2 sub_tokens (i + 1) ltac:(lia)) as [b Hb].
    rewrite (bpe_merge_at_spec sub_tokens i a b Ha Hb).
    apply IH.
    + rewrite length_app, length_take. cbn [length]. rewrite length_drop. lia.
    + by destruct (take i sub_tokens).
    + apply Forall_app. split; [by apply Forall_take|].
      apply Forall_cons. split; [|by apply Forall_drop].
      rewrite Forall_lookup in Hall. specialize (Hall i a Ha).
      by destruct a.
Qed.

Lemma split_codepoints_all_nonempty (s : list ascii) :
  Forall (fun cp => cp <> []) (split_codepoints s).
Proof.
  apply Forall_forall. intros cp Hcp.
  by apply split_codepoints_loop_nonempty in Hcp.
Qed.


Lemma tokenize_bpe_word_total (v : SanaVocab) (word : list ascii) :
  exists ids, tokenize_bpe_word v word = Some ids.
Proof.
  unfold tokenize_bpe_word.
  destruct (bool_decide (word = [])); [by eexists|].
  destruct (token_to_id v !! word); [by eexists|].
  destruct (bool_decide (split_codepoints word = [])) eqn:E; [by eexists|].
  apply bool_decide_eq_false in E.
  destruct (bpe_merge_loop_total (bpe_ranks v) (length (split_codepoints word))
              (split_codepoints word) ltac:(lia) E (split_codepoints_all_nonempty word))
    as (st & -> & _). by eexists.
Qed.

Lemma tokenize_bpe_words_total (v : SanaVocab) (words : list (list ascii)) :
  exists ids, tokenize_bpe_words v words = Some ids.
Proof.
  induction words as [|w words [ids IH]]; [by eexists|].
  cbn [tokenize_bpe_words]. destruct (tokenize_bpe_word_total v w) as [ids' ->].
  rewrite IH. by eexists.
Qed.






(** ** The pre-tokenization pattern *)

Ltac bool_to_Z :=
  unfold is_other, is_space, is_alnum, is_alpha, is_digit, in_range in *;
  repeat match goal with
  | H : _ && _ = true |- _ => apply andb_true_iff in H as [? ?]
  | H : _ || _ = true |- _ => apply orb_true_iff in H as [? | ?]
  | H : _ && _ = false |- _ => apply andb_false_iff in H as [? | ?]
  | H : _ || _ = false |- _ => apply orb_false_iff in H as [? ?]
  | H : negb _ = true |- _ => apply negb_true_iff in H
  | H : negb _ = false |- _ => apply negb_false_iff in H
  | H : (_ <=? _)%Z = true |- _ => apply Z.leb_le in H
  | H : (_ <=? _)%Z = false |- _ => apply Z.leb_gt in H
  | H : (_ =? _)%Z = true |- _ => apply Z.eqb_eq in H
  | H : (_ =? _)%Z = false |- _ => apply Z.eqb_neq in H
  end.

Lemma is_alpha_ascii (c : ascii) : is_alpha c = true -> (uchar c < 128)%Z.
Proof. intros H. bool_to_Z; lia. Qed.

Lemma is_digit_ascii (c : ascii) : is_digit c = true -> (uchar c < 128)%Z.
Proof. intros H. bool_to_Z; lia. Qed.

Lemma is_space_ascii (c : ascii) : is_space c = true -> (uchar c < 128)%Z.
Proof. intros H. bool_to_Z; lia. Qed.

(** A byte outside the class [[^\s[:alnum:]]] is below 0x80. *)
Lemma not_other_ascii (c : ascii) : is_other c = false -> (uchar c < 128)%Z.
Proof. intros H. bool_to_Z; lia. Qed.

(** Every byte is in one of the four classes of the pattern. *)
Lemma class_total (c : ascii) :
  is_alpha c = true \/ is_digit c = true \/ is_other c = true \/ is_space c = true.
Proof.
  unfold is_other, is_alnum.
  destruct (is_alpha c); [by left|]. destruct (is_digit c); [by right; left|].
  destruct (is_space c); [by right; right; right | by right; right; left].
Qed.

Lemma run_length_le (cls : ascii -> bool) (rest : list ascii) :
  run_length cls rest <= length rest.
Proof. induction rest as [|c rest IH]; cbn; [lia|]. destruct (cls c); cbn; lia. Qed.

Lemma run_length_take (cls : ascii -> bool) (rest : list ascii) :
  Forall (fun c => cls c = true) (take (run_length cls rest) rest).
Proof.
  induction rest as [|c rest IH]; cbn; [constructor|].
  destruct (cls c) eqn:E; cbn; [by constructor | constructor].
Qed.

Lemma run_length_stop (cls : ascii -> bool) (rest : list ascii) (d : ascii) :
  rest !! run_length cls rest = Some d -> cls d = false.
Proof.
  induction rest as [|c rest IH]; cbn; [discriminate|].
  destruct (cls c) eqn:E; cbn; [exact IH | by intros [= <-]].
Qed.

Lemma starts_with_take (lit rest : list ascii) :
  starts_with lit rest = true -> take (length lit) rest = lit.
Proof.
  revert rest. induction lit as [|a lit IH]; intros rest H; [done|].
  destruct rest as [|b rest]; [discriminate|]. cbn in H.
  apply andb_true_iff in H as [Hab H]. apply bool_decide_eq_true in Hab as ->.
  cbn. f_equal. by apply IH.
Qed.

Lemma match_literal_spec (lit : string) (rest : list ascii) (len : nat) :
  match_literal lit rest = Some len ->
  len = length (str lit) /\ take len rest = str lit.
Proof.
  unfold match_literal. destruct (starts_with (str lit) rest) eqn:E; [|discriminate].
  intros [= <-]. split; [reflexivity | by apply starts_with_take].
Qed.

Lemma match_plus_spec (cls : ascii -> bool) (rest : list ascii) (len : nat) :
  match_plus cls rest = Some len -> 0 < len /\ len = run_length cls rest.
Proof.
  unfold match_plus. destruct (run_length cls rest); [discriminate|].
  intros [= <-]. split; [lia | reflexivity].
Qed.

Lemma match_plus_some (cls : ascii -> bool) (c : ascii) (rest : list ascii) :
  cls c = true -> exists len, match_plus cls (c :: rest) = Some len.
Proof. intros H. unfold match_plus. cbn. rewrite H. by eexists. Qed.

(** A match of the pattern is not empty and, unless it consists of bytes
    below 0x80, is a longest run of the class [[^\s[:alnum:]]]: the byte
    after it, if any, is below 0x80. *)
Lemma first_match_spec (rest : list ascii) (len : nat) :
  first_match gpt2_alternatives rest = Some len ->
  0 < len <= length rest
  /\ (Forall (fun c => (uchar c < 128)%Z) (take len rest)
      \/ forall d, rest !! len = Some d -> (uchar d < 128)%Z).
Proof.
  assert (Hlit : forall lit,
    Forall (fun c => (uchar c < 128)%Z) (str lit) -> 0 < length (str lit) ->
    match_literal lit rest = Some len ->
    0 < len <= length rest
    /\ (Forall (fun c => (uchar c < 128)%Z) (take len rest)
        \/ forall d, rest !! len = Some d -> (uchar d < 128)%Z)).
  { intros lit Hascii Hpos H. apply match_literal_spec in H as [-> Ht].
    split; [|left; by rewrite Ht].
    split; [exact Hpos|]. rewrite <- Ht at 1. rewrite length_take. lia. }
  assert (Hcls : forall cls,
    (forall c, cls c = true -> (uchar c < 128)%Z) ->
    match_plus cls rest = Some len ->
    0 < len <= length rest
    /\ (Forall (fun c => (uchar c < 128)%Z) (take len rest)
        \/ forall d, rest !! len = Some d -> (uchar d < 128)%Z)).
  { intros cls Hascii H. apply match_plus_spec in H as [Hpos ->].
    split; [split; [exact Hpos | apply run_length_le]|]. left.
    eapply Forall_impl; [apply run_length_take | exact Hascii]. }
  unfold gpt2_alternatives. cbn [first_match].
  repeat match goal with
  | |- context [match match_literal ?lit rest with _ => _ end] =>
    destruct (match_literal lit rest) eqn:?;
      [intros [= <-]; apply (Hlit lit);
         [repeat constructor | cbn; lia | assumption] |]
  end.
  destruct (match_plus is_alpha rest) eqn:Ea;
    [intros [= <-]; by apply (Hcls is_alpha); [apply is_alpha_ascii|] |].
  destruct (match_plus is_digit rest) eqn:Ed;
    [intros [= <-]; by apply (Hcls is_digit); [apply is_digit_ascii|] |].
  destruct (match_plus is_other rest) eqn:Eo.
  { intros [= <-]. apply match_plus_spec in Eo as [Hpos ->].
    split; [split; [exact Hpos | apply run_length_le]|]. right.
    intros d Hd. apply run_length_stop in Hd. by apply not_other_ascii. }
  destruct (match_plus is_space rest) eqn:Es;
    [intros [= <-]; by apply (Hcls is_space); [apply is_space_ascii|] |].
  discriminate.
Qed.

(** At every position of a non-empty rest some alternative matches. *)
Lemma first_match_some (c : ascii) (rest : list ascii) :
  exists len, first_match gpt2_alternatives (c :: rest) = Some len.
Proof.
  unfold gpt2_alternatives. cbn [first_match].
  repeat match goal with
  | |- context [match match_literal ?lit ?r with _ => _ end] =>
    destruct (match_literal lit r); [by eexists|]
  end.
  destruct (class_total c) as [H | [H | [H | H]]].
  - destruct (match_plus_some is_alpha c rest H) as [len ->]. by eexists.
  - destruct (match_plus is_alpha (c :: rest)); [by eexists|].
    destruct (match_plus_some is_digit c rest H) as [len ->]. by eexists.
  - destruct (match_plus is_alpha (c :: rest)); [by eexists|].
    destruct (match_plus is_digit (c :: rest)); [by eexists|].
    destruct (match_plus_some is_other c rest H) as [len ->]. by eexists.
  - destruct (match_plus is_alpha (c :: rest)); [by eexists|].
    destruct (match_plus is_digit (c :: rest)); [by eexists|].
    destruct (match_plus is_other (c :: rest)); [by eexists|].
    destruct (match_plus_some is_space c rest H) as [len ->]. by eexists.
Qed.


(** ** Codepoints and pre-tokens *)

(** The classifier looks at the first byte and at [max_len] only. *)
Lemma utf8_len_char_hd (s s' : list ascii) (max_len : nat) :
  hd zero s = hd zero s' -> utf8_len_char s max_len = utf8_len_char s' max_len.
Proof. intros H. unfold utf8_len_char. by rewrite H. Qed.

(** A codepoint that fits is classified alike under any bound it fits. *)
Lemma utf8_len_char_fits (s : list ascii) (m m' : nat) :
  utf8_len_char s m <> 0 -> utf8_len_char s m <= m' ->
  utf8_len_char s m' = utf8_len_char s m.
Proof.
  unfold utf8_len_char.
  destruct (uchar (hd zero s) <? 128)%Z, (Z.land (uchar (hd zero s)) 224 =? 192)%Z,
    (Z.land (uchar (hd zero s)) 240 =? 224)%Z, (Z.land (uchar (hd zero s)) 248 =? 240)%Z;
  destruct m as [|[|[|[|m]]]]; destruct m' as [|[|[|[|m']]]]; cbn; lia.
Qed.



Lemma has_codepoint_drop (s : list ascii) (k : nat) :
  has_codepoint (drop k s) -> has_codepoint s.
Proof.
  intros (j & Hj & H). rewrite length_drop in Hj, H. rewrite drop_drop in H.
  exists (k + j). split; [lia|]. by replace (length s - (k + j)) with (length s - k - j) by lia.
Qed.






(** ** The symbols after a merge *)

Lemma spm_merge_symbols_lookup (text : list ascii) (symbols : list SanaSpmSymbol.t)
    (bigram : SanaSpmBigram.t) (sl sr : SanaSpmSymbol.t) (i : nat) :
  symbols_wf text symbols ->
  (0 <= SanaSpmBigram.left bigram < SanaSpmBigram.right bigram)%Z ->
  symbols !! Z.to_nat (SanaSpmBigram.left bigram) = Some sl ->
  symbols !! Z.to_nat (SanaSpmBigram.right bigram) = Some sr ->
  spm_merge_symbols symbols bigram !! i =
    if decide (i = Z.to_nat (SanaSpmBigram.left bigram)) then
      Some {| SanaSpmSymbol.prev := SanaSpmSymbol.prev sl;
              SanaSpmSymbol.next := SanaSpmSymbol.next sr;
              SanaSpmSymbol.text_ptr := SanaSpmSymbol.text_ptr sl;
              SanaSpmSymbol.n := SanaSpmSymbol.n sl + SanaSpmSymbol.n sr |}
    else if decide (i = Z.to_nat (SanaSpmBigram.right bigram)) then
      Some (SanaSpmSymbol.with_n sr 0)
    else if decide (SanaSpmSymbol.next sr <> (-1)%Z
                    /\ i = Z.to_nat (SanaSpmSymbol.next sr)) then
      (fun sym => SanaSpmSymbol.with_prev sym (SanaSpmBigram.left bigram)) <$> symbols !! i
    else symbols !! i.
Proof.
  intros (Hlen & Hlinks & _) Hlr Hsl Hsr.
  unfold spm_merge_symbols.
  set (l := SanaSpmBigram.left bigram) in *. set (r := SanaSpmBigram.right bigram) in *.
  assert (Hne : Z.to_nat l <> Z.to_nat r) by lia.
  destruct (Hlinks _ _ Hsr) as [_ Hx].
  rewrite (symbol_at_lookup _ _ _ Hsl), (symbol_at_lookup _ _ _ Hsr).
  set (symbols1 := set_n symbols l _).
  assert (Hsr1 : symbols1 !! Z.to_nat r = Some sr).
  { subst symbols1. unfold set_n. by rewrite list_lookup_alter_ne. }
  set (symbols2 := set_n symbols1 r 0).
  assert (Hsr2 : symbols2 !! Z.to_nat r = Some (SanaSpmSymbol.with_n sr 0)).
  { subst symbols2. unfold set_n. by rewrite list_lookup_alter_eq, Hsr1. }
  rewrite (symbol_at_lookup _ _ _ Hsr2). cbn [SanaSpmSymbol.with_n SanaSpmSymbol.next].
  set (symbols3 := set_next symbols2 l _).
  assert (Hsr3 : symbols3 !! Z.to_nat r = Some (SanaSpmSymbol.with_n sr 0)).
  { subst symbols3. unfold set_next. by rewrite list_lookup_alter_ne. }
  rewrite (symbol_at_lookup _ _ _ Hsr3). cbn [SanaSpmSymbol.with_n SanaSpmSymbol.next].
  assert (H3 : symbols3 !! i =
    if decide (i = Z.to_nat l) then
      Some {| SanaSpmSymbol.prev := SanaSpmSymbol.prev sl;
              SanaSpmSymbol.next := SanaSpmSymbol.next sr;
              SanaSpmSymbol.text_ptr := SanaSpmSymbol.text_ptr sl;
              SanaSpmSymbol.n := SanaSpmSymbol.n sl + SanaSpmSymbol.n sr |}
    else if decide (i = Z.to_nat r) then Some (SanaSpmSymbol.with_n sr 0)
    else symbols !! i).
  { subst symbols3 symbols2 symbols1. unfold set_next, set_n.
    destruct (decide (i = Z.to_nat l)) as [->|Hil].
    - rewrite list_lookup_alter_eq, list_lookup_alter_ne, list_lookup_alter_eq, Hsl by done.
      reflexivity.
    - rewrite list_lookup_alter_ne by done.
      destruct (decide (i = Z.to_nat r)) as [->|Hir].
      + rewrite list_lookup_alter_eq, list_lookup_alter_ne, Hsr by done. reflexivity.
      + by rewrite !list_lookup_alter_ne by done. }
  assert (Hlen3 : length symbols3 = length symbols).
  { subst symbols3 symbols2 symbols1. unfold set_next, set_n. by rewrite !length_alter. }
  destruct (Z.eqb_spec (SanaSpmSymbol.next sr) (-1)) as [Ex|Ex]; cbn [negb andb].
  - rewrite H3. repeat case_decide; try tauto; try lia.
  - rewrite index_past_end_false by (rewrite Hlen3; lia). cbn [negb].
    unfold set_prev. rewrite list_lookup_alter.
    case_decide as Hi.
    + subst i. rewrite H3.
      repeat case_decide; try lia; try tauto; reflexivity.
    + rewrite H3. repeat case_decide; try tauto; try lia; try reflexivity.
      match goal with H : _ /\ _ |- _ => destruct H; congruence end.
Qed.


(** ** The chain of live symbols *)


(** *** The initial chain *)

Lemma spm_link_lookup (symbols : list SanaSpmSymbol.t) (i : nat) (sym : SanaSpmSymbol.t) :
  symbols !! i = Some sym ->
  spm_link symbols !! i =
    Some (SanaSpmSymbol.with_next sym
            (if i <? length symbols - 1 then (Z.of_nat i + 1)%Z else (-1)%Z)).
Proof. intros H. unfold spm_link. by rewrite list_lookup_imap, H. Qed.

Lemma spm_link_lookup_inv (symbols : list SanaSpmSymbol.t) (i : nat) (sym' : SanaSpmSymbol.t) :
  spm_link symbols !! i = Some sym' ->
  exists sym, symbols !! i = Some sym
    /\ sym' = SanaSpmSymbol.with_next sym
                (if i <? length symbols - 1 then (Z.of_nat i + 1)%Z else (-1)%Z).
Proof.
  intros H. unfold spm_link in H. rewrite list_lookup_imap in H.
  destruct (symbols !! i) as [sym|]; [|discriminate]. injection H as <-. by exists sym.
Qed.

Lemma spm_link_chain_wf (text : list ascii) :
  chain_wf (spm_link (spm_segment text)).
Proof.
  destruct (spm_segment_spec text) as (Hseg & _ & _).
  intros i sym' Hi _.
  apply spm_link_lookup_inv in Hi as (sym & Hi & ->).
  pose proof (lookup_lt_Some _ _ _ Hi) as Hlt.
  destruct (Hseg i sym Hi) as (Hp & Hn & _).
  cbn [SanaSpmSymbol.with_next SanaSpmSymbol.next SanaSpmSymbol.prev].
  split; [|split].
  - intros j sj Hij Hnext Hj.
    apply lookup_lt_Some in Hj. rewrite spm_link_length in Hj.
    destruct (Nat.ltb_spec i (length (spm_segment text) - 1)) in Hnext; lia.
  - destruct (Nat.ltb_spec i (length (spm_segment text) - 1)); [|done].
    intros _.
    destruct (lookup_lt_is_Some_2 (spm_segment text) (S i) ltac:(lia)) as [sx Hsx].
    replace (Z.to_nat (Z.of_nat i + 1)) with (S i) by lia.
    rewrite (spm_link_lookup _ _ _ Hsx). eexists. split; [reflexivity|].
    cbn. by destruct (Hseg (S i) sx Hsx) as (_ & ? & _).
  - intros Hprev. rewrite Hp in *.
    destruct i as [|i]; [lia|].
    destruct (lookup_lt_is_Some_2 (spm_segment text) i ltac:(lia)) as [sp Hsp].
    replace (Z.to_nat (Z.of_nat (S i) - 1)) with i by lia.
    rewrite (spm_link_lookup _ _ _ Hsp). eexists. split; [reflexivity|].
    cbn [SanaSpmSymbol.with_next SanaSpmSymbol.next].
    destruct (Nat.ltb_spec i (length (spm_segment text) - 1)); lia.
Qed.

(** The symbols of the segmentation spell the codepoints of the text. *)
Lemma spm_segment_loop_pieces (text : list ascii) (fuel : nat) (rest : list ascii)
    (idx : Z) (offs : nat) (acc : list SanaSpmSymbol.t) :
  rest = drop offs text ->
  map (fun sym => piece_at text (SanaSpmSymbol.text_ptr sym) (SanaSpmSymbol.n sym))
      (spm_segment_loop fuel rest idx offs acc)
  = map (fun sym => piece_at text (SanaSpmSymbol.text_ptr sym) (SanaSpmSymbol.n sym)) acc
    ++ split_codepoints_loop fuel rest.
Proof.
  revert rest idx offs acc. induction fuel as [|fuel IH]; intros rest idx offs acc Hrest.
  - cbn. by rewrite app_nil_r.
  - destruct rest as [|c tl]; [cbn; by rewrite app_nil_r|].
    cbn [spm_segment_loop split_codepoints_loop]. cbv zeta.
    destruct (Nat.eqb_spec (utf8_len_char (c :: tl) (length (c :: tl))) 0) as [E|E].
    + apply IH. by rewrite Hrest, drop_drop.
    + rewrite IH by (by rewrite Hrest, drop_drop).
      rewrite map_app, <- app_assoc. cbn [map app SanaSpmSymbol.text_ptr SanaSpmSymbol.n].
      unfold piece_at at 2. by rewrite <- Hrest.
Qed.

Lemma spm_segment_pieces (text : list ascii) :
  map (fun sym => piece_at text (SanaSpmSymbol.text_ptr sym) (SanaSpmSymbol.n sym))
      (spm_segment text)
  = split_codepoints text.
Proof.
  unfold spm_segment, split_codepoints.
  by rewrite (spm_segment_loop_pieces text (length text) text 0 0 []).
Qed.



(** *** The chain after a merge *)

(** The fields of the symbol at index [j] before and after the merge of
    the symbols at [l] and [r]. *)
Lemma spm_merge_symbols_fields (text : list ascii) (symbols : list SanaSpmSymbol.t)
    (bigram : SanaSpmBigram.t) (sl sr : SanaSpmSymbol.t) (j : nat) :
  symbols_wf text symbols ->
  (0 <= SanaSpmBigram.left bigram < SanaSpmBigram.right bigram)%Z ->
  symbols !! Z.to_nat (SanaSpmBigram.left bigram) = Some sl ->
  symbols !! Z.to_nat (SanaSpmBigram.right bigram) = Some sr ->
  (symbols !! j = None /\ spm_merge_symbols symbols bigram !! j = None)
  \/ exists sj sj',
       symbols !! j = Some sj /\ spm_merge_symbols symbols bigram !! j = Some sj'
       /\ SanaSpmSymbol.text_ptr sj' = SanaSpmSymbol.text_ptr sj
       /\ SanaSpmSymbol.n sj' =
            (if decide (j = Z.to_nat (SanaSpmBigram.left bigram))
             then SanaSpmSymbol.n sl + SanaSpmSymbol.n sr
             else if decide (j = Z.to_nat (SanaSpmBigram.right bigram)) then 0
             else SanaSpmSymbol.n sj)
       /\ SanaSpmSymbol.next sj' =
            (if decide (j = Z.to_nat (SanaSpmBigram.left bigram))
             then SanaSpmSymbol.next sr else SanaSpmSymbol.next sj)
       /\ SanaSpmSymbol.prev sj' =
            (if decide (SanaSpmSymbol.next sr <> (-1)%Z
                        /\ j = Z.to_nat (SanaSpmSymbol.next sr))
             then SanaSpmBigram.left bigram else SanaSpmSymbol.prev sj).
Proof.
  intros Hwf Hlr Hsl Hsr.
  rewrite (spm_merge_symbols_lookup text symbols bigram sl sr j Hwf Hlr Hsl Hsr).
  destruct Hwf as (Hlen & Hlinks & _).
  destruct (Hlinks _ _ Hsr) as [_ Hx].
  destruct (decide (j = Z.to_nat (SanaSpmBigram.left bigram))) as [->|Hjl].
  { right. exists sl. eexists. split; [exact Hsl|]. split; [reflexivity|]. cbn.
    repeat split. case_decide as H; [lia | reflexivity]. }
  destruct (decide (j = Z.to_nat (SanaSpmBigram.right bigram))) as [->|Hjr].
  { right. exists sr. eexists. split; [exact Hsr|]. split; [reflexivity|]. cbn.
    repeat split. case_decide as H; [lia | reflexivity]. }
  destruct (symbols !! j) as [sj|] eqn:Hj.
  - right. exists sj. case_decide as H; eexists; (split; [reflexivity|]);
      (split; [reflexivity|]); cbn; repeat split.
  - left. split; [reflexivity|]. by case_decide.
Qed.

Ltac solve_decide_side := first [lia | done | tauto | (intros [? ?]; lia)].

(** Settle the decisions whose outcome follows by arithmetic. *)
Ltac simpl_decide :=
  repeat match goal with
  | |- context [decide ?P] =>
    first [ rewrite (decide_True (P := P)) by solve_decide_side
          | rewrite (decide_False (P := P)) by solve_decide_side ]
  | H : context [decide ?P] |- _ =>
    first [ rewrite (decide_True (P := P)) in H by solve_decide_side
          | rewrite (decide_False (P := P)) in H by solve_decide_side ]
  end.

Lemma chain_wf_merge (text : list ascii) (symbols : list SanaSpmSymbol.t)
    (bigram : SanaSpmBigram.t) (sl sr : SanaSpmSymbol.t) :
  symbols_wf text symbols ->
  chain_wf symbols ->
  (0 <= SanaSpmBigram.left bigram < SanaSpmBigram.right bigram)%Z ->
  symbols !! Z.to_nat (SanaSpmBigram.left bigram) = Some sl ->
  symbols !! Z.to_nat (SanaSpmBigram.right bigram) = Some sr ->
  0 < SanaSpmSymbol.n sl -> 0 < SanaSpmSymbol.n sr ->
  SanaSpmSymbol.next sl = SanaSpmBigram.right bigram ->
  chain_wf (spm_merge_symbols symbols bigram).
Proof.
  intros Hwf Hchain Hlr Hsl Hsr Hnl Hnr Hnext.
  pose proof (fun j => spm_merge_symbols_fields text symbols bigram sl sr j Hwf Hlr Hsl Hsr)
    as Hf.
  set (symbols' := spm_merge_symbols symbols bigram) in *.
  set (l := SanaSpmBigram.left bigram) in *. set (r := SanaSpmBigram.right bigram) in *.
  destruct Hwf as (Hlen & Hlinks & _).
  destruct (Hlinks _ _ Hsl) as [Hpl _]. destruct (Hlinks _ _ Hsr) as [_ Hx].
  destruct (Hchain _ _ Hsl Hnl) as (Hgap_l & _ & Hprev_l).
  destruct (Hchain _ _ Hsr Hnr) as (Hgap_r & Hnext_r & _).
  intros i sym' Hi' Hlive'.
  destruct (Hf i) as [[_ Hnone] | (sym & sym0 & Hi & Hi0 & _ & Hn & Hnx & Hpv)];
    [congruence|].
  rewrite Hi' in Hi0. injection Hi0 as <-.
  destruct (decide (i = Z.to_nat l)) as [->|Hil].
  - (* the left symbol *)
    simpl_decide.
    rewrite Hi in Hsl. injection Hsl as ->. rewrite Hnx, Hpv. split; [|split].
    + intros j sj' Hij Hcond Hj'.
      destruct (Hf j) as [[_ Hnone] | (sj & sj0 & Hj & Hj0 & _ & Hnj & _)]; [congruence|].
      rewrite Hj' in Hj0. injection Hj0 as <-. rewrite Hnj. simpl_decide.
      case_decide; [reflexivity|].
      destruct (decide (j < Z.to_nat r)).
      * apply (Hgap_l j sj Hij); [right; lia | exact Hj].
      * apply (Hgap_r j sj); [lia | | exact Hj]. destruct Hcond; [by left | by right].
    + intros Hne. destruct (Hnext_r Hne) as (sx & Hsx & Hnsx).
      destruct (Hf (Z.to_nat (SanaSpmSymbol.next sr)))
        as [[Hnone _] | (sj & sj' & Hj & Hj' & _ & Hnj & _)]; [congruence|].
      rewrite Hsx in Hj. injection Hj as <-.
      exists sj'. split; [exact Hj'|]. rewrite Hnj. simpl_decide. exact Hnsx.
    + intros Hne. destruct (Hprev_l Hne) as (sp & Hsp & Hnsp).
      destruct (Hf (Z.to_nat (SanaSpmSymbol.prev sl)))
        as [[Hnone _] | (sj & sj' & Hj & Hj' & _ & _ & Hnxj & _)]; [congruence|].
      rewrite Hsp in Hj. injection Hj as <-.
      exists sj'. split; [exact Hj'|]. rewrite Hnxj. simpl_decide. exact Hnsp.
  - destruct (decide (i = Z.to_nat r)) as [->|Hir]; simpl_decide; [lia|].
    (* any other symbol *)
    rewrite Hn in Hlive'. rewrite Hnx.
    destruct (Hchain _ _ Hi Hlive') as (Hgap & Hsucc & Hpred).
    destruct (Hlinks _ _ Hi) as [Hpi Hxi].
    split; [|split].
    + intros j sj' Hij Hcond Hj'.
      destruct (Hf j) as [[_ Hnone] | (sj & sj0 & Hj & Hj0 & _ & Hnj & _)]; [congruence|].
      rewrite Hj' in Hj0. injection Hj0 as <-. rewrite Hnj.
      specialize (Hgap j sj Hij Hcond Hj).
      case_decide as Hjl; [|by case_decide].
      subst j. rewrite Hj in Hsl. injection Hsl as ->. lia.
    + intros Hne. destruct (Hsucc Hne) as (sy & Hsy & Hnsy).
      destruct (Hf (Z.to_nat (SanaSpmSymbol.next sym)))
        as [[Hnone _] | (sj & sj' & Hj & Hj' & _ & Hnj & _)]; [congruence|].
      rewrite Hsy in Hj. injection Hj as <-.
      exists sj'. split; [exact Hj'|]. rewrite Hnj.
      case_decide as Hyl; [lia|].
      case_decide as Hyr; [|exact Hnsy].
      (* the successor of a live symbol other than [l] is not [r] *)
      exfalso. destruct (decide (i < Z.to_nat l)).
      * specialize (Hgap (Z.to_nat l) sl ltac:(lia) ltac:(right; lia) Hsl). lia.
      * specialize (Hgap_l i sym ltac:(lia) ltac:(right; lia) Hi). lia.
    + intros Hne.
      destruct (decide (SanaSpmSymbol.next sr <> (-1)%Z
                        /\ i = Z.to_nat (SanaSpmSymbol.next sr))) as [Hix|Hix].
      * destruct Hix as [Hxne ->]. rewrite Hpv in *.
        destruct (Hf (Z.to_nat l))
          as [[Hnone _] | (sj & sj' & Hj & Hj' & _ & _ & Hnxj & _)]; [congruence|].
        exists sj'. split; [exact Hj'|]. rewrite Hnxj. simpl_decide. lia.
      * rewrite Hpv in *. destruct (Hpred Hne) as (sp & Hsp & Hnsp).
        destruct (Hf (Z.to_nat (SanaSpmSymbol.prev sym)))
          as [[Hnone _] | (sj & sj' & Hj & Hj' & _ & _ & Hnxj & _)]; [congruence|].
        rewrite Hsp in Hj. injection Hj as <-.
        exists sj'. split; [exact Hj'|]. rewrite Hnxj.
        case_decide as Hpl'; [|exact Hnsp].
        exfalso. rewrite Hpl', Hsl in Hsp. injection Hsp as <-. lia.
Qed.


(** *** Candidates *)

(** A candidate that passes the staleness check still names a symbol and
    its successor, with the lengths recorded when it was pushed. *)
Lemma candidate_wf_accepted (v : SanaVocab) (text : list ascii)
    (symbols : list SanaSpmSymbol.t) (b : SanaSpmBigram.t) :
  candidate_wf v text symbols b ->
  spm_bigram_rejected symbols b = false ->
  exists sl sr,
    symbols !! Z.to_nat (SanaSpmBigram.left b) = Some sl
    /\ symbols !! Z.to_nat (SanaSpmBigram.right b) = Some sr
    /\ 0 < SanaSpmSymbol.n sl /\ 0 < SanaSpmSymbol.n sr
    /\ SanaSpmSymbol.next sl = SanaSpmBigram.right b
    /\ known_piece v text (SanaSpmSymbol.text_ptr sl)
         (SanaSpmSymbol.n sl + SanaSpmSymbol.n sr).
Proof.
  intros (sl & sr & nl & nr & Hsl & Hsr & Hnl & Hnr & Hsize & Hnext & Hgl & Hgr & Hknown) Hacc.
  apply spm_bigram_rejected_false in Hacc as (_ & _ & Hl & Hr & Hsum).
  rewrite (symbol_at_lookup _ _ _ Hsl), (symbol_at_lookup _ _ _ Hsr) in *.
  exists sl, sr. repeat (split; [assumption|]).
  specialize (Hgl Hl). specialize (Hgr Hr).
  split; [apply Hnext; lia | by rewrite Hsum].
Qed.

Lemma candidate_wf_merge (v : SanaVocab) (text : list ascii)
    (symbols : list SanaSpmSymbol.t) (bigram b : SanaSpmBigram.t)
    (sl sr : SanaSpmSymbol.t) :
  symbols_wf text symbols ->
  (0 <= SanaSpmBigram.left bigram < SanaSpmBigram.right bigram)%Z ->
  symbols !! Z.to_nat (SanaSpmBigram.left bigram) = Some sl ->
  symbols !! Z.to_nat (SanaSpmBigram.right bigram) = Some sr ->
  0 < SanaSpmSymbol.n sl -> 0 < SanaSpmSymbol.n sr ->
  candidate_wf v text symbols b ->
  candidate_wf v text (spm_merge_symbols symbols bigram) b.
Proof.
  intros Hwf Hlr Hsl Hsr Hnl Hnr
    (bl & br & nl & nr & Hbl & Hbr & Hpl & Hpr & Hsize & Hnext & Hgl & Hgr & Hknown).
  pose proof (fun j => spm_merge_symbols_fields text symbols bigram sl sr j Hwf Hlr Hsl Hsr)
    as Hf.
  destruct (Hf (Z.to_nat (SanaSpmBigram.left b)))
    as [[Hnone _] | (s1 & bl' & H1 & Hbl' & Hptr & Hn1 & Hnx1 & _)]; [congruence|].
  rewrite Hbl in H1. injection H1 as <-.
  destruct (Hf (Z.to_nat (SanaSpmBigram.right b)))
    as [[Hnone _] | (s2 & br' & H2 & Hbr' & _ & Hn2 & _)]; [congruence|].
  rewrite Hbr in H2. injection H2 as <-.
  exists bl', br', nl, nr.
  repeat (split; [assumption|]). rewrite Hptr. split; [|split; [|split; [|exact Hknown]]].
  - rewrite Hn1, Hnx1.
    destruct (decide (Z.to_nat (SanaSpmBigram.left b)
                      = Z.to_nat (SanaSpmBigram.left bigram))) as [E1|E1].
    + rewrite E1, Hsl in Hbl. injection Hbl as <-. specialize (Hgl Hnl). lia.
    + destruct (decide (Z.to_nat (SanaSpmBigram.left b)
                        = Z.to_nat (SanaSpmBigram.right bigram))); [lia | exact Hnext].
  - rewrite Hn1.
    destruct (decide (Z.to_nat (SanaSpmBigram.left b)
                      = Z.to_nat (SanaSpmBigram.left bigram))) as [E1|E1].
    + rewrite E1, Hsl in Hbl. injection Hbl as <-. specialize (Hgl Hnl). lia.
    + destruct (decide (Z.to_nat (SanaSpmBigram.left b)
                        = Z.to_nat (SanaSpmBigram.right bigram))); [lia | exact Hgl].
  - rewrite Hn2.
    destruct (decide (Z.to_nat (SanaSpmBigram.right b)
                      = Z.to_nat (SanaSpmBigram.left bigram))) as [E2|E2].
    + rewrite E2, Hsl in Hbr. injection Hbr as <-. specialize (Hgr Hnl). lia.
    + destruct (decide (Z.to_nat (SanaSpmBigram.right b)
                        = Z.to_nat (SanaSpmBigram.right bigram))); [lia | exact Hgr].
Qed.

Lemma piece_at_length (text : list ascii) (text_ptr count : nat) :
  piece_at text text_ptr (length (piece_at text text_ptr count))
  = piece_at text text_ptr count.
Proof.
  unfold piece_at. rewrite length_take.
  destruct (Nat.le_ge_cases count (length (drop text_ptr text))).
  - by rewrite Nat.min_l.
  - rewrite Nat.min_r by done. by rewrite !take_ge by lia.
Qed.

(** A candidate pushed by [try_add_bigram_spm] for a symbol and its
    successor carries what [candidate_wf] records. *)
Lemma try_add_bigram_spm_candidates (v : SanaVocab) (text : list ascii)
    (symbols : list SanaSpmSymbol.t) (work_queue : list SanaSpmBigram.t)
    (left_idx right_idx : Z) :
  (Z.of_nat (length symbols) < 2 ^ 31)%Z ->
  (-1 <= left_idx)%Z ->
  (right_idx = (-1)%Z \/ (left_idx < right_idx < Z.of_nat (length symbols))%Z) ->
  (forall sl, left_idx <> (-1)%Z -> symbols !! Z.to_nat left_idx = Some sl ->
     0 < SanaSpmSymbol.n sl -> SanaSpmSymbol.next sl = right_idx) ->
  (forall b, b ∈ work_queue -> candidate_wf v text symbols b) ->
  forall b, b ∈ try_add_bigram_spm v text symbols work_queue left_idx right_idx ->
    candidate_wf v text symbols b.
Proof.
  intros Hlen Hl Hr Hnext Hq b. unfold try_add_bigram_spm.
  destruct (_ || _) eqn:E1; [by apply Hq|].
  apply orb_false_iff in E1 as [El Er]. apply Z.eqb_neq in El, Er.
  destruct (_ || _); [by apply Hq|].
  destruct (lookup_lt_is_Some_2 symbols (Z.to_nat left_idx) ltac:(lia)) as [sl Hsl].
  destruct (lookup_lt_is_Some_2 symbols (Z.to_nat right_idx) ltac:(lia)) as [sr Hsr].
  rewrite (symbol_at_lookup _ _ _ Hsl), (symbol_at_lookup _ _ _ Hsr).
  destruct (_ || _) eqn:E2; [by apply Hq|].
  apply orb_false_iff in E2 as [Enl Enr]. apply Nat.eqb_neq in Enl, Enr.
  destruct (token_to_id v !! _) as [id|] eqn:Hid; [|by apply Hq].
  destruct (_ <? _)%Z; [|by apply Hq].
  intros Hb. apply elem_of_app in Hb as [Hb | Hb]; [by apply Hq|].
  apply list_elem_of_singleton in Hb as ->.
  exists sl, sr, (SanaSpmSymbol.n sl), (SanaSpmSymbol.n sr). cbn.
  split; [exact Hsl|]. split; [exact Hsr|]. split; [lia|]. split; [lia|].
  split; [unfold piece_at; rewrite length_take; lia|].
  split; [intros _; apply Hnext; [exact El | exact Hsl | lia]|].
  split; [done|]. split; [done|].
  unfold known_piece. rewrite piece_at_length, Hid. by eexists.
Qed.

Lemma spm_seed_queue_candidates (v : SanaVocab) (text : list ascii) :
  (Z.of_nat (length text) < 2 ^ 31)%Z ->
  forall b, b ∈ spm_seed_queue v text (spm_link (spm_segment text)) ->
    candidate_wf v text (spm_link (spm_segment text)) b.
Proof.
  intros Hlen. destruct (spm_segment_spec text) as (_ & Hle & _).
  set (symbols := spm_link (spm_segment text)).
  assert (Hsl : length symbols = length (spm_segment text)) by apply spm_link_length.
  unfold spm_seed_queue.
  assert (H : forall idxs q,
    (forall b, b ∈ q -> candidate_wf v text symbols b) ->
    (forall i, i ∈ idxs -> i + 1 < length symbols) ->
    forall b,
      b ∈ foldl (fun work_queue i =>
                   try_add_bigram_spm v text symbols work_queue (Z.of_nat i) (Z.of_nat i + 1))
                q idxs ->
      candidate_wf v text symbols b).
  { induction idxs as [|i idxs IH]; intros q Hq Hidx; [exact Hq|].
    cbn [foldl]. apply IH; [|intros j Hj; apply Hidx; by right].
    pose proof (Hidx i ltac:(left)) as Hi.
    apply try_add_bigram_spm_candidates; [lia | lia | right; lia | | exact Hq].
    intros sl _ Hsl' _. rewrite Nat2Z.id in Hsl'.
    subst symbols. apply spm_link_lookup_inv in Hsl' as (s & _ & ->).
    cbn [SanaSpmSymbol.with_next SanaSpmSymbol.next].
    rewrite spm_link_length in Hi.
    destruct (Nat.ltb_spec i (length (spm_segment text) - 1)); [reflexivity | lia]. }
  apply H.
  - intros b Hb. by apply elem_of_nil in Hb.
  - intros i Hi. apply elem_of_seq in Hi. lia.
Qed.



(** *** The merge loop keeps the chain *)





(** ** C4: non-empty output *)







(** The other way to an empty output: the unknown id is set, but no byte
    of the text decodes. *)
Example tokenize_empty_output_undecodable :
  unk_token_id vocab_spm_small = 2%Z
  /\ tokenize vocab_spm_small ["128"%char; "191"%char] false false = [].
Proof. split; vm_compute; reflexivity. Qed.

(** With the unknown id unset, the merged piece ["ab"] is what keeps the
    output of ["xab"] from being empty. *)
Example tokenize_xab_no_unk :
  tokenize vocab_tie_no_unk (str "xab") false false = [7%Z].
Proof. vm_compute. reflexivity. Qed.


(** ** The ranks of a loaded store *)

Lemma to_int32_not_minus_one (x : Z) :
  (0 <= x < 2 ^ 32 - 1)%Z -> to_int32 x <> (-1)%Z.
Proof.
  intros H. unfold to_int32.
  destruct (Z.lt_ge_cases x (2 ^ 31)).
  - rewrite Z.mod_small by lia. lia.
  - replace (x + 2 ^ 31)%Z with (x - 2 ^ 31 + 1 * 2 ^ 32)%Z by lia.
    rewrite Z.mod_add by lia. rewrite Z.mod_small by lia. lia.
Qed.

Lemma to_uint32_range (x : Z) : (0 <= to_uint32 x < 2 ^ 32)%Z.
Proof. unfold to_uint32. apply Z.mod_pos_bound. lia. Qed.

Lemma load_merge_ranks (ctx : gguf_context) (merges_idx : Z) (i : nat) (v v' : SanaVocab) :
  (Z.of_nat i < 2 ^ 32 - 1)%Z ->
  (forall p, bpe_ranks v !! p <> Some (-1)%Z) ->
  load_merge ctx merges_idx i v = Some v' ->
  forall p, bpe_ranks v' !! p <> Some (-1)%Z.
Proof.
  intros Hi Hv H. unfold load_merge in H.
  destruct (gguf_get_arr_str ctx merges_idx i) as [merge_str_c|]; [|discriminate].
  cbn in H. injection H as <-.
  assert (Hv1 : forall p,
    bpe_ranks (match merge_str_c with
               | Some s => set_bpe_merges v (<[i:=s]> (bpe_merges v))
               | None => v
               end) !! p <> Some (-1)%Z).
  { by destruct merge_str_c. }
  destruct (find_space _) as [space_pos|]; [|exact Hv1].
  destruct (_ && _); [|exact Hv1].
  intros p. cbn [set_bpe_ranks bpe_ranks]. rewrite lookup_insert.
  case_decide; [|apply Hv1].
  intros [= E]. by apply (to_int32_not_minus_one (Z.of_nat i)); [lia|].
Qed.

Lemma load_merges_loop_ranks (ctx : gguf_context) (merges_idx : Z) (idxs : list nat)
    (v v' : SanaVocab) :
  (forall i, i ∈ idxs -> (Z.of_nat i < 2 ^ 32 - 1)%Z) ->
  (forall p, bpe_ranks v !! p <> Some (-1)%Z) ->
  load_merges_loop ctx merges_idx idxs v = Some v' ->
  forall p, bpe_ranks v' !! p <> Some (-1)%Z.
Proof.
  revert v. induction idxs as [|i idxs IH]; intros v Hidx Hv H.
  - by injection H as <-.
  - cbn [load_merges_loop] in H.
    destruct (load_merge ctx merges_idx i v) as [v1|] eqn:E; [|discriminate].
    cbn in H. apply (IH v1); [intros j Hj; apply Hidx; by right | | exact H].
    apply (load_merge_ranks ctx merges_idx i v v1); [apply Hidx; by left | exact Hv | exact E].
Qed.

Lemma load_model_type_ranks (ctx : gguf_context) (v v' : SanaVocab) :
  (forall p, bpe_ranks v !! p <> Some (-1)%Z) ->
  load_model_type ctx v = Some v' ->
  forall p, bpe_ranks v' !! p <> Some (-1)%Z.
Proof.
  intros Hv H. unfold load_model_type in H.
  destruct (negb _); [|by injection H as <-].
  destruct (gguf_get_val_str _ _) as [model_name|]; [|discriminate]. cbn in H.
  destruct (_ || _); [|by injection H as <-].
  destruct (negb _); [|by injection H as <-].
  destruct (gguf_get_arr_n _ _) as [arr_n|]; [|discriminate]. cbn in H.
  eapply load_merges_loop_ranks; [| |exact H]; [|exact Hv].
  intros i Hi. apply elem_of_seq in Hi. pose proof (to_uint32_range arr_n). lia.
Qed.

Lemma load_token_ranks (ctx : gguf_context) (tokens_idx scores_idx : Z) (i : nat)
    (v v' : SanaVocab) :
  load_token ctx tokens_idx scores_idx i v = Some (inr v') ->
  bpe_ranks v' = bpe_ranks v.
Proof.
  unfold load_token. intros H.
  destruct (gguf_get_arr_str _ _ _) as [[t|]|]; [|discriminate..]. cbn in H.
  destruct (_ && _).
  - destruct (gguf_get_arr_data _ _) as [score_data|]; [|discriminate].
    cbn [mbind option_bind] in H.
    destruct (score_data !! i); [|discriminate]. by injection H as <-.
  - by injection H as <-.
Qed.

Lemma load_tokens_loop_ranks (ctx : gguf_context) (tokens_idx scores_idx : Z)
    (idxs : list nat) (v v' : SanaVocab) :
  load_tokens_loop ctx tokens_idx scores_idx idxs v = Some (inr v') ->
  bpe_ranks v' = bpe_ranks v.
Proof.
  revert v. induction idxs as [|i idxs IH]; intros v H.
  - by injection H as <-.
  - cbn [load_tokens_loop] in H.
    destruct (load_token _ _ _ i v) as [[v1|v1]|] eqn:E; [discriminate | | discriminate].
    cbn in H. apply IH in H. apply load_token_ranks in E. congruence.
Qed.

Lemma load_pad_token_ranks (ctx : gguf_context) (v v' : SanaVocab) :
  load_pad_token ctx v = Some v' -> bpe_ranks v' = bpe_ranks v.
Proof.
  unfold load_pad_token. intros H.
  destruct (negb _); [|by injection H as <-].
  destruct (gguf_get_kv_type _ _) as [ty|]; [|discriminate]. cbn in H.
  destruct ty; try (by injection H as <-).
  - destruct (gguf_get_val_u32 _ _); [|discriminate]. by injection H as <-.
  - destruct (gguf_get_val_i32 _ _); [|discriminate]. by injection H as <-.
Qed.

(** The loader never stores the rank -1, the value the merge scan uses
    for "no pair found": a store loaded into a fresh [SanaVocab] meets the
    assumption made on the rank table in the theorem on the merge scan. *)
Lemma load_from_gguf_ranks (ctx : gguf_context) (v v' : SanaVocab) (flag : bool) :
  (forall p, bpe_ranks v !! p <> Some (-1)%Z) ->
  load_from_gguf ctx v = Some (flag, v') ->
  forall p, bpe_ranks v' !! p <> Some (-1)%Z.
Proof.
  intros Hv H. unfold load_from_gguf in H. cbv zeta in H.
  destruct (_ =? -1)%Z; [by injection H as <- <-|].
  destruct (load_model_type ctx v) as [v1|] eqn:E1; [|discriminate].
  pose proof (load_model_type_ranks ctx v v1 Hv E1) as Hv1.
  cbn [mbind option_bind] in H.
  destruct (gguf_get_arr_n ctx (gguf_find_key ctx "tokenizer.ggml.tokens"))
    as [arr_n|]; [|discriminate].
  cbn [mbind option_bind] in H.
  set (v2 := set_id_to_token v1 _) in H.
  match type of H with
  | context [mbind _ ?e] =>
    assert (Hr : e = None \/ exists s v3, e = Some (s, v3) /\ bpe_ranks v3 = bpe_ranks v1);
    [| destruct Hr as [Hr | (s & v3 & Hr & Er3)]; rewrite Hr in H; clear Hr]
  end.
  { destruct (_ && _); [|right; by eexists _, _].
    destruct (gguf_get_arr_n _ _); [|by left]. cbn.
    destruct (_ =? _)%Z; right; by eexists _, _. }
  { discriminate. }
  cbn [mbind option_bind] in H.
  destruct (load_tokens_loop _ _ _ _ _) as [[v4|v4]|] eqn:E4; [ | | discriminate].
  - cbn [mbind option_bind] in H. injection H as <- <-.
    (* the [return false] of the token loop *)
    revert E4. generalize (seq 0 (Z.to_nat (to_uint32 arr_n))). intros idxs.
    assert (Hv3 : forall p, bpe_ranks v3 !! p <> Some (-1)%Z) by (by rewrite Er3).
    clear -Hv3. revert v3 Hv3. induction idxs as [|i idxs IH]; intros v3 Hv3 H; [discriminate|].
    cbn [load_tokens_loop] in H.
    destruct (load_token _ _ _ i v3) as [[w|w]|] eqn:E; [| | discriminate]; cbn in H.
    + injection H as <-. unfold load_token in E.
      destruct (gguf_get_arr_str _ _ _) as [[t|]|]; [| | discriminate]; cbn in E.
      * destruct (_ && _); [|discriminate].
        destruct (gguf_get_arr_data _ _) as [score_data|]; [|discriminate].
        cbn [mbind option_bind] in E. destruct (score_data !! i); discriminate.
      * by injection E as <-.
    + apply (IH w); [|exact H]. apply load_token_ranks in E. by rewrite E.
  - cbn [mbind option_bind] in H.
    apply load_tokens_loop_ranks in E4.
    destruct (load_special_token ctx "tokenizer.ggml.bos_token_id" _) as [bos|];
      [|discriminate]. cbn [mbind option_bind] in H.
    destruct (load_special_token ctx "tokenizer.ggml.eos_token_id" _) as [eos|];
      [|discriminate]. cbn [mbind option_bind] in H.
    destruct (load_special_token ctx "tokenizer.ggml.unk_token_id" _) as [unk|];
      [|discriminate]. cbn [mbind option_bind] in H.
    destruct (load_pad_token ctx _) as [v5|] eqn:E5; [|discriminate].
    injection H as <- <-. apply load_pad_token_ranks in E5.
    cbn [set_unk_token_id set_eos_token_id set_bos_token_id bpe_ranks] in E5.
    intros p. rewrite E5, E4, Er3. apply Hv1.
Qed.


(** ** The pre-tokens cover the text *)

Lemma regex_matches_loop_cover (fuel : nat) (rest : list ascii) :
  length rest <= fuel ->
  concat (regex_matches_loop fuel rest) = rest
  /\ Forall (fun m => 0 < length m) (regex_matches_loop fuel rest).
Proof.
  revert rest. induction fuel as [|fuel IH]; intros rest Hfuel.
  - destruct rest; [by split | simpl in Hfuel; lia].
  - destruct rest as [|c tl]; [by split|].
    cbn [regex_matches_loop].
    destruct (first_match_some c tl) as [len Hm]. rewrite Hm.
    pose proof (first_match_spec _ _ Hm) as ([Hpos Hle] & _).
    destruct (IH (drop len (c :: tl))) as [Hc Hall].
    { rewrite length_drop. simpl in *. lia. }
    split.
    + cbn [concat]. rewrite Hc. apply take_drop.
    + constructor; [|exact Hall]. rewrite length_take. lia.
Qed.

Lemma foldl_length_concat (ms : list (list ascii)) (pos : nat) :
  foldl (fun pos m => pos + length m) pos ms = pos + length (concat ms).
Proof.
  revert pos. induction ms as [|m ms IH]; intros pos; cbn; [lia|].
  rewrite IH, length_app. lia.
Qed.

Lemma filter_all {A} (P : A -> Prop) `{forall x, Decision (P x)} (l : list A) :
  Forall P l -> filter P l = l.
Proof.
  induction 1 as [|x l Hx _ IH]; [done|].
  rewrite filter_cons, decide_True by done. by rewrite IH.
Qed.

(** On every non-empty text the pre-tokens are the matches of the
    pattern, in order, and their concatenation is the text: the pattern
    leaves no byte unmatched, so the two per-codepoint fallbacks of
    [bpe_pre_tokenize_gpt2] never contribute. *)
Lemma bpe_pre_tokenize_gpt2_cover (text : list ascii) :
  bpe_pre_tokenize_gpt2 text = regex_matches text
  /\ concat (bpe_pre_tokenize_gpt2 text) = text.
Proof.
  destruct (regex_matches_loop_cover (length text) text ltac:(lia)) as [Hc Hall].
  fold (regex_matches text) in Hc, Hall.
  assert (H : bpe_pre_tokenize_gpt2 text = regex_matches text).
  { unfold bpe_pre_tokenize_gpt2.
    destruct text as [|c tl]; [reflexivity|].
    rewrite bool_decide_eq_false_2 by discriminate. cbn [negb]. rewrite andb_true_r.
    rewrite foldl_length_concat, Hc, (filter_all _ _ Hall).
    cbn [Nat.add]. rewrite Nat.ltb_irrefl.
    rewrite bool_decide_eq_false_2; [reflexivity|].
    intros E. rewrite E in Hc. discriminate. }
  split; [exact H | by rewrite H].
Qed.


(** ** The loader returns *)

(** The token loop runs to its end when no entry of the array is a null
    pointer and no score is read. *)
Lemma load_tokens_loop_returns (ctx : gguf_context) (tokens_idx : Z)
    (l : list (list ascii)) (idxs : list nat) (v : SanaVocab) :
  gguf_value_at ctx tokens_idx = Some (gguf_strings (Some <$> l)) ->
  (forall i, i ∈ idxs -> i < length l) ->
  exists v', load_tokens_loop ctx tokens_idx (-1) idxs v = Some (inr v').
Proof.
  intros Ha. revert v. induction idxs as [|i idxs IH]; intros v Hidxs.
  - by eexists.
  - cbn [load_tokens_loop]. unfold load_token at 1, gguf_get_arr_str. rewrite Ha.
    destruct (lookup_lt_is_Some_2 l i) as [t Ht].
    { apply Hidxs. apply list_elem_of_here. }
    rewrite list_lookup_fmap, Ht.
    cbn [fmap option_fmap option_map mbind option_bind]. rewrite Z.eqb_refl.
    cbn [negb andb].
    apply IH. intros j Hj. apply Hidxs. by apply list_elem_of_further.
Qed.

(** A store that holds a token array without null entries, and none of the
    optional keys, loads: [load_from_gguf] returns [true]. *)
Lemma load_from_gguf_returns (ctx : gguf_context) (v : SanaVocab)
    (l : list (list ascii)) :
  gguf_value_at ctx (gguf_find_key ctx "tokenizer.ggml.tokens")
    = Some (gguf_strings (Some <$> l)) ->
  (Z.of_nat (length l) < 2 ^ 32)%Z ->
  gguf_find_key ctx "tokenizer.ggml.model" = (-1)%Z ->
  gguf_find_key ctx "tokenizer.ggml.scores" = (-1)%Z ->
  gguf_find_key ctx "tokenizer.ggml.bos_token_id" = (-1)%Z ->
  gguf_find_key ctx "tokenizer.ggml.eos_token_id" = (-1)%Z ->
  gguf_find_key ctx "tokenizer.ggml.unk_token_id" = (-1)%Z ->
  gguf_find_key ctx "tokenizer.ggml.padding_token_id" = (-1)%Z ->
  gguf_find_key ctx "tokenizer.ggml.pad_token_id" = (-1)%Z ->
  exists v', load_from_gguf ctx v = Some (true, v').
Proof.
  intros Ha Hlen Hmodel Hscores Hbos Heos Hunk Hpadding Hpad.
  unfold load_from_gguf. cbv zeta.
  destruct (gguf_find_key ctx "tokenizer.ggml.tokens" =? -1)%Z eqn:E.
  { apply Z.eqb_eq in E. rewrite E in Ha. discriminate Ha. }
  assert (Hn : gguf_get_arr_n ctx (gguf_find_key ctx "tokenizer.ggml.tokens")
               = Some (Z.of_nat (length l))).
  { unfold gguf_get_arr_n. rewrite Ha. by rewrite length_fmap. }
  unfold load_model_type. rewrite Hmodel, Z.eqb_refl. cbn [negb mbind option_bind].
  rewrite Hn. cbn [mbind option_bind].
  rewrite Hscores, Z.eqb_refl. cbn [negb andb mbind option_bind].
  rewrite to_uint32_small, Nat2Z.id by lia.
  destruct (load_tokens_loop_returns ctx _ l (seq 0 (length l))
              (set_id_to_token v (resize (length l) [] (id_to_token v))) Ha)
    as [v4 Hv4].
  { intros i Hi. apply elem_of_seq in Hi. lia. }
  rewrite Hv4. cbn [mbind option_bind].
  unfold load_special_token, load_pad_token.
  rewrite Hbos, Heos, Hunk, Hpadding, Hpad, Z.eqb_refl.
  cbn [negb mbind option_bind]. by eexists.
Qed.

(** The store of the duplicate example is of this kind. *)
Example load_from_gguf_returns_aba :
  exists v', load_from_gguf gguf_duplicate_tokens SanaVocab_default = Some (true, v').
Proof.
  apply (load_from_gguf_returns gguf_duplicate_tokens SanaVocab_default
           [str "a"; str "b"; str "a"]); try reflexivity.
Qed.


(** * Further properties of the tokenizer and of the loaders *)

(** ** The lead byte classes of [utf8_len_char] *)

(** The mask tests of [utf8_len_char] as ranges of the lead byte. *)
Lemma lead_byte_masks (a : ascii) :
  (Z.land (uchar a) 224 =? 192)%Z = (192 <=? uchar a)%Z && (uchar a <? 224)%Z
  /\ (Z.land (uchar a) 240 =? 224)%Z = (224 <=? uchar a)%Z && (uchar a <? 240)%Z
  /\ (Z.land (uchar a) 248 =? 240)%Z = (240 <=? uchar a)%Z && (uchar a <? 248)%Z.
Proof. destruct a as [[] [] [] [] [] [] [] []]; vm_compute; done. Qed.

(** X1: the length returned by [utf8_len_char] is decided by the lead byte
    and the bound alone: 1 for a byte below 0x80, 2 for 0xC0..0xDF, 3 for
    0xE0..0xEF, 4 for 0xF0..0xF7, each only when the bound allows that many
    bytes, and 0 in every other case (a continuation byte 0x80..0xBF, a
    byte from 0xF8 on, a truncated sequence, or a bound of 0).  The length
    never exceeds the bound. *)
Theorem utf8_len_char_classes (s : list ascii) (max_len : nat) :
  utf8_len_char s max_len <= max_len
  /\ utf8_len_char s max_len =
       if (max_len =? 0) then 0
       else if (uchar (hd zero s) <? 128)%Z then 1
       else if (uchar (hd zero s) <? 192)%Z then 0
       else if (uchar (hd zero s) <? 224)%Z then (if 2 <=? max_len then 2 else 0)
       else if (uchar (hd zero s) <? 240)%Z then (if 3 <=? max_len then 3 else 0)
       else if (uchar (hd zero s) <? 248)%Z then (if 4 <=? max_len then 4 else 0)
       else 0.
Proof.
  split; [apply utf8_len_char_le|].
  unfold utf8_len_char.
  destruct (lead_byte_masks (hd zero s)) as (-> & -> & ->).
  destruct (max_len =? 0); [reflexivity|].
  destruct (Z.ltb_spec (uchar (hd zero s)) 128); [reflexivity|].
  destruct (Z.ltb_spec (uchar (hd zero s)) 192),
    (Z.ltb_spec (uchar (hd zero s)) 224),
    (Z.ltb_spec (uchar (hd zero s)) 240),
    (Z.ltb_spec (uchar (hd zero s)) 248),
    (Z.leb_spec 192 (uchar (hd zero s))),
    (Z.leb_spec 224 (uchar (hd zero s))),
    (Z.leb_spec 240 (uchar (hd zero s)));
    try lia; cbn [andb]; rewrite ?andb_false_r; cbn [andb];
    destruct (2 <=? max_len) eqn:E2, (3 <=? max_len) eqn:E3, (4 <=? max_len) eqn:E4;
    try reflexivity;
    apply Nat.leb_le in E4 || apply Nat.leb_le in E3 || idtac;
    try (apply Nat.leb_gt in E2; lia); try (apply Nat.leb_gt in E3; lia).
Qed.


(** ** An invariant of the symbols through the merge loop *)

Section MergeInvariant.

Variable v : SanaVocab.
Variable text : list ascii.
Variable P : list SanaSpmSymbol.t -> Prop.

(** [P] is kept when a live symbol absorbs its live successor. *)
Hypothesis P_merge : forall symbols bigram sl sr,
  symbols_wf text symbols ->
  chain_wf symbols ->
  (0 <= SanaSpmBigram.left bigram < SanaSpmBigram.right bigram)%Z ->
  symbols !! Z.to_nat (SanaSpmBigram.left bigram) = Some sl ->
  symbols !! Z.to_nat (SanaSpmBigram.right bigram) = Some sr ->
  0 < SanaSpmSymbol.n sl -> 0 < SanaSpmSymbol.n sr ->
  SanaSpmSymbol.next sl = SanaSpmBigram.right bigram ->
  P symbols -> P (spm_merge_symbols symbols bigram).

Lemma spm_merge_step_keeps (symbols : list SanaSpmSymbol.t)
    (work_queue : list SanaSpmBigram.t) (bigram : SanaSpmBigram.t) :
  symbols_wf text symbols ->
  chain_wf symbols ->
  P symbols ->
  (0 <= SanaSpmBigram.left bigram < SanaSpmBigram.right bigram)%Z ->
  (SanaSpmBigram.right bigram < Z.of_nat (length symbols))%Z ->
  candidate_wf v text symbols bigram ->
  (forall b, b ∈ work_queue -> candidate_wf v text symbols b) ->
  let r := spm_merge_step v text symbols work_queue bigram in
  chain_wf r.1
  /\ P r.1
  /\ (forall b, b ∈ r.2 -> candidate_wf v text r.1 b).
Proof.
  intros Hwf Hchain HP Hlr Hr Hcand Hq. unfold spm_merge_step.
  destruct (spm_bigram_rejected symbols bigram) eqn:Hrej; cbn [fst snd]; [done|].
  destruct (candidate_wf_accepted v text symbols bigram Hcand Hrej)
    as (sl & sr & Hsl & Hsr & Hnl & Hnr & Hnext & Hpiece).
  destruct (spm_merge_symbols_wf text symbols bigram Hwf Hlr Hr Hrej) as [Hwf' _].
  pose proof (chain_wf_merge text symbols bigram sl sr Hwf Hchain Hlr Hsl Hsr Hnl Hnr Hnext)
    as Hchain'.
  pose proof (P_merge symbols bigram sl sr Hwf Hchain Hlr Hsl Hsr Hnl Hnr Hnext HP) as HP'.
  assert (Hq' : forall b, b ∈ work_queue ->
                  candidate_wf v text (spm_merge_symbols symbols bigram) b).
  { intros b Hb. by apply (candidate_wf_merge v text symbols bigram b sl sr); [..|apply Hq]. }
  pose proof (spm_merge_symbols_length symbols bigram) as Hlen.
  destruct (spm_merge_symbols_fields text symbols bigram sl sr
              (Z.to_nat (SanaSpmBigram.left bigram)) Hwf Hlr Hsl Hsr)
    as [[Hnone _] | (s0 & sl' & H0 & Hsl' & _ & Hn' & _)]; [congruence|].
  rewrite decide_True in Hn' by reflexivity.
  set (symbols' := spm_merge_symbols symbols bigram) in *.
  set (l := SanaSpmBigram.left bigram) in *.
  rewrite (symbol_at_lookup _ _ _ Hsl').
  pose proof Hwf' as (Hlen' & Hlinks' & _).
  destruct (Hlinks' _ _ Hsl') as [Hp Hn].
  destruct (Hchain' _ _ Hsl' ltac:(lia)) as (_ & _ & Hback).
  rewrite Z2Nat.id in Hp, Hn, Hback by lia.
  split; [exact Hchain'|]. split; [exact HP'|].
  apply try_add_bigram_spm_candidates; [exact Hlen' | lia | exact Hn | |].
  { intros s _ Hs _. rewrite Hsl' in Hs. by injection Hs as <-. }
  apply try_add_bigram_spm_candidates; [exact Hlen' | lia | right; lia | | exact Hq'].
  intros s Hne Hs _. destruct (Hback Hne) as (sp & Hsp & Hnsp).
  rewrite Hsp in Hs. injection Hs as <-. lia.
Qed.

Lemma spm_merge_loop_keeps (fuel : nat) (symbols : list SanaSpmSymbol.t)
    (work_queue : list SanaSpmBigram.t) :
  symbols_wf text symbols ->
  queue_wf (length symbols) work_queue ->
  chain_wf symbols ->
  P symbols ->
  (forall b, b ∈ work_queue -> candidate_wf v text symbols b) ->
  length work_queue + 2 * live_count symbols <= fuel ->
  exists symbols',
    spm_merge_loop fuel v text symbols work_queue = Some symbols'
    /\ symbols_wf text symbols' /\ chain_wf symbols' /\ P symbols'.
Proof.
  revert symbols work_queue.
  induction fuel as [|fuel IH]; intros symbols work_queue Hwf Hq Hchain HP Hcand Hfuel.
  - destruct work_queue; [|simpl in Hfuel; lia]. by exists symbols.
  - cbn [spm_merge_loop].
    destruct (pq_pop work_queue) as [[bigram work_queue']|] eqn:Hpop;
      [|by exists symbols].
    apply pq_pop_length in Hpop as (Hb & Hsub & Hlen).
    destruct (Hq bigram Hb) as [Hlr Hr].
    assert (Hq' : queue_wf (length symbols) work_queue').
    { intros c Hc. apply Hq, Hsub, Hc. }
    pose proof (spm_merge_step_wf v text symbols work_queue' bigram Hwf Hq' Hlr Hr)
      as (Hwf1 & Hlen1 & Hq1 & Hm).
    pose proof (spm_merge_step_keeps symbols work_queue' bigram Hwf Hchain HP
                  Hlr Hr (Hcand bigram Hb) (fun b Hb' => Hcand b (Hsub b Hb')))
      as (Hchain1 & HP1 & Hcand1).
    destruct (spm_merge_step v text symbols work_queue' bigram) as [symbols1 work_queue1].
    cbn [fst snd] in *.
    apply IH; [exact Hwf1 | by rewrite Hlen1 | exact Hchain1 | exact HP1
               | exact Hcand1 | lia].
Qed.

(** The state in which the final walk of [tokenize_spm] starts, for a text
    that has a symbol: [P] holds of it when it holds of the linked
    segmentation. *)
Lemma tokenize_spm_run_keeps :
  (Z.of_nat (length text) < 2 ^ 31)%Z ->
  spm_segment text <> [] ->
  P (spm_link (spm_segment text)) ->
  exists symbols' sym0 output_tokens,
    symbols_wf text symbols' /\ chain_wf symbols' /\ P symbols'
    /\ symbols' !! 0 = Some sym0 /\ 0 < SanaSpmSymbol.n sym0
    /\ spm_emit_loop (length symbols') v text symbols' 0 = Some output_tokens
    /\ (text <> [] -> id_to_score v <> [] ->
        tokenize_spm_run v text = Some output_tokens).
Proof.
  intros Hlen Hseg HP.
  pose proof (spm_link_wf text Hlen Hseg) as Hwf.
  pose proof (spm_link_chain_wf text) as Hchain.
  pose proof (spm_seed_queue_candidates v text Hlen) as Hcand.
  pose proof (spm_seed_queue_wf v text (spm_link (spm_segment text))) as Hq.
  destruct (spm_merge_loop_keeps
              (length (spm_seed_queue v text (spm_link (spm_segment text)))
               + 2 * length (spm_link (spm_segment text)))
              (spm_link (spm_segment text)) _ Hwf Hq Hchain HP Hcand)
    as (symbols' & Hloop & Hwf' & Hchain' & HP').
  { pose proof (live_count_le (spm_link (spm_segment text))). lia. }
  pose proof Hwf' as (_ & Hlinks & sym0 & H0 & Hn0 & _).
  pose proof (lookup_lt_Some _ _ _ H0) as Hpos.
  destruct (spm_emit_loop_total v text symbols' (length symbols') 0 Hlinks Hpos ltac:(lia))
    as (sym & out & _ & Hout).
  change (Z.of_nat 0) with 0%Z in Hout.
  exists symbols', sym0, (spm_emit_symbol v text sym ++ out).
  split; [exact Hwf'|]. split; [exact Hchain'|]. split; [exact HP'|].
  split; [exact H0|]. split; [exact Hn0|]. split; [exact Hout|].
  intros Hne Hscores. unfold tokenize_spm_run.
  rewrite (bool_decide_eq_false_2 _ Hne), (bool_decide_eq_false_2 _ Hscores). cbn [orb].
  rewrite (bool_decide_eq_false_2 _ Hseg). cbv zeta.
  rewrite Hloop. exact Hout.
Qed.

End MergeInvariant.


(** ** No more ids than bytes *)

Lemma push_unk_length (v : SanaVocab) : length (push_unk v) <= 1.
Proof. unfold push_unk. destruct (_ =? _)%Z; simpl; lia. Qed.

Lemma lookup_codepoints_loop_length (v : SanaVocab) (fuel : nat) (rest : list ascii) :
  length (lookup_codepoints_loop v fuel rest) <= length rest.
Proof.
  revert rest. induction fuel as [|fuel IH]; intros rest; [simpl; lia|].
  destruct rest as [|c tl]; [simpl; lia|].
  cbn [lookup_codepoints_loop]. cbv zeta.
  pose proof (utf8_len_char_le (c :: tl) (length (c :: tl))) as Hle.
  pose proof (push_unk_length v) as Hunk.
  destruct (Nat.eqb_spec (utf8_len_char (c :: tl) (length (c :: tl))) 0) as [E|E].
  - rewrite length_app. specialize (IH (drop 1 (c :: tl))).
    rewrite length_drop in IH. simpl in *. lia.
  - rewrite length_app.
    specialize (IH (drop (utf8_len_char (c :: tl) (length (c :: tl))) (c :: tl))).
    rewrite length_drop in IH.
    assert (length match token_to_id v !! take (utf8_len_char (c :: tl) (length (c :: tl)))
                                               (c :: tl) with
                   | Some id => [id] | None => push_unk v end <= 1)
      by (destruct (token_to_id v !! _); simpl; lia).
    lia.
Qed.

Lemma spm_emit_symbol_length (v : SanaVocab) (text : list ascii) (sym : SanaSpmSymbol.t) :
  length (spm_emit_symbol v text sym) <= SanaSpmSymbol.n sym.
Proof.
  unfold spm_emit_symbol.
  destruct (Nat.ltb_spec 0 (SanaSpmSymbol.n sym)) as [Hn|Hn]; [|simpl; lia].
  destruct (token_to_id v !! _); [simpl; lia|].
  etransitivity; [apply lookup_codepoints_loop_length|].
  unfold piece_at. rewrite length_take. lia.
Qed.

(** *** The sum of the symbol lengths *)

Lemma total_n_alter (f : SanaSpmSymbol.t -> SanaSpmSymbol.t)
    (symbols : list SanaSpmSymbol.t) (i : nat) (sym : SanaSpmSymbol.t) :
  symbols !! i = Some sym ->
  total_n (alter f i symbols) + SanaSpmSymbol.n sym
  = total_n symbols + SanaSpmSymbol.n (f sym).
Proof.
  unfold total_n. revert i. induction symbols as [|s symbols IH]; intros i H; [done|].
  destruct i as [|i]; cbn in *.
  - injection H as ->. lia.
  - specialize (IH i H). lia.
Qed.

Lemma total_n_alter_same (f : SanaSpmSymbol.t -> SanaSpmSymbol.t)
    (symbols : list SanaSpmSymbol.t) (i : nat) :
  (forall sym, SanaSpmSymbol.n (f sym) = SanaSpmSymbol.n sym) ->
  total_n (alter f i symbols) = total_n symbols.
Proof.
  intros Hf. unfold total_n. revert i.
  induction symbols as [|s symbols IH]; intros i; [done|].
  destruct i as [|i]; cbn; [by rewrite Hf | by rewrite IH].
Qed.

(** A merge moves the bytes of the right symbol to the left one. *)
Lemma total_n_merge (symbols : list SanaSpmSymbol.t) (bigram : SanaSpmBigram.t)
    (sl sr : SanaSpmSymbol.t) :
  (0 <= SanaSpmBigram.left bigram < SanaSpmBigram.right bigram)%Z ->
  symbols !! Z.to_nat (SanaSpmBigram.left bigram) = Some sl ->
  symbols !! Z.to_nat (SanaSpmBigram.right bigram) = Some sr ->
  total_n (spm_merge_symbols symbols bigram) = total_n symbols.
Proof.
  intros Hlr Hsl Hsr. unfold spm_merge_symbols. cbv zeta.
  rewrite (symbol_at_lookup _ _ _ Hsl), (symbol_at_lookup _ _ _ Hsr).
  set (l := SanaSpmBigram.left bigram) in *. set (r := SanaSpmBigram.right bigram) in *.
  set (symbols1 := set_n symbols l _).
  assert (H1 : total_n symbols1 = total_n symbols + SanaSpmSymbol.n sr).
  { pose proof (total_n_alter
                  (fun sym => SanaSpmSymbol.with_n sym
                                (SanaSpmSymbol.n sl + SanaSpmSymbol.n sr))
                  symbols (Z.to_nat l) sl Hsl) as H.
    cbn in H. subst symbols1. unfold set_n. lia. }
  assert (Hsr1 : symbols1 !! Z.to_nat r = Some sr).
  { subst symbols1. unfold set_n. rewrite list_lookup_alter_ne by lia. exact Hsr. }
  set (symbols2 := set_n symbols1 r 0).
  assert (H2 : total_n symbols2 = total_n symbols).
  { pose proof (total_n_alter (fun sym => SanaSpmSymbol.with_n sym 0)
                  symbols1 (Z.to_nat r) sr Hsr1) as H.
    cbn in H. subst symbols2. unfold set_n. lia. }
  set (symbols3 := set_next symbols2 l _).
  assert (H3 : total_n symbols3 = total_n symbols).
  { subst symbols3. unfold set_next. by rewrite total_n_alter_same. }
  destruct (_ && _); [|exact H3].
  unfold set_prev. by rewrite total_n_alter_same.
Qed.

Lemma total_n_drop_le (symbols : list SanaSpmSymbol.t) (i j : nat) :
  i <= j -> total_n (drop j symbols) <= total_n (drop i symbols).
Proof.
  unfold total_n. revert i j. induction symbols as [|s symbols IH]; intros i j H.
  - by rewrite !drop_nil.
  - destruct j as [|j]; [by replace i with 0 by lia|].
    destruct i as [|i]; cbn.
    + specialize (IH 0 j ltac:(lia)). rewrite drop_0 in IH. lia.
    + apply IH. lia.
Qed.

Lemma total_n_drop_lookup (symbols : list SanaSpmSymbol.t) (i : nat)
    (sym : SanaSpmSymbol.t) :
  symbols !! i = Some sym ->
  total_n (drop i symbols) = SanaSpmSymbol.n sym + total_n (drop (S i) symbols).
Proof. intros H. by rewrite (drop_S _ _ _ H). Qed.

(** The final walk emits at most as many ids as the symbols it visits
    have bytes. *)
Lemma spm_emit_loop_length (v : SanaVocab) (text : list ascii)
    (symbols : list SanaSpmSymbol.t) (fuel i : nat) (output_tokens : list Z) :
  (forall j sym, symbols !! j = Some sym -> links_ordered (length symbols) j sym) ->
  spm_emit_loop fuel v text symbols (Z.of_nat i) = Some output_tokens ->
  length output_tokens <= total_n (drop i symbols).
Proof.
  intros Hlinks. revert i output_tokens.
  induction fuel as [|fuel IH]; intros i out H.
  - cbn in H. destruct (Z.eqb_spec (Z.of_nat i) (-1)); [lia | discriminate].
  - cbn [spm_emit_loop] in H.
    destruct (Z.eqb_spec (Z.of_nat i) (-1)); [lia|].
    destruct (Z.ltb_spec (Z.of_nat i) 0); [lia|].
    rewrite Nat2Z.id in H.
    destruct (symbols !! i) as [sym|] eqn:Hi; [|discriminate].
    destruct (spm_emit_loop fuel v text symbols (SanaSpmSymbol.next sym))
      as [out'|] eqn:Hrec; [|discriminate].
    injection H as <-.
    rewrite length_app, (total_n_drop_lookup _ _ _ Hi).
    pose proof (spm_emit_symbol_length v text sym).
    destruct (Hlinks i sym Hi) as [_ [Hn | Hn]].
    + rewrite Hn in Hrec. destruct fuel; cbn in Hrec; injection Hrec as <-; simpl; lia.
    + rewrite <- (Z2Nat.id (SanaSpmSymbol.next sym)) in Hrec by lia.
      apply IH in Hrec.
      pose proof (total_n_drop_le symbols (S i) (Z.to_nat (SanaSpmSymbol.next sym))
                    ltac:(lia)).
      lia.
Qed.

Lemma total_n_app (a b : list SanaSpmSymbol.t) :
  total_n (a ++ b) = total_n a + total_n b.
Proof. unfold total_n. induction a as [|s a IH]; cbn; [done | rewrite IH; lia]. Qed.

Lemma spm_segment_loop_total_n (fuel : nat) (rest : list ascii) (idx : Z) (offs : nat)
    (acc : list SanaSpmSymbol.t) :
  total_n (spm_segment_loop fuel rest idx offs acc) <= total_n acc + length rest.
Proof.
  revert rest idx offs acc. induction fuel as [|fuel IH]; intros rest idx offs acc;
    [simpl; lia|].
  destruct rest as [|c tl]; [simpl; lia|].
  cbn [spm_segment_loop]. cbv zeta.
  pose proof (utf8_len_char_le (c :: tl) (length (c :: tl))) as Hle.
  destruct (Nat.eqb_spec (utf8_len_char (c :: tl) (length (c :: tl))) 0) as [E|E].
  - etransitivity; [apply IH|]. rewrite length_drop. cbn [length]. lia.
  - etransitivity; [apply IH|]. rewrite total_n_app, length_drop.
    set (char_len := utf8_len_char (c :: tl) (length (c :: tl))) in *.
    change (total_n [_]) with (char_len + 0). cbn [length] in *. lia.
Qed.

Lemma total_n_link (symbols : list SanaSpmSymbol.t) :
  total_n (spm_link symbols) = total_n symbols.
Proof.
  unfold total_n. f_equal. apply list_eq. intros i.
  rewrite !list_lookup_fmap. unfold spm_link. rewrite list_lookup_imap.
  by destruct (symbols !! i).
Qed.

Lemma tokenize_spm_length (v : SanaVocab) (text : list ascii) :
  (Z.of_nat (length text) < 2 ^ 31)%Z ->
  length (tokenize_spm v text) <= length text.
Proof.
  intros Hlen. unfold tokenize_spm.
  destruct (decide (text = [])) as [->|Hne]; [cbn; lia|].
  destruct (decide (id_to_score v = [])) as [Hs|Hs].
  { rewrite tokenize_spm_run_no_scores by exact Hs. cbn [default].
    rewrite (bool_decide_eq_false_2 _ Hne). cbn [negb].
    pose proof (push_unk_length v). destruct text; [done | simpl; lia]. }
  destruct (decide (spm_segment text = [])) as [Hseg|Hseg].
  { unfold tokenize_spm_run.
    rewrite (bool_decide_eq_false_2 _ Hne), (bool_decide_eq_false_2 _ Hs). cbn [orb].
    rewrite (bool_decide_eq_true_2 _ Hseg). cbn. lia. }
  destruct (tokenize_spm_run_keeps v text (fun symbols => total_n symbols <= length text))
    as (symbols' & sym0 & out & Hwf & _ & HP & H0 & _ & Hout & Hrun);
    [| exact Hlen | exact Hseg | |].
  { intros symbols bigram sl sr _ _ Hlr Hsl Hsr _ _ _ HP.
    by rewrite (total_n_merge symbols bigram sl sr). }
  { rewrite total_n_link. etransitivity; [apply spm_segment_loop_total_n|].
    unfold total_n. cbn. lia. }
  rewrite (Hrun Hne Hs). cbn [default].
  destruct Hwf as (_ & Hlinks & _).
  change 0%Z with (Z.of_nat 0) in Hout.
  apply spm_emit_loop_length in Hout; [|exact Hlinks].
  rewrite drop_0 in Hout. cbv beta in HP. unfold id. lia.
Qed.


(** *** The pieces of a pre-token *)

(** A merge replaces two adjacent pieces by their concatenation: the
    pieces still spell the same bytes. *)
Lemma bpe_merge_loop_concat (ranks : gmap (list ascii * list ascii) Z) (fuel : nat)
    (sub_tokens sub_tokens' : list (list ascii)) :
  bpe_merge_loop fuel ranks sub_tokens = Some sub_tokens' ->
  concat sub_tokens' = concat sub_tokens.
Proof.
  revert sub_tokens. induction fuel as [|fuel IH]; intros sub_tokens H.
  - cbn in H. destruct (length sub_tokens <=? 1); [by injection H as <- | discriminate].
  - cbn [bpe_merge_loop] in H.
    destruct (length sub_tokens <=? 1); [by injection H as <-|].
    destruct (bpe_scan ranks sub_tokens) as [best_rank merge_idx] eqn:Hscan.
    destruct (Z.eqb_spec best_rank (-1)) as [E|E]; [by injection H as <-|].
    destruct (bpe_scan_index ranks sub_tokens best_rank merge_idx Hscan E)
      as (i & -> & Hi).
    destruct (lookup_lt_is_Some_2 sub_tokens i ltac:(lia)) as [a Ha].
    destruct (lookup_lt_is_Some_2 sub_tokens (i + 1) ltac:(lia)) as [b Hb].
    rewrite (bpe_merge_at_spec sub_tokens i a b Ha Hb) in H.
    apply IH in H. rewrite H.
    assert (Hd : take i sub_tokens ++ a :: b :: drop (i + 2) sub_tokens = sub_tokens).
    { rewrite <- (take_drop i sub_tokens) at 3. f_equal.
      rewrite (drop_S _ _ _ Ha). f_equal.
      replace (S i) with (i + 1) by lia. rewrite (drop_S _ _ _ Hb).
      by replace (S (i + 1)) with (i + 2) by lia. }
    transitivity (concat (take i sub_tokens ++ a :: b :: drop (i + 2) sub_tokens));
      [|by rewrite Hd].
    rewrite !concat_app. cbn [concat]. by rewrite <- app_assoc.
Qed.

Lemma bpe_merge_loop_pieces (ranks : gmap (list ascii * list ascii) Z) (fuel : nat)
    (sub_tokens sub_tokens' : list (list ascii)) :
  length sub_tokens <= fuel ->
  sub_tokens <> [] ->
  Forall (fun st => st <> []) sub_tokens ->
  bpe_merge_loop fuel ranks sub_tokens = Some sub_tokens' ->
  Forall (fun st => st <> []) sub_tokens'.
Proof.
  intros Hfuel Hne Hall H.
  destruct (bpe_merge_loop_total ranks fuel sub_tokens Hfuel Hne Hall)
    as (st & Hst & _ & Hall').
  congruence.
Qed.

Lemma bpe_emit_piece_length (v : SanaVocab) (st : list ascii) :
  st <> [] -> length (bpe_emit_piece v st) <= length st.
Proof.
  intros Hne. unfold bpe_emit_piece.
  destruct (token_to_id v !! st); [destruct st; [done | simpl; lia]|].
  apply lookup_codepoints_loop_length.
Qed.

Lemma bpe_emit_pieces_length (v : SanaVocab) (sub_tokens : list (list ascii)) :
  Forall (fun st => st <> []) sub_tokens ->
  length (concat (map (bpe_emit_piece v) sub_tokens)) <= length (concat sub_tokens).
Proof.
  induction 1 as [|st sub_tokens Hst _ IH]; [done|].
  cbn [map concat]. rewrite !length_app.
  pose proof (bpe_emit_piece_length v st Hst). lia.
Qed.

Lemma split_codepoints_loop_concat_length (fuel : nat) (rest : list ascii) :
  length (concat (split_codepoints_loop fuel rest)) <= length rest.
Proof.
  revert rest. induction fuel as [|fuel IH]; intros rest; [simpl; lia|].
  destruct rest as [|c tl]; [simpl; lia|].
  cbn [split_codepoints_loop]. cbv zeta.
  destruct (utf8_len_char (c :: tl) (length (c :: tl)) =? 0).
  - etransitivity; [apply IH|]. rewrite length_drop. lia.
  - cbn [concat]. rewrite length_app.
    specialize (IH (drop (utf8_len_char (c :: tl) (length (c :: tl))) (c :: tl))).
    rewrite length_drop in IH. rewrite length_take. lia.
Qed.

Lemma tokenize_bpe_word_length (v : SanaVocab) (word : list ascii) (ids : list Z) :
  tokenize_bpe_word v word = Some ids -> length ids <= length word.
Proof.
  unfold tokenize_bpe_word. intros H.
  destruct (decide (word = [])) as [->|Hne]; [by injection H as <-|].
  rewrite (bool_decide_eq_false_2 _ Hne) in H.
  destruct (token_to_id v !! word).
  { injection H as <-. destruct word; [done | simpl; lia]. }
  destruct (decide (split_codepoints word = [])) as [E|E].
  { rewrite (bool_decide_eq_true_2 _ E) in H. injection H as <-. simpl. lia. }
  rewrite (bool_decide_eq_false_2 _ E) in H.
  destruct (bpe_merge_loop _ _ _) as [sub_tokens'|] eqn:Hloop; [|discriminate].
  injection H as <-.
  pose proof (bpe_merge_loop_pieces _ _ _ _ (Nat.le_refl _) E
                (split_codepoints_all_nonempty word) Hloop) as Hall.
  etransitivity; [by apply bpe_emit_pieces_length|].
  rewrite (bpe_merge_loop_concat _ _ _ _ Hloop).
  apply split_codepoints_loop_concat_length.
Qed.

Lemma tokenize_bpe_words_length (v : SanaVocab) (words : list (list ascii))
    (ids : list Z) :
  tokenize_bpe_words v words = Some ids -> length ids <= length (concat words).
Proof.
  revert ids. induction words as [|word words IH]; intros ids H.
  - by injection H as <-.
  - cbn [tokenize_bpe_words] in H.
    destruct (tokenize_bpe_word v word) as [ids1|] eqn:E1; [|discriminate].
    destruct (tokenize_bpe_words v words) as [ids2|]; [|discriminate].
    injection H as <-. cbn [concat]. rewrite !length_app.
    apply tokenize_bpe_word_length in E1. specialize (IH ids2 eq_refl). lia.
Qed.

Lemma tokenize_bpe_length (v : SanaVocab) (text : list ascii) :
  length (tokenize_bpe v text) <= length text.
Proof.
  unfold tokenize_bpe, tokenize_bpe_run.
  destruct (bool_decide (text = [])); [cbn; lia|].
  destruct (_ && _); [apply lookup_codepoints_loop_length|].
  destruct (tokenize_bpe_words v _) as [ids|] eqn:E; [|cbn; lia].
  apply tokenize_bpe_words_length in E.
  destruct (bpe_pre_tokenize_gpt2_cover text) as [_ Hc]. rewrite Hc in E. exact E.
Qed.

(** X2: the tokenizer never emits more ids than the text has bytes, plus
    one for each of the begin and end ids asked for; this holds for both
    tokenizer types, every store and every text shorter than 2^31 bytes,
    well formed or not. *)
Theorem tokenize_length_bound (v : SanaVocab) (text : list ascii)
    (add_bos add_eos : bool) :
  (Z.of_nat (length text) < 2 ^ 31)%Z ->
  length (tokenize v text add_bos add_eos)
  <= (if add_bos then 1 else 0) + length text + (if add_eos then 1 else 0).
Proof.
  intros Hlen. unfold tokenize.
  assert (H : length match type v with
                     | SPM => tokenize_spm v text
                     | BPE => tokenize_bpe v text
                     end <= length text).
  { destruct (type v); [by apply tokenize_spm_length | apply tokenize_bpe_length]. }
  destruct add_bos, add_eos, (special_in_range v (bos_token_id v)),
    (special_in_range v (eos_token_id v)); cbn [andb];
    rewrite ?length_app; cbn [length app]; lia.
Qed.

Lemma tokenize_length_bound_witness :
  length (tokenize vocab_tie (str "abcd") true true) <= 1 + length (str "abcd") + 1.
Proof.
  apply (tokenize_length_bound vocab_tie (str "abcd") true true).
  vm_compute. reflexivity.
Defined.


(** ** Where the emitted ids come from *)

Lemma push_unk_emitted (v : SanaVocab) (id : Z) :
  id ∈ push_unk v -> emitted_id v id.
Proof.
  unfold push_unk. destruct (Z.eqb_spec (unk_token_id v) (-1)) as [E|E].
  - intros H. by apply elem_of_nil in H.
  - intros H. apply list_elem_of_singleton in H as ->. by left.
Qed.

Lemma lookup_codepoints_loop_emitted (v : SanaVocab) (fuel : nat) (rest : list ascii)
    (id : Z) :
  id ∈ lookup_codepoints_loop v fuel rest -> emitted_id v id.
Proof.
  revert rest. induction fuel as [|fuel IH]; intros rest H.
  - by apply elem_of_nil in H.
  - destruct rest as [|c tl]; [by apply elem_of_nil in H|].
    cbn [lookup_codepoints_loop] in H. cbv zeta in H.
    destruct (Nat.eqb_spec (utf8_len_char (c :: tl) (length (c :: tl))) 0) as [E|E].
    + apply elem_of_app in H as [H | H]; [by apply push_unk_emitted | by apply IH in H].
    + apply elem_of_app in H as [H | H]; [|by apply IH in H].
      destruct (token_to_id v !! _) as [id'|] eqn:Hl; [|by apply push_unk_emitted].
      apply list_elem_of_singleton in H as ->. right. eexists. exact Hl.
Qed.

Lemma spm_emit_symbol_emitted (v : SanaVocab) (text : list ascii)
    (sym : SanaSpmSymbol.t) (id : Z) :
  id ∈ spm_emit_symbol v text sym -> emitted_id v id.
Proof.
  unfold spm_emit_symbol. destruct (0 <? SanaSpmSymbol.n sym);
    [|intros H; by apply elem_of_nil in H].
  destruct (token_to_id v !! _) as [id'|] eqn:Hl.
  - intros H. apply list_elem_of_singleton in H as ->. right. eexists. exact Hl.
  - apply lookup_codepoints_loop_emitted.
Qed.

Lemma spm_emit_loop_emitted (v : SanaVocab) (text : list ascii)
    (symbols : list SanaSpmSymbol.t) (fuel : nat) (i : Z) (output_tokens : list Z)
    (id : Z) :
  spm_emit_loop fuel v text symbols i = Some output_tokens ->
  id ∈ output_tokens -> emitted_id v id.
Proof.
  revert i output_tokens. induction fuel as [|fuel IH]; intros i out H Hid.
  - cbn in H. destruct (i =? -1)%Z; [|discriminate].
    injection H as <-. by apply elem_of_nil in Hid.
  - cbn [spm_emit_loop] in H.
    destruct (i =? -1)%Z; [injection H as <-; by apply elem_of_nil in Hid|].
    destruct (i <? 0)%Z; [discriminate|].
    destruct (symbols !! Z.to_nat i) as [sym|]; [|discriminate].
    destruct (spm_emit_loop fuel v text symbols (SanaSpmSymbol.next sym))
      as [out'|] eqn:Hrec; [|discriminate].
    injection H as <-. apply elem_of_app in Hid as [Hid | Hid].
    + by apply spm_emit_symbol_emitted in Hid.
    + by apply (IH _ _ Hrec).
Qed.

Lemma tokenize_spm_emitted (v : SanaVocab) (text : list ascii) (id : Z) :
  id ∈ tokenize_spm v text -> emitted_id v id.
Proof.
  unfold tokenize_spm, tokenize_spm_run.
  destruct (_ || _).
  { cbn [default]. destruct (negb _); [apply push_unk_emitted|].
    intros H. by apply elem_of_nil in H. }
  destruct (bool_decide _); [intros H; by apply elem_of_nil in H|].
  cbv zeta. destruct (spm_merge_loop _ _ _ _ _) as [symbols'|];
    [|intros H; by apply elem_of_nil in H].
  destruct (spm_emit_loop _ _ _ _ _) as [out|] eqn:E;
    [|intros H; by apply elem_of_nil in H].
  cbn [default]. by apply (spm_emit_loop_emitted v text symbols' _ _ _ _ E).
Qed.

Lemma bpe_emit_pieces_emitted (v : SanaVocab) (sub_tokens : list (list ascii)) (id : Z) :
  id ∈ concat (map (bpe_emit_piece v) sub_tokens) -> emitted_id v id.
Proof.
  induction sub_tokens as [|st sub_tokens IH]; [intros H; by apply elem_of_nil in H|].
  cbn [map concat]. intros H. apply elem_of_app in H as [H | H]; [|by apply IH].
  unfold bpe_emit_piece in H. destruct (token_to_id v !! st) eqn:Hl.
  - apply list_elem_of_singleton in H as ->. right. eexists. exact Hl.
  - by apply lookup_codepoints_loop_emitted in H.
Qed.

Lemma tokenize_bpe_word_emitted (v : SanaVocab) (word : list ascii) (ids : list Z)
    (id : Z) :
  tokenize_bpe_word v word = Some ids -> id ∈ ids -> emitted_id v id.
Proof.
  unfold tokenize_bpe_word. intros H Hid.
  destruct (bool_decide (word = [])); [injection H as <-; by apply elem_of_nil in Hid|].
  destruct (token_to_id v !! word) eqn:Hl.
  { injection H as <-. apply list_elem_of_singleton in Hid as ->. right. eexists. exact Hl. }
  destruct (bool_decide _); [injection H as <-; by apply elem_of_nil in Hid|].
  destruct (bpe_merge_loop _ _ _) as [sub_tokens'|]; [|discriminate].
  injection H as <-. by apply bpe_emit_pieces_emitted in Hid.
Qed.

Lemma tokenize_bpe_words_emitted (v : SanaVocab) (words : list (list ascii))
    (ids : list Z) (id : Z) :
  tokenize_bpe_words v words = Some ids -> id ∈ ids -> emitted_id v id.
Proof.
  revert ids. induction words as [|word words IH]; intros ids H Hid.
  - injection H as <-. by apply elem_of_nil in Hid.
  - cbn [tokenize_bpe_words] in H.
    destruct (tokenize_bpe_word v word) as [ids1|] eqn:E1; [|discriminate].
    destruct (tokenize_bpe_words v words) as [ids2|]; [|discriminate].
    injection H as <-. apply elem_of_app in Hid as [Hid | Hid].
    + by apply (tokenize_bpe_word_emitted v word ids1).
    + by apply (IH ids2).
Qed.

Lemma tokenize_bpe_emitted (v : SanaVocab) (text : list ascii) (id : Z) :
  id ∈ tokenize_bpe v text -> emitted_id v id.
Proof.
  unfold tokenize_bpe, tokenize_bpe_run.
  destruct (bool_decide _); [intros H; by apply elem_of_nil in H|].
  destruct (_ && _); [apply lookup_codepoints_loop_emitted|].
  destruct (tokenize_bpe_words v _) as [ids|] eqn:E;
    [|intros H; by apply elem_of_nil in H].
  cbn [default]. by apply (tokenize_bpe_words_emitted v _ ids id E).
Qed.

(** The ids of [tokenize]: the begin and end ids where asked for and in
    range, and between them ids that come from the vocabulary. *)
Lemma tokenize_emitted (v : SanaVocab) (text : list ascii) (add_bos add_eos : bool)
    (id : Z) :
  id ∈ tokenize v text add_bos add_eos ->
  (add_bos = true /\ id = bos_token_id v /\ special_in_range v (bos_token_id v) = true)
  \/ (add_eos = true /\ id = eos_token_id v /\ special_in_range v (eos_token_id v) = true)
  \/ emitted_id v id.
Proof.
  unfold tokenize. intros H.
  assert (Hmid : id ∈ match type v with
                      | SPM => tokenize_spm v text
                      | BPE => tokenize_bpe v text
                      end -> emitted_id v id).
  { destruct (type v); [apply tokenize_spm_emitted | apply tokenize_bpe_emitted]. }
  assert (Hpre : id ∈ (if add_bos && special_in_range v (bos_token_id v)
                       then [bos_token_id v] else [])
                   ++ match type v with
                      | SPM => tokenize_spm v text
                      | BPE => tokenize_bpe v text
                      end ->
                 (add_bos = true /\ id = bos_token_id v
                  /\ special_in_range v (bos_token_id v) = true)
                 \/ emitted_id v id).
  { intros H'. apply elem_of_app in H' as [H' | H']; [|right; by apply Hmid].
    destruct add_bos, (special_in_range v (bos_token_id v)); cbn in H';
      try (by apply elem_of_nil in H').
    apply list_elem_of_singleton in H' as ->. by left. }
  destruct add_eos, (special_in_range v (eos_token_id v)); cbn [andb] in H.
  - apply elem_of_app in H as [H | H].
    + destruct (Hpre H) as [?|?]; [by left | by right; right].
    + apply list_elem_of_singleton in H as ->. right; left. done.
  - destruct (Hpre H) as [?|?]; [by left | by right; right].
  - destruct (Hpre H) as [?|?]; [by left | by right; right].
  - destruct (Hpre H) as [?|?]; [by left | by right; right].
Qed.


(** ** Emitted ids of a loaded store *)

(** In a store loaded into an empty map, every value of [token_to_id] is
    the index of its key in [id_to_token]. *)
Lemma load_from_gguf_lookup (ctx : gguf_context) (v v' : SanaVocab)
    (a : list (option (list ascii))) (piece : list ascii) (id : Z) :
  token_to_id v = ∅ ->
  gguf_value_at ctx (gguf_find_key ctx "tokenizer.ggml.tokens") = Some (gguf_strings a) ->
  (Z.of_nat (length a) <= 2 ^ 31)%Z ->
  load_from_gguf ctx v = Some (true, v') ->
  token_to_id v' !! piece = Some id ->
  (0 <= id)%Z /\ id_to_token v' !! Z.to_nat id = Some piece.
Proof.
  intros Hempty Ha Hlen H Hid.
  destruct (load_from_gguf_loaded ctx v v' a Ha Hlen H) as (Hn & Hids & Hmap).
  destruct (Hmap piece) as [(j & Hj & Haj & _ & Hlook) | [_ Hlook]].
  - rewrite Hlook in Hid. injection Hid as <-.
    rewrite to_int32_small by lia. rewrite Nat2Z.id. split; [lia|].
    destruct (Hids j Hj) as (t & Haj' & Ht). congruence.
  - rewrite Hlook, Hempty in Hid. by rewrite lookup_empty in Hid.
Qed.

(** X3: after a successful load into a fresh store, every id that
    [tokenize] emits is the begin or end id (asked for, and within the token
    array), the unknown id (set, but not checked against the array), or
    the index of a token: the token array holds a string at that index,
    and that string is looked up as this id. *)
Theorem tokenize_ids_of_loaded_store (ctx : gguf_context) (v0 v : SanaVocab)
    (a : list (option (list ascii))) (text : list ascii) (add_bos add_eos : bool)
    (id : Z) :
  token_to_id v0 = ∅ ->
  gguf_value_at ctx (gguf_find_key ctx "tokenizer.ggml.tokens") = Some (gguf_strings a) ->
  (Z.of_nat (length a) <= 2 ^ 31)%Z ->
  load_from_gguf ctx v0 = Some (true, v) ->
  id ∈ tokenize v text add_bos add_eos ->
  (add_bos = true /\ id = bos_token_id v /\ id <> (-1)%Z
   /\ (to_uint32 id < Z.of_nat (length (id_to_token v)))%Z)
  \/ (add_eos = true /\ id = eos_token_id v /\ id <> (-1)%Z
      /\ (to_uint32 id < Z.of_nat (length (id_to_token v)))%Z)
  \/ (id = unk_token_id v /\ unk_token_id v <> (-1)%Z)
  \/ ((0 <= id)%Z
      /\ exists piece, id_to_token v !! Z.to_nat id = Some piece
                       /\ token_to_id v !! piece = Some id).
Proof.
  intros Hempty Ha Hlen Hload Hid.
  apply tokenize_emitted in Hid
    as [(Hb & -> & Hr) | [(He & -> & Hr) | [Hunk | [piece Hpiece]]]].
  - left. unfold special_in_range in Hr. apply andb_true_iff in Hr as [H1 H2].
    apply negb_true_iff, Z.eqb_neq in H1. apply Z.ltb_lt in H2. done.
  - right; left. unfold special_in_range in Hr. apply andb_true_iff in Hr as [H1 H2].
    apply negb_true_iff, Z.eqb_neq in H1. apply Z.ltb_lt in H2. done.
  - right; right; left. exact Hunk.
  - right; right; right.
    destruct (load_from_gguf_lookup ctx v0 v a piece id Hempty Ha Hlen Hload Hpiece)
      as [Hpos Hback].
    split; [exact Hpos|]. by exists piece.
Qed.

Lemma tokenize_ids_of_loaded_store_witness :
  3%Z ∈ tokenize (load_fresh gguf_bpe_small) (str "ab") false false
  /\ exists piece, id_to_token (load_fresh gguf_bpe_small) !! 3 = Some piece
                   /\ token_to_id (load_fresh gguf_bpe_small) !! piece = Some 3%Z.
Proof.
  assert (Hin : 3%Z ∈ tokenize (load_fresh gguf_bpe_small) (str "ab") false false).
  { vm_compute. apply list_elem_of_here. }
  split; [exact Hin|].
  destruct (tokenize_ids_of_loaded_store gguf_bpe_small SanaVocab_default
              (load_fresh gguf_bpe_small)
              [Some (str "<unk>"); Some (str "a"); Some (str "b"); Some (str "ab")]
              (str "ab") false false 3%Z)
    as [(Hb & _) | [(He & _) | [[Hunk _] | [_ H]]]].
  - reflexivity.
  - reflexivity.
  - vm_compute. discriminate.
  - vm_compute. reflexivity.
  - exact Hin.
  - discriminate Hb.
  - discriminate He.
  - vm_compute in Hunk. discriminate Hunk.
  - exact H.
Defined.


(** ** Texts made of whole codepoints *)

Lemma split_codepoints_loop_single (fuel : nat) (rest cp : list ascii) :
  cp ∈ split_codepoints_loop fuel rest -> single_codepoint cp.
Proof.
  revert rest. induction fuel as [|fuel IH]; intros rest H; [by apply elem_of_nil in H|].
  destruct rest as [|c tl]; [by apply elem_of_nil in H|].
  cbn [split_codepoints_loop] in H. cbv zeta in H.
  pose proof (utf8_len_char_le (c :: tl) (length (c :: tl))) as Hle.
  destruct (Nat.eqb_spec (utf8_len_char (c :: tl) (length (c :: tl))) 0) as [E|E];
    [by apply IH in H|].
  apply elem_of_cons in H as [-> | H]; [|by apply IH in H].
  set (L := utf8_len_char (c :: tl) (length (c :: tl))) in *.
  assert (Hlen : length (take L (c :: tl)) = L) by (rewrite length_take; lia).
  split.
  - intros Hnil. rewrite Hnil in Hlen. simpl in Hlen. lia.
  - rewrite Hlen.
    rewrite (utf8_len_char_hd _ (c :: tl)) by (destruct L; [lia | reflexivity]).
    apply (utf8_len_char_fits (c :: tl) (length (c :: tl)) L); fold L; lia.
Qed.

Lemma utf8_len_char_single (cp rest : list ascii) :
  single_codepoint cp ->
  utf8_len_char (cp ++ rest) (length (cp ++ rest)) = length cp.
Proof.
  intros [Hne Hlen].
  rewrite (utf8_len_char_hd _ cp) by (destruct cp; [done | reflexivity]).
  transitivity (utf8_len_char cp (length cp)); [|exact Hlen].
  apply utf8_len_char_fits.
  - rewrite Hlen. destruct cp; [done | simpl; lia].
  - rewrite Hlen, length_app. lia.
Qed.

Lemma split_codepoints_single (cp rest : list ascii) :
  single_codepoint cp ->
  split_codepoints (cp ++ rest) = cp :: split_codepoints rest.
Proof.
  intros Hcp. pose proof (utf8_len_char_single cp rest Hcp) as HL.
  destruct Hcp as [Hne _]. destruct cp as [|c tl]; [done|].
  change ((c :: tl) ++ rest) with (c :: (tl ++ rest)) in *.
  rewrite split_codepoints_cons. cbv zeta. rewrite HL.
  cbn [length Nat.eqb].
  change (c :: tl ++ rest) with ((c :: tl) ++ rest).
  change (S (length tl)) with (length (c :: tl)).
  by rewrite take_app_length, drop_app_length.
Qed.

Lemma split_codepoints_concat (cps : list (list ascii)) :
  Forall single_codepoint cps -> split_codepoints (concat cps) = cps.
Proof.
  induction 1 as [|cp cps Hcp _ IH]; [reflexivity|].
  cbn [concat]. by rewrite split_codepoints_single, IH.
Qed.

Lemma split_codepoints_all_single (text : list ascii) :
  Forall single_codepoint (split_codepoints text).
Proof. apply Forall_forall. intros cp. apply split_codepoints_loop_single. Qed.

Lemma decodable_concat (cps : list (list ascii)) :
  Forall single_codepoint cps -> decodable (concat cps).
Proof. intros H. unfold decodable. by rewrite split_codepoints_concat. Qed.

Lemma decodable_app (a b : list ascii) :
  decodable a -> decodable b -> decodable (a ++ b).
Proof.
  intros Ha Hb. unfold decodable in Ha, Hb. rewrite <- Ha, <- Hb, <- concat_app.
  apply decodable_concat. apply Forall_app. split; apply split_codepoints_all_single.
Qed.

Lemma split_codepoints_concat_app (cps : list (list ascii)) (b : list ascii) :
  Forall single_codepoint cps ->
  split_codepoints (concat cps ++ b) = cps ++ split_codepoints b.
Proof.
  induction 1 as [|cp cps Hcp _ IH]; [reflexivity|].
  cbn [concat]. rewrite <- app_assoc, split_codepoints_single by exact Hcp.
  cbn [app]. by f_equal.
Qed.

Lemma split_codepoints_app (a b : list ascii) :
  decodable a -> split_codepoints (a ++ b) = split_codepoints a ++ split_codepoints b.
Proof.
  intros Ha. unfold decodable in Ha. rewrite <- Ha at 1.
  apply split_codepoints_concat_app, split_codepoints_all_single.
Qed.

Lemma decodable_single (cp : list ascii) : single_codepoint cp -> decodable cp.
Proof.
  intros H. unfold decodable.
  rewrite <- (app_nil_r cp) at 1. rewrite split_codepoints_single by exact H.
  cbn. by rewrite app_nil_r.
Qed.

Lemma decodable_nil : decodable [].
Proof. reflexivity. Qed.

(** On a decodable string the lookup loop maps the codepoints one by one. *)
Lemma lookup_codepoints_single (v : SanaVocab) (cp rest : list ascii) :
  single_codepoint cp ->
  lookup_codepoints v (cp ++ rest) = lookup_or_unk v cp ++ lookup_codepoints v rest.
Proof.
  intros Hcp. pose proof (utf8_len_char_single cp rest Hcp) as HL.
  destruct Hcp as [Hne _]. destruct cp as [|c tl]; [done|].
  change ((c :: tl) ++ rest) with (c :: (tl ++ rest)) in *.
  rewrite lookup_codepoints_cons. cbv zeta. rewrite HL.
  cbn [length Nat.eqb].
  change (c :: tl ++ rest) with ((c :: tl) ++ rest).
  change (S (length tl)) with (length (c :: tl)).
  by rewrite take_app_length, drop_app_length.
Qed.

Lemma lookup_codepoints_concat (v : SanaVocab) (cps : list (list ascii)) :
  Forall single_codepoint cps ->
  lookup_codepoints v (concat cps) = concat (map (lookup_or_unk v) cps).
Proof.
  induction 1 as [|cp cps Hcp _ IH]; [reflexivity|].
  cbn [concat map]. rewrite lookup_codepoints_single by exact Hcp. by f_equal.
Qed.

Lemma lookup_codepoints_decodable (v : SanaVocab) (s : list ascii) :
  decodable s ->
  lookup_codepoints v s = concat (map (lookup_or_unk v) (split_codepoints s)).
Proof.
  intros Hs. unfold decodable in Hs. rewrite <- Hs at 1.
  apply lookup_codepoints_concat, split_codepoints_all_single.
Qed.


(** ** The SPM output as a split of the text *)

Lemma decodable_cons (c : ascii) (tl : list ascii) :
  decodable (c :: tl) ->
  utf8_len_char (c :: tl) (length (c :: tl)) <> 0
  /\ decodable (drop (utf8_len_char (c :: tl) (length (c :: tl))) (c :: tl)).
Proof.
  unfold decodable. rewrite split_codepoints_cons. cbv zeta.
  destruct (Nat.eqb_spec (utf8_len_char (c :: tl) (length (c :: tl))) 0) as [E|E].
  - intros H. apply (f_equal length) in H.
    pose proof (split_codepoints_loop_concat_length (length tl) tl) as Hle.
    fold (split_codepoints tl) in Hle. rewrite H in Hle. simpl in Hle. lia.
  - intros H. split; [exact E|]. cbn [concat] in H.
    apply (app_inv_head (take (utf8_len_char (c :: tl) (length (c :: tl))) (c :: tl))).
    rewrite take_drop. exact H.
Qed.

Lemma laid_out_app (start mid e : nat) (a b : list SanaSpmSymbol.t) :
  laid_out start a mid -> laid_out mid b e -> laid_out start (a ++ b) e.
Proof.
  revert start. induction a as [|s a IH]; intros start Ha Hb; cbn in *.
  - by subst.
  - destruct Ha as (? & ? & Ha). split; [done|]. split; [done|]. by apply IH.
Qed.

Lemma laid_out_lookup (start e : nat) (symbols : list SanaSpmSymbol.t) (i : nat)
    (sym : SanaSpmSymbol.t) :
  laid_out start symbols e ->
  symbols !! i = Some sym ->
  0 < SanaSpmSymbol.n sym
  /\ SanaSpmSymbol.text_ptr sym + SanaSpmSymbol.n sym <= e
  /\ (i = 0 -> SanaSpmSymbol.text_ptr sym = start)
  /\ match symbols !! S i with
     | Some sx => SanaSpmSymbol.text_ptr sx
                  = SanaSpmSymbol.text_ptr sym + SanaSpmSymbol.n sym
     | None => SanaSpmSymbol.text_ptr sym + SanaSpmSymbol.n sym = e
     end.
Proof.
  assert (Hend : forall start symbols, laid_out start symbols e -> start <= e).
  { clear. intros start symbols. revert start.
    induction symbols as [|s symbols IH]; intros start H; cbn in H; [lia|].
    destruct H as (_ & _ & H). apply IH in H. lia. }
  revert start i. induction symbols as [|s symbols IH]; intros start i H Hi; [done|].
  cbn in H. destruct H as (Hp & Hn & H).
  destruct i as [|i]; cbn in Hi.
  - injection Hi as <-. split; [exact Hn|].
    pose proof (Hend _ _ H). split; [lia|]. split; [done|].
    destruct symbols as [|sx symbols]; cbn in *; [lia|]. destruct H as (-> & _). lia.
  - destruct (IH _ _ H Hi) as (H1 & H2 & _ & H4).
    split; [exact H1|]. split; [exact H2|]. split; [lia | exact H4].
Qed.

Lemma spm_segment_loop_laid_out (fuel : nat) (rest : list ascii) (idx : Z) (offs : nat)
    (acc : list SanaSpmSymbol.t) :
  length rest <= fuel ->
  decodable rest ->
  laid_out 0 acc offs ->
  laid_out 0 (spm_segment_loop fuel rest idx offs acc) (offs + length rest).
Proof.
  revert rest idx offs acc. induction fuel as [|fuel IH]; intros rest idx offs acc Hf Hd Hacc.
  - destruct rest; [|simpl in Hf; lia]. cbn. by rewrite Nat.add_0_r.
  - destruct rest as [|c tl]; [cbn; by rewrite Nat.add_0_r|].
    cbn [spm_segment_loop]. cbv zeta.
    destruct (decodable_cons c tl Hd) as [HL Hd'].
    pose proof (utf8_len_char_le (c :: tl) (length (c :: tl))) as Hle.
    set (L := utf8_len_char (c :: tl) (length (c :: tl))) in *.
    destruct (Nat.eqb_spec L 0) as [E|_]; [done|].
    set (sym := SanaSpmSymbol.mk _ _ _ _).
    replace (offs + length (c :: tl)) with ((offs + L) + length (drop L (c :: tl)))
      by (rewrite length_drop; lia).
    apply IH; [rewrite length_drop; cbn [length] in *; lia | exact Hd' |].
    apply (laid_out_app 0 offs); [exact Hacc|].
    subst sym. cbn [laid_out SanaSpmSymbol.text_ptr SanaSpmSymbol.n].
    split; [reflexivity|]. split; [lia | reflexivity].
Qed.

(** The linked segmentation of a decodable text covers it. *)
Lemma spm_link_spans_wf (text : list ascii) :
  decodable text -> spans_wf text (spm_link (spm_segment text)).
Proof.
  intros Hd.
  pose proof (spm_segment_loop_laid_out (length text) text 0 0 [] (Nat.le_refl _) Hd eq_refl)
    as Hlaid.
  fold (spm_segment text) in Hlaid. cbn [Nat.add] in Hlaid.
  split.
  - intros sym0 H0. apply spm_link_lookup_inv in H0 as (s & Hs & ->).
    cbn. by apply (laid_out_lookup 0 (length text) _ 0 s Hlaid Hs).
  - intros i sym' Hi Hn. apply spm_link_lookup_inv in Hi as (s & Hs & ->).
    cbn [SanaSpmSymbol.with_next SanaSpmSymbol.text_ptr SanaSpmSymbol.n
         SanaSpmSymbol.next] in *.
    destruct (laid_out_lookup 0 (length text) _ i s Hlaid Hs) as (_ & Hle & _ & Hnext).
    split.
    { apply decodable_single. apply (split_codepoints_loop_single (length text) text).
      fold (split_codepoints text). rewrite <- spm_segment_pieces.
      apply list_elem_of_fmap. exists s. split; [reflexivity|].
      by apply list_elem_of_lookup_2 in Hs. }
    split; [exact Hle|].
    pose proof (lookup_lt_Some _ _ _ Hs) as Hlt.
    destruct (Nat.ltb_spec i (length (spm_segment text) - 1)) as [Hi|Hi].
    + split; [lia|]. intros _.
      destruct (lookup_lt_is_Some_2 (spm_segment text) (S i) ltac:(lia)) as [sx Hsx].
      rewrite Hsx in Hnext.
      replace (Z.to_nat (Z.of_nat i + 1)) with (S i) by lia.
      rewrite (spm_link_lookup _ _ _ Hsx). eexists. split; [reflexivity|]. exact Hnext.
    + split; [|done]. intros _.
      rewrite lookup_ge_None_2 in Hnext by lia. exact Hnext.
Qed.

Lemma piece_at_app (text : list ascii) (p n m : nat) :
  piece_at text p (n + m) = piece_at text p n ++ piece_at text (p + n) m.
Proof. unfold piece_at. by rewrite <- take_take_drop, drop_drop. Qed.

(** A merge keeps the cover: the left symbol now spans both pieces. *)
Lemma spans_wf_merge (text : list ascii) (symbols : list SanaSpmSymbol.t)
    (bigram : SanaSpmBigram.t) (sl sr : SanaSpmSymbol.t) :
  symbols_wf text symbols ->
  (0 <= SanaSpmBigram.left bigram < SanaSpmBigram.right bigram)%Z ->
  symbols !! Z.to_nat (SanaSpmBigram.left bigram) = Some sl ->
  symbols !! Z.to_nat (SanaSpmBigram.right bigram) = Some sr ->
  0 < SanaSpmSymbol.n sl -> 0 < SanaSpmSymbol.n sr ->
  SanaSpmSymbol.next sl = SanaSpmBigram.right bigram ->
  spans_wf text symbols ->
  spans_wf text (spm_merge_symbols symbols bigram).
Proof.
  intros Hwf Hlr Hsl Hsr Hnl Hnr Hnext [Hfirst Hspans].
  pose proof (spm_merge_symbols_fields text symbols bigram sl sr) as Hf.
  specialize (fun j => Hf j Hwf Hlr Hsl Hsr).
  destruct (Hspans _ _ Hsl Hnl) as (Hdl & Hel & _ & Hxl).
  destruct Hxl as (sr' & Hsr' & Hptr_r); [lia|].
  rewrite Hnext, Hsr in Hsr'. injection Hsr' as <-.
  destruct (Hspans _ _ Hsr Hnr) as (Hdr & Her & Hend_r & Hx_r).
  split.
  - intros sym0 H0.
    destruct (Hf 0) as [[_ Hnone] | (s & s' & Hs & Hs' & Hptr & _)]; [congruence|].
    rewrite H0 in Hs'. injection Hs' as <-. rewrite Hptr. by apply Hfirst.
  - intros j sj' Hj' Hnj'.
    destruct (Hf j) as [[_ Hnone] | (sj & sj'' & Hj & Hj'' & Hptr & Hn & Hnx & _)];
      [congruence|].
    rewrite Hj' in Hj''. injection Hj'' as <-.
    assert (Hsucc : forall x sx, symbols !! Z.to_nat x = Some sx ->
              exists sx', spm_merge_symbols symbols bigram !! Z.to_nat x = Some sx'
                          /\ SanaSpmSymbol.text_ptr sx' = SanaSpmSymbol.text_ptr sx).
    { intros x sx Hx.
      destruct (Hf (Z.to_nat x)) as [[Hnone _] | (s & s' & Hs & Hs' & Hp & _)];
        [congruence|].
      rewrite Hx in Hs. injection Hs as <-. by exists s'. }
    destruct (decide (j = Z.to_nat (SanaSpmBigram.left bigram))) as [->|Hjl].
    + rewrite Hsl in Hj. injection Hj as <-.
      rewrite Hptr, Hn, Hnx.
      split; [rewrite piece_at_app, <- Hptr_r; by apply decodable_app|].
      split; [lia|]. split; [intros E; specialize (Hend_r E); lia|].
      intros E. destruct (Hx_r E) as (sx & Hsx & Hpx).
      destruct (Hsucc _ _ Hsx) as (sx' & Hsx' & Hpx').
      exists sx'. split; [exact Hsx'|]. lia.
    + destruct (decide (j = Z.to_nat (SanaSpmBigram.right bigram))) as [->|Hjr]; [lia|].
      rewrite Hptr, Hn, Hnx. rewrite Hn in Hnj'.
      destruct (Hspans _ _ Hj Hnj') as (Hd & He & Hend & Hx).
      split; [exact Hd|]. split; [exact He|]. split; [exact Hend|].
      intros E. destruct (Hx E) as (sx & Hsx & Hpx).
      destruct (Hsucc _ _ Hsx) as (sx' & Hsx' & Hpx').
      exists sx'. split; [exact Hsx'|]. lia.
Qed.

Lemma spm_emit_symbol_pieces (v : SanaVocab) (text : list ascii) (sym : SanaSpmSymbol.t) :
  0 < SanaSpmSymbol.n sym ->
  SanaSpmSymbol.text_ptr sym + SanaSpmSymbol.n sym <= length text ->
  decodable (piece_at text (SanaSpmSymbol.text_ptr sym) (SanaSpmSymbol.n sym)) ->
  exists pieces,
    concat pieces = piece_at text (SanaSpmSymbol.text_ptr sym) (SanaSpmSymbol.n sym)
    /\ Forall (output_piece v) pieces
    /\ spm_emit_symbol v text sym = concat (map (lookup_or_unk v) pieces).
Proof.
  intros Hn Hle Hd. unfold spm_emit_symbol.
  destruct (Nat.ltb_spec 0 (SanaSpmSymbol.n sym)); [|lia].
  set (piece := piece_at text _ _) in *.
  assert (Hne : piece <> []).
  { intros E. apply (f_equal length) in E. subst piece. unfold piece_at in E.
    rewrite length_take, length_drop in E. simpl in E. lia. }
  destruct (token_to_id v !! piece) as [id|] eqn:Hl.
  - exists [piece]. split; [cbn; by rewrite app_nil_r|].
    split; [constructor; [|constructor]; split; [exact Hne | left; by eexists]|].
    cbn. unfold lookup_or_unk. by rewrite Hl.
  - exists (split_codepoints piece). split; [exact Hd|]. split.
    + eapply Forall_impl; [apply split_codepoints_all_single|].
      intros cp Hcp. split; [apply Hcp | by right].
    + by apply lookup_codepoints_decodable.
Qed.

(** The final walk, from a live symbol on, emits the ids of the pieces
    that make up the rest of the text. *)
Lemma spm_emit_loop_pieces (v : SanaVocab) (text : list ascii)
    (symbols : list SanaSpmSymbol.t) (fuel i : nat) (si : SanaSpmSymbol.t)
    (output_tokens : list Z) :
  chain_wf symbols ->
  spans_wf text symbols ->
  symbols !! i = Some si -> 0 < SanaSpmSymbol.n si ->
  spm_emit_loop fuel v text symbols (Z.of_nat i) = Some output_tokens ->
  exists pieces,
    concat pieces = drop (SanaSpmSymbol.text_ptr si) text
    /\ Forall (output_piece v) pieces
    /\ output_tokens = concat (map (lookup_or_unk v) pieces).
Proof.
  intros Hchain [_ Hspans]. revert i si output_tokens.
  induction fuel as [|fuel IH]; intros i si out Hi Hn H.
  - cbn in H. destruct (Z.eqb_spec (Z.of_nat i) (-1)); [lia | discriminate].
  - cbn [spm_emit_loop] in H.
    destruct (Z.eqb_spec (Z.of_nat i) (-1)); [lia|].
    destruct (Z.ltb_spec (Z.of_nat i) 0); [lia|].
    rewrite Nat2Z.id, Hi in H.
    destruct (spm_emit_loop fuel v text symbols (SanaSpmSymbol.next si))
      as [out'|] eqn:Hrec; [|discriminate].
    injection H as <-.
    destruct (Hspans _ _ Hi Hn) as (Hd & Hle & Hend & Hx).
    destruct (spm_emit_symbol_pieces v text si Hn Hle Hd) as (ps & Hps & Hall & ->).
    destruct (Z.eq_dec (SanaSpmSymbol.next si) (-1)%Z) as [E|E].
    + rewrite E in Hrec.
      assert (out' = []) as -> by (destruct fuel; cbn in Hrec; by injection Hrec as <-).
      exists ps. rewrite app_nil_r. split; [|by split].
      rewrite Hps. unfold piece_at. apply take_ge. rewrite length_drop.
      specialize (Hend E). lia.
    + destruct (Hx E) as (sx & Hsx & Hpx).
      destruct (Hchain _ _ Hi Hn) as (_ & Hlive & _).
      destruct (Hlive E) as (sx' & Hsx' & Hnx). rewrite Hsx in Hsx'. injection Hsx' as <-.
      assert (Hpos : (0 <= SanaSpmSymbol.next si)%Z).
      { destruct (Z.le_gt_cases 0 (SanaSpmSymbol.next si)) as [?|Hneg]; [done|].
        exfalso. destruct fuel; cbn in Hrec.
        - destruct (Z.eqb_spec (SanaSpmSymbol.next si) (-1)); [done | discriminate].
        - destruct (Z.eqb_spec (SanaSpmSymbol.next si) (-1)); [done|].
          destruct (Z.ltb_spec (SanaSpmSymbol.next si) 0); [discriminate | lia]. }
      rewrite <- (Z2Nat.id (SanaSpmSymbol.next si)) in Hrec by exact Hpos.
      destruct (IH _ _ _ Hsx Hnx Hrec) as (ps' & Hps' & Hall' & ->).
      exists (ps ++ ps'). split; [|split].
      * rewrite concat_app, Hps, Hps', Hpx. unfold piece_at.
        rewrite <- drop_drop. apply take_drop.
      * by apply Forall_app.
      * by rewrite map_app, concat_app.
Qed.

(** X4: on a store with scores, the SPM output for a text in which every
    byte belongs to a codepoint is the id sequence of a split of the text:
    there are pieces whose concatenation is the text, each an entry of the
    vocabulary or a single codepoint, and the output holds, in order, the
    id of each piece that is an entry and, for each other piece, the
    unknown id when it is set and nothing when it is not.  No byte of the
    text is lost, repeated or reordered. *)
Theorem tokenize_spm_segmentation (v : SanaVocab) (text : list ascii) :
  (Z.of_nat (length text) < 2 ^ 31)%Z ->
  id_to_score v <> [] ->
  decodable text ->
  exists pieces,
    concat pieces = text
    /\ Forall (output_piece v) pieces
    /\ tokenize_spm v text = concat (map (lookup_or_unk v) pieces).
Proof.
  intros Hlen Hscores Hd.
  destruct (decide (text = [])) as [->|Hne]; [by exists []|].
  assert (Hseg : spm_segment text <> []).
  { intros E. pose proof (spm_segment_pieces text) as Hp. rewrite E in Hp. cbn in Hp.
    unfold decodable in Hd. rewrite <- Hp in Hd. cbn in Hd. congruence. }
  destruct (tokenize_spm_run_keeps v text (spans_wf text))
    as (symbols' & sym0 & out & Hwf & Hchain & Hspans & H0 & Hn0 & Hout & Hrun);
    [| exact Hlen | exact Hseg | by apply spm_link_spans_wf |].
  { intros symbols bigram sl sr Hwf _ Hlr Hsl Hsr Hnl Hnr Hnext HP.
    by apply (spans_wf_merge text symbols bigram sl sr). }
  unfold tokenize_spm. rewrite (Hrun Hne Hscores). cbn [default]. unfold id.
  change 0%Z with (Z.of_nat 0) in Hout.
  destruct (spm_emit_loop_pieces v text symbols' _ 0 sym0 out Hchain Hspans H0 Hn0 Hout)
    as (pieces & Hc & Hall & ->).
  exists pieces. split; [|by split].
  destruct Hspans as [Hfirst _]. rewrite (Hfirst _ H0), drop_0 in Hc. exact Hc.
Qed.

Lemma tokenize_spm_segmentation_witness :
  exists pieces,
    concat pieces = str "abcd"
    /\ Forall (output_piece vocab_tie) pieces
    /\ tokenize_spm vocab_tie (str "abcd")
       = concat (map (lookup_or_unk vocab_tie) pieces).
Proof.
  apply (tokenize_spm_segmentation vocab_tie (str "abcd")).
  - vm_compute. reflexivity.
  - discriminate.
  - vm_compute. reflexivity.
Defined.

(** The split of ["abcd"] on the store of the tie example. *)
Example tokenize_spm_abcd_pieces :
  tokenize_spm vocab_tie (str "abcd")
  = concat (map (lookup_or_unk vocab_tie) [str "ab"; str "cd"]).
Proof. vm_compute. reflexivity. Qed.


(** ** The byte-pair output as a split of the text *)

(** A position of a text that has only bytes below 0x80 before it, or a
    byte below 0x80 (or nothing) after it, lies between two codepoints. *)
Lemma codepoint_boundary (cps : list (list ascii)) (len : nat) :
  Forall (fun cp => cp <> []) cps ->
  Forall (fun cp => length cp = 1 \/ Forall (fun b => (128 <= uchar b)%Z) cp) cps ->
  len <= length (concat cps) ->
  (Forall (fun c => (uchar c < 128)%Z) (take len (concat cps))
   \/ forall d, concat cps !! len = Some d -> (uchar d < 128)%Z) ->
  exists k, take len (concat cps) = concat (take k cps)
            /\ drop len (concat cps) = concat (drop k cps).
Proof.
  revert len. induction cps as [|cp cps IH]; intros len Hne Hhigh Hlen Hcond.
  - exists 0. cbn in *. by rewrite take_nil, drop_nil.
  - apply Forall_cons in Hne as [Hcp Hne]. apply Forall_cons in Hhigh as [Hcph Hhigh].
    cbn [concat] in *.
    destruct (decide (len = 0)) as [->|Hpos]; [by exists 0|].
    destruct (decide (length cp <= len)) as [Hge|Hlt].
    + destruct (IH (len - length cp) Hne Hhigh) as (k & Hk1 & Hk2).
      { rewrite length_app in Hlen. lia. }
      { destruct Hcond as [H | H].
        - left. rewrite take_app_ge in H by exact Hge. by apply Forall_app in H as [_ H].
        - right. intros d Hd. apply H. rewrite lookup_app_r by exact Hge. exact Hd. }
      exists (S k). cbn [take drop concat].
      rewrite take_app_ge, drop_app_ge by exact Hge. by rewrite Hk1, Hk2.
    + exfalso. destruct Hcph as [H1 | Hall]; [lia|].
      destruct Hcond as [H | H].
      * rewrite take_app_le in H by lia.
        destruct cp as [|c0 cp']; [done|]. destruct len as [|len']; [done|].
        cbn in H. apply Forall_cons in H as [H _]. apply Forall_cons in Hall as [Hall _]. lia.
      * destruct (lookup_lt_is_Some_2 cp len ltac:(lia)) as [d Hd].
        specialize (H d). rewrite lookup_app_l in H by lia. specialize (H Hd).
        rewrite Forall_lookup in Hall. specialize (Hall _ _ Hd). lia.
Qed.

Lemma single_codepoint_nonempty (cps : list (list ascii)) :
  Forall single_codepoint cps -> Forall (fun cp => cp <> []) cps.
Proof. intros H. eapply Forall_impl; [exact H|]. by intros cp [? _]. Qed.

Lemma multibyte_high_concat (cps : list (list ascii)) :
  Forall single_codepoint cps ->
  Forall (fun cp => length cp = 1 \/ Forall (fun b => (128 <= uchar b)%Z) cp) cps ->
  multibyte_high (concat cps).
Proof. intros Hs Hh. unfold multibyte_high. by rewrite split_codepoints_concat. Qed.

(** Cutting a text at such a position leaves two texts of the same kind. *)
Lemma boundary_split (rest : list ascii) (len : nat) :
  decodable rest -> multibyte_high rest ->
  len <= length rest ->
  (Forall (fun c => (uchar c < 128)%Z) (take len rest)
   \/ forall d, rest !! len = Some d -> (uchar d < 128)%Z) ->
  (decodable (take len rest) /\ multibyte_high (take len rest))
  /\ (decodable (drop len rest) /\ multibyte_high (drop len rest)).
Proof.
  intros Hd Hh Hlen Hcond. unfold decodable in Hd. unfold multibyte_high in Hh.
  pose proof (split_codepoints_all_single rest) as Hs.
  set (cps := split_codepoints rest) in *. rewrite <- Hd in Hlen, Hcond |- *.
  destruct (codepoint_boundary cps len (single_codepoint_nonempty _ Hs) Hh Hlen Hcond)
    as (k & -> & ->).
  split; (split; [apply decodable_concat | apply multibyte_high_concat]);
    first [by apply Forall_take | by apply Forall_drop].
Qed.

Lemma regex_matches_loop_decodable (fuel : nat) (rest : list ascii) :
  decodable rest -> multibyte_high rest ->
  Forall decodable (regex_matches_loop fuel rest).
Proof.
  revert rest. induction fuel as [|fuel IH]; intros rest Hd Hh; [constructor|].
  destruct rest as [|c tl]; [constructor|].
  cbn [regex_matches_loop].
  destruct (first_match_some c tl) as [len Hm]. rewrite Hm.
  pose proof (first_match_spec _ _ Hm) as ([Hpos Hle] & Hcond).
  destruct (boundary_split (c :: tl) len Hd Hh Hle Hcond) as [[Ht _] [Hdr Hhr]].
  constructor; [exact Ht | by apply IH].
Qed.

(** *** The pieces of one pre-token *)

Lemma bpe_merge_loop_Forall (P : list ascii -> Prop)
    (ranks : gmap (list ascii * list ascii) Z) (fuel : nat)
    (sub_tokens sub_tokens' : list (list ascii)) :
  (forall a b, P a -> P b -> P (a ++ b)) ->
  Forall P sub_tokens ->
  bpe_merge_loop fuel ranks sub_tokens = Some sub_tokens' ->
  Forall P sub_tokens'.
Proof.
  intros Happ. revert sub_tokens. induction fuel as [|fuel IH]; intros sub_tokens HP H.
  - cbn in H. destruct (length sub_tokens <=? 1); [by injection H as <- | discriminate].
  - cbn [bpe_merge_loop] in H.
    destruct (length sub_tokens <=? 1); [by injection H as <-|].
    destruct (bpe_scan ranks sub_tokens) as [best_rank merge_idx] eqn:Hscan.
    destruct (Z.eqb_spec best_rank (-1)) as [E|E]; [by injection H as <-|].
    destruct (bpe_scan_index ranks sub_tokens best_rank merge_idx Hscan E)
      as (i & -> & Hi).
    destruct (lookup_lt_is_Some_2 sub_tokens i ltac:(lia)) as [a Ha].
    destruct (lookup_lt_is_Some_2 sub_tokens (i + 1) ltac:(lia)) as [b Hb].
    rewrite (bpe_merge_at_spec sub_tokens i a b Ha Hb) in H.
    apply IH in H; [exact H|].
    apply Forall_app. split; [by apply Forall_take|].
    constructor; [|by apply Forall_drop].
    rewrite Forall_lookup in HP. apply Happ; [by apply (HP i) | by apply (HP (i + 1))].
Qed.

Lemma bpe_emit_piece_pieces (v : SanaVocab) (st : list ascii) :
  st <> [] -> decodable st ->
  exists pieces,
    concat pieces = st
    /\ Forall (output_piece v) pieces
    /\ bpe_emit_piece v st = concat (map (lookup_or_unk v) pieces).
Proof.
  intros Hne Hd. unfold bpe_emit_piece.
  destruct (token_to_id v !! st) as [id|] eqn:Hl.
  - exists [st]. split; [cbn; by rewrite app_nil_r|].
    split; [constructor; [|constructor]; split; [exact Hne | left; by eexists]|].
    cbn. unfold lookup_or_unk. by rewrite Hl.
  - exists (split_codepoints st). split; [exact Hd|]. split.
    + eapply Forall_impl; [apply split_codepoints_all_single|].
      intros cp Hcp. split; [apply Hcp | by right].
    + by apply lookup_codepoints_decodable.
Qed.

Lemma bpe_emit_pieces_pieces (v : SanaVocab) (sub_tokens : list (list ascii)) :
  Forall (fun st => st <> [] /\ decodable st) sub_tokens ->
  exists pieces,
    concat pieces = concat sub_tokens
    /\ Forall (output_piece v) pieces
    /\ concat (map (bpe_emit_piece v) sub_tokens) = concat (map (lookup_or_unk v) pieces).
Proof.
  induction 1 as [|st sub_tokens [Hne Hd] _ (ps' & Hc' & Hall' & Hout')]; [by exists []|].
  destruct (bpe_emit_piece_pieces v st Hne Hd) as (ps & Hc & Hall & Hout).
  exists (ps ++ ps'). split; [|split].
  - cbn [concat]. by rewrite concat_app, Hc, Hc'.
  - by apply Forall_app.
  - cbn [map concat]. by rewrite map_app, concat_app, Hout, Hout'.
Qed.

Lemma tokenize_bpe_word_pieces (v : SanaVocab) (word : list ascii) (ids : list Z) :
  decodable word ->
  tokenize_bpe_word v word = Some ids ->
  exists pieces,
    concat pieces = word
    /\ Forall (output_piece v) pieces
    /\ ids = concat (map (lookup_or_unk v) pieces).
Proof.
  intros Hd H. unfold tokenize_bpe_word in H.
  destruct (decide (word = [])) as [->|Hne]; [injection H as <-; by exists []|].
  rewrite (bool_decide_eq_false_2 _ Hne) in H.
  destruct (token_to_id v !! word) as [id|] eqn:Hl.
  { injection H as <-. exists [word]. split; [cbn; by rewrite app_nil_r|].
    split; [constructor; [|constructor]; split; [exact Hne | left; by eexists]|].
    cbn. unfold lookup_or_unk. by rewrite Hl. }
  destruct (decide (split_codepoints word = [])) as [E|E].
  { unfold decodable in Hd. rewrite E in Hd. cbn in Hd. congruence. }
  rewrite (bool_decide_eq_false_2 _ E) in H.
  destruct (bpe_merge_loop _ _ _) as [sub_tokens'|] eqn:Hloop; [|discriminate].
  injection H as <-.
  pose proof (bpe_merge_loop_concat _ _ _ _ Hloop) as Hc.
  unfold decodable in Hd. rewrite Hd in Hc.
  assert (Hall : Forall (fun st => st <> [] /\ decodable st) sub_tokens').
  { apply (bpe_merge_loop_Forall _ _ _ _ _) with (3 := Hloop).
    - intros a b [Ha Hda] [Hb Hdb]. split; [|by apply decodable_app].
      intros Hab. apply app_eq_nil in Hab as [? _]. done.
    - eapply Forall_impl; [apply split_codepoints_all_single|].
      intros cp Hcp. split; [apply Hcp | by apply decodable_single]. }
  destruct (bpe_emit_pieces_pieces v sub_tokens' Hall) as (ps & Hps & Hallp & Hout).
  exists ps. split; [congruence | by split].
Qed.

Lemma tokenize_bpe_words_pieces (v : SanaVocab) (words : list (list ascii))
    (ids : list Z) :
  Forall decodable words ->
  tokenize_bpe_words v words = Some ids ->
  exists pieces,
    concat pieces = concat words
    /\ Forall (output_piece v) pieces
    /\ ids = concat (map (lookup_or_unk v) pieces).
Proof.
  intros Hall. revert ids. induction Hall as [|word words Hd _ IH]; intros ids H.
  - injection H as <-. by exists [].
  - cbn [tokenize_bpe_words] in H.
    destruct (tokenize_bpe_word v word) as [ids1|] eqn:E1; [|discriminate].
    destruct (tokenize_bpe_words v words) as [ids2|]; [|discriminate].
    injection H as <-.
    destruct (tokenize_bpe_word_pieces v word ids1 Hd E1) as (ps1 & Hc1 & Ha1 & ->).
    destruct (IH ids2 eq_refl) as (ps2 & Hc2 & Ha2 & ->).
    exists (ps1 ++ ps2). split; [|split].
    + cbn [concat]. by rewrite concat_app, Hc1, Hc2.
    + by apply Forall_app.
    + by rewrite map_app, concat_app.
Qed.

(** X5: the byte-pair output for a text made of whole codepoints whose
    continuation bytes are all from 0x80 on (every UTF-8 text is one) is
    the id sequence of a split of the text: there are pieces whose
    concatenation is the text, each an entry of the vocabulary or a single
    codepoint, and the output holds, in order, the id of each piece that is
    an entry and, for each other piece, the unknown id when it is set and
    nothing when it is not.  This holds on the bootstrap path and on the
    merge path, for every rank table. *)
Theorem tokenize_bpe_segmentation (v : SanaVocab) (text : list ascii) :
  decodable text ->
  multibyte_high text ->
  exists pieces,
    concat pieces = text
    /\ Forall (output_piece v) pieces
    /\ tokenize_bpe v text = concat (map (lookup_or_unk v) pieces).
Proof.
  intros Hd Hh. unfold tokenize_bpe, tokenize_bpe_run.
  destruct (decide (text = [])) as [->|Hne]; [by exists []|].
  rewrite (bool_decide_eq_false_2 _ Hne).
  destruct (_ && _).
  - exists (split_codepoints text). split; [exact Hd|]. split.
    + eapply Forall_impl; [apply split_codepoints_all_single|].
      intros cp Hcp. split; [apply Hcp | by right].
    + cbn [default]. by apply lookup_codepoints_decodable.
  - destruct (bpe_pre_tokenize_gpt2_cover text) as [Hm Hc].
    destruct (tokenize_bpe_words_total v (bpe_pre_tokenize_gpt2 text)) as [ids Hids].
    rewrite Hids. cbn [default].
    assert (Hwords : Forall decodable (bpe_pre_tokenize_gpt2 text)).
    { rewrite Hm. by apply regex_matches_loop_decodable. }
    destruct (tokenize_bpe_words_pieces v _ ids Hwords Hids)
      as (pieces & Hp & Hall & ->).
    exists pieces. split; [congruence | by split].
Qed.

Lemma tokenize_bpe_segmentation_witness :
  exists pieces,
    concat pieces = str "say hello"
    /\ Forall (output_piece (set_bpe_ranks vocab_hello ranks_hello)) pieces
    /\ tokenize_bpe (set_bpe_ranks vocab_hello ranks_hello) (str "say hello")
       = concat (map (lookup_or_unk (set_bpe_ranks vocab_hello ranks_hello)) pieces).
Proof.
  apply (tokenize_bpe_segmentation (set_bpe_ranks vocab_hello ranks_hello)
           (str "say hello")).
  - vm_compute. reflexivity.
  - unfold multibyte_high. vm_compute. repeat constructor.
Defined.

(** Why the bytes after a lead byte matter: the pattern cuts between the
    lead byte 0xC3 and the letter that follows it, the lone lead byte
    decodes to nothing, and the merge path emits the letter alone; the
    bootstrap path takes both bytes for one unmapped codepoint. *)
Example tokenize_bpe_lead_byte_before_letter :
  decodable [ascii_of_nat 195; "a"%char]
  /\ tokenize_bpe (set_bpe_ranks vocab_bpe_small ranks_ab) [ascii_of_nat 195; "a"%char]
     = [3%Z]
  /\ tokenize_bpe vocab_bpe_small [ascii_of_nat 195; "a"%char] = [2%Z].
Proof. vm_compute. done. Qed.


(** ** Loading the hyperparameters *)

Lemma gguf_find_key_from_range (ctx : gguf_context) (key : string) (i : Z) :
  gguf_find_key_from ctx key i = (-1)%Z
  \/ (i <= gguf_find_key_from ctx key i < i + Z.of_nat (length ctx))%Z.
Proof.
  revert i. induction ctx as [|[k x] ctx IH]; intros i; [by left|].
  cbn [gguf_find_key_from length]. destruct (bool_decide (k = key)); [right; lia|].
  destruct (IH (i + 1)%Z) as [H | H]; [by left | right; lia].
Qed.

(** A key that is found has a value and a type. *)
Lemma gguf_find_key_type (ctx : gguf_context) (key : string) :
  gguf_find_key ctx key <> (-1)%Z ->
  exists ty, gguf_get_kv_type ctx (gguf_find_key ctx key) = Some ty
    /\ (ty = GGUF_TYPE_UINT32 -> is_Some (gguf_get_val_u32 ctx (gguf_find_key ctx key)))
    /\ (ty = GGUF_TYPE_FLOAT32 -> is_Some (gguf_get_val_f32 ctx (gguf_find_key ctx key))).
Proof.
  intros Hne. unfold gguf_find_key in *.
  destruct (gguf_find_key_from_range ctx key 0) as [H | H]; [done|].
  unfold gguf_get_kv_type, gguf_get_val_u32, gguf_get_val_f32, gguf_value_at.
  destruct (Z.ltb_spec (gguf_find_key_from ctx key 0) 0); [lia|].
  match goal with
  | |- context [@lookup ?K ?A ?M ?I ?i ctx] =>
    destruct (@lookup K A M I i ctx) as [[k x]|] eqn:Hx;
      [| apply lookup_ge_None in Hx; lia]
  end.
  cbn. destruct x; eexists; (split; [reflexivity|]); split; intros E;
    try discriminate; by eexists.
Qed.

Lemma get_u32_optional_total (ctx : gguf_context) (suffix : string) (default_val : Z) :
  exists x, get_u32_optional ctx suffix default_val = Some x
    /\ (gguf_find_key ctx (text_encoder_prefix ++ suffix) = (-1)%Z -> x = default_val).
Proof.
  unfold get_u32_optional. cbv zeta.
  destruct (Z.eqb_spec (gguf_find_key ctx (text_encoder_prefix ++ suffix)) (-1)) as [E|E].
  - by exists default_val.
  - cbn [negb]. destruct (gguf_find_key_type ctx _ E) as (ty & -> & Hu & _).
    cbn [mbind option_bind].
    destruct ty; try (exists default_val; by split).
    destruct (Hu eq_refl) as [x ->]. exists (to_uint32 x). by split.
Qed.

Lemma get_f32_optional_total (ctx : gguf_context) (suffix : string) (default_val : Q) :
  exists x, get_f32_optional ctx suffix default_val = Some x
    /\ (gguf_find_key ctx (text_encoder_prefix ++ suffix) = (-1)%Z -> x = default_val).
Proof.
  unfold get_f32_optional. cbv zeta.
  destruct (Z.eqb_spec (gguf_find_key ctx (text_encoder_prefix ++ suffix)) (-1)) as [E|E].
  - by exists default_val.
  - cbn [negb]. destruct (gguf_find_key_type ctx _ E) as (ty & -> & _ & Hf).
    cbn [mbind option_bind].
    destruct ty; try (exists default_val; by split).
    destruct (Hf eq_refl) as [x ->]. exists x. by split.
Qed.

(** Step through the next getter of [load_params_from_gguf]. *)
Ltac step_u32 x Hx :=
  match goal with
  | |- context [mbind _ (get_u32_optional ?ctx ?s ?d)] =>
    let E := fresh "E" in
    destruct (get_u32_optional_total ctx s d) as (x & E & Hx);
    rewrite E; clear E; cbn [mbind option_bind]
  end.
Ltac step_f32 x Hx :=
  match goal with
  | |- context [mbind _ (get_f32_optional ?ctx ?s ?d)] =>
    let E := fresh "E" in
    destruct (get_f32_optional_total ctx s d) as (x & E & Hx);
    rewrite E; clear E; cbn [mbind option_bind]
  end.

(** X6: [load_params_from_gguf] returns whenever the vocabulary loader
    does, whatever the hyperparameter keys of the file hold: every typed
    getter is guarded by a check of the key's type.  It returns the
    vocabulary loader's flag; on [false] the hyperparameters are left as
    they were, on [true] they are marked loaded and [n_vocab] is the size
    of the token array, or 32000 when that is empty. *)
Theorem load_params_from_gguf_returns (ctx : gguf_context) (m : SanaTextEncoderModel)
    (ok : bool) (vocab' : SanaVocab) :
  load_from_gguf ctx (vocab m) = Some (ok, vocab') ->
  exists m',
    load_params_from_gguf ctx m = Some (ok, m')
    /\ vocab m' = vocab'
    /\ (ok = false -> params m' = params m)
    /\ (ok = true ->
        loaded (params m') = true
        /\ n_vocab (params m') =
             if bool_decide (id_to_token vocab' = []) then 32000%Z
             else to_uint32 (Z.of_nat (length (id_to_token vocab')))).
Proof.
  intros Hload. unfold load_params_from_gguf. rewrite Hload. cbn [mbind option_bind].
  destruct ok; cbn [negb].
  - step_u32 embd H1. step_u32 layer H2. step_u32 nhead H3. step_u32 ff H4.
    step_f32 eps H5.
    assert (exists eps',
              (if Qeq_bool eps (-1)
               then get_f32_optional ctx "attention.layer_norm_epsilon" float_1e_6
               else Some eps) = Some eps') as [eps' ->].
    { destruct (Qeq_bool eps (-1)); [|by eexists].
      destruct (get_f32_optional_total ctx "attention.layer_norm_epsilon" float_1e_6)
        as (y & -> & _). by eexists. }
    cbn [mbind option_bind].
    step_u32 rot H7. step_f32 fbase H8. step_f32 fscale H9. step_u32 ctx_train H10.
    step_u32 bkts H11.
    eexists. split; [reflexivity|]. cbn. split; [reflexivity|]. split; [discriminate|].
    intros _. by split.
  - eexists. split; [reflexivity|]. cbn. split; [reflexivity|]. split; [done | discriminate].
Qed.

Lemma load_params_from_gguf_returns_witness :
  exists m',
    load_params_from_gguf gguf_text_encoder_small SanaTextEncoderModel_default
      = Some (true, m')
    /\ vocab m' = load_fresh gguf_text_encoder_small
    /\ (true = false -> params m' = params SanaTextEncoderModel_default)
    /\ (true = true ->
        loaded (params m') = true
        /\ n_vocab (params m') =
             if bool_decide (id_to_token (load_fresh gguf_text_encoder_small) = [])
             then 32000%Z
             else to_uint32 (Z.of_nat (length (id_to_token
                                                 (load_fresh gguf_text_encoder_small))))).
Proof.
  apply (load_params_from_gguf_returns gguf_text_encoder_small
           SanaTextEncoderModel_default true (load_fresh gguf_text_encoder_small)).
  vm_compute. reflexivity.
Defined.

(** The hyperparameters read from the example file: the block count key
    has the type INT32 and is passed over, the feed-forward length and the
    rotary dimension follow from the embedding length and the head count. *)
Example load_params_from_gguf_small :
  exists m',
    load_params_from_gguf gguf_text_encoder_small SanaTextEncoderModel_default
      = Some (true, m')
    /\ n_vocab (params m') = 4%Z /\ n_embd (params m') = 512%Z
    /\ n_layer (params m') = 12%Z /\ n_head (params m') = 8%Z
    /\ n_ff (params m') = 2048%Z /\ n_rot (params m') = 64%Z
    /\ norm_eps (params m') = (1 # 100000)%Q.
Proof. eexists. split; [vm_compute; reflexivity|]. repeat split. Qed.

(** X7: on a file without any hyperparameter key, the loader's fallback
    values are the member initialisers of [SanaTextEncoderParams]: after a
    successful load the hyperparameters differ from the struct's defaults
    only in [n_vocab] and in the [loaded] flag.  In particular the derived
    fallbacks agree with the struct: 4 * 768 = 3072 for [n_ff], 768 / 12 =
    64 for [n_rot], and [1e-6f] for [norm_eps] after the two epsilon keys. *)
Theorem load_params_from_gguf_defaults (ctx : gguf_context) (m : SanaTextEncoderModel)
    (vocab' : SanaVocab) :
  load_from_gguf ctx (vocab m) = Some (true, vocab') ->
  (forall suffix, gguf_find_key ctx (text_encoder_prefix ++ suffix) = (-1)%Z) ->
  exists m',
    load_params_from_gguf ctx m = Some (true, m')
    /\ params m' =
       {| n_vocab := n_vocab (params m');
          n_embd := n_embd SanaTextEncoderParams_default;
          n_layer := n_layer SanaTextEncoderParams_default;
          n_head := n_head SanaTextEncoderParams_default;
          n_ff := n_ff SanaTextEncoderParams_default;
          norm_eps := norm_eps SanaTextEncoderParams_default;
          n_rot := n_rot SanaTextEncoderParams_default;
          rope_freq_base := rope_freq_base SanaTextEncoderParams_default;
          rope_freq_scale := rope_freq_scale SanaTextEncoderParams_default;
          n_ctx_train := n_ctx_train SanaTextEncoderParams_default;
          n_rel_attn_bkts := n_rel_attn_bkts SanaTextEncoderParams_default;
          loaded := true |}.
Proof.
  intros Hload Hkeys. unfold load_params_from_gguf. rewrite Hload.
  cbn [mbind option_bind negb].
  step_u32 embd H1. rewrite (H1 (Hkeys _)). clear H1.
  step_u32 layer H2. rewrite (H2 (Hkeys _)). clear H2.
  step_u32 nhead H3. rewrite (H3 (Hkeys _)). clear H3.
  step_u32 ff H4. rewrite (H4 (Hkeys _)). clear H4.
  step_f32 eps H5. rewrite (H5 (Hkeys _)). clear H5.
  change (Qeq_bool (-1) (-1)) with true. cbv iota.
  step_f32 eps' H6. rewrite (H6 (Hkeys _)). clear H6.
  step_u32 rot H7. rewrite (H7 (Hkeys _)). clear H7.
  step_f32 fbase H8. rewrite (H8 (Hkeys _)). clear H8.
  step_f32 fscale H9. rewrite (H9 (Hkeys _)). clear H9.
  step_u32 ctx_train H10. rewrite (H10 (Hkeys _)). clear H10.
  step_u32 bkts H11. rewrite (H11 (Hkeys _)). clear H11.
  eexists. split; reflexivity.
Qed.

Lemma load_params_from_gguf_defaults_witness :
  exists m',
    load_params_from_gguf gguf_bpe_small SanaTextEncoderModel_default = Some (true, m')
    /\ params m' =
       {| n_vocab := n_vocab (params m');
          n_embd := n_embd SanaTextEncoderParams_default;
          n_layer := n_layer SanaTextEncoderParams_default;
          n_head := n_head SanaTextEncoderParams_default;
          n_ff := n_ff SanaTextEncoderParams_default;
          norm_eps := norm_eps SanaTextEncoderParams_default;
          n_rot := n_rot SanaTextEncoderParams_default;
          rope_freq_base := rope_freq_base SanaTextEncoderParams_default;
          rope_freq_scale := rope_freq_scale SanaTextEncoderParams_default;
          n_ctx_train := n_ctx_train SanaTextEncoderParams_default;
          n_rel_attn_bkts := n_rel_attn_bkts SanaTextEncoderParams_default;
          loaded := true |}.
Proof.
  apply (load_params_from_gguf_defaults gguf_bpe_small SanaTextEncoderModel_default
           (load_fresh gguf_bpe_small)).
  - vm_compute. reflexivity.
  - intros suffix. unfold gguf_find_key, gguf_bpe_small, text_encoder_prefix.
    cbn [gguf_find_key_from String.append].
    rewrite !bool_decide_eq_false_2 by discriminate. reflexivity.
Defined.

(** X8: when the file gives the embedding length and the head count but
    neither the feed-forward length nor the rotary dimension, these two
    follow from the values read, not from the struct's defaults: [n_ff] is
    four times [n_embd] (in 32 bits), and [n_rot] is [n_embd / n_head], or
    64 when one of the two is 0, so that no division by zero occurs and
    [n_rot * n_head] never exceeds [n_embd] for a usable head count. *)
Theorem load_params_from_gguf_derived (ctx : gguf_context) (m m' : SanaTextEncoderModel) :
  load_params_from_gguf ctx m = Some (true, m') ->
  gguf_find_key ctx (text_encoder_prefix ++ "feed_forward_length") = (-1)%Z ->
  gguf_find_key ctx (text_encoder_prefix ++ "rope.dimension_count") = (-1)%Z ->
  n_ff (params m') = to_uint32 (n_embd (params m') * 4)
  /\ n_rot (params m') =
       (if (0 <? n_head (params m'))%Z && (0 <? n_embd (params m'))%Z
        then (n_embd (params m') / n_head (params m'))%Z else 64%Z)
  /\ ((0 < n_head (params m'))%Z -> (0 < n_embd (params m'))%Z ->
      (n_rot (params m') * n_head (params m') <= n_embd (params m'))%Z).
Proof.
  intros H Hff Hrot. unfold load_params_from_gguf in H.
  destruct (load_from_gguf ctx (vocab m)) as [[ok vocab']|]; [|discriminate].
  cbn [mbind option_bind] in H. destruct ok; [|discriminate]. cbn [negb] in H.
  revert H.
  step_u32 embd H1. step_u32 layer H2. step_u32 nhead H3. step_u32 ff H4.
  rewrite (H4 Hff). clear H4.
  step_f32 eps H5.
  destruct (if Qeq_bool eps (-1)
            then get_f32_optional ctx "attention.layer_norm_epsilon" float_1e_6
            else Some eps) as [eps'|]; [|discriminate].
  cbn [mbind option_bind].
  step_u32 rot H7. rewrite (H7 Hrot). clear H7.
  step_f32 fbase H8. step_f32 fscale H9. step_u32 ctx_train H10. step_u32 bkts H11.
  intros [= <-]. cbn [params n_ff n_embd n_rot n_head].
  split; [reflexivity|]. split; [reflexivity|].
  intros Hh He.
  destruct (Z.ltb_spec 0 nhead); [|lia]. destruct (Z.ltb_spec 0 embd); [|lia].
  cbn [andb]. rewrite Z.mul_comm. apply Z.mul_div_le. lia.
Qed.

Lemma load_params_from_gguf_derived_witness :
  let m' := (default (false, SanaTextEncoderModel_default)
               (load_params_from_gguf gguf_text_encoder_small
                  SanaTextEncoderModel_default)).2 in
  n_ff (params m') = to_uint32 (n_embd (params m') * 4)
  /\ n_rot (params m') =
       (if (0 <? n_head (params m'))%Z && (0 <? n_embd (params m'))%Z
        then (n_embd (params m') / n_head (params m'))%Z else 64%Z)
  /\ ((0 < n_head (params m'))%Z -> (0 < n_embd (params m'))%Z ->
      (n_rot (params m') * n_head (params m') <= n_embd (params m'))%Z).
Proof.
  apply (load_params_from_gguf_derived gguf_text_encoder_small
           SanaTextEncoderModel_default).
  - vm_compute. reflexivity.
  - vm_compute. reflexivity.
  - vm_compute. reflexivity.
Defined.

(** What a successful [load_params_from_gguf] says about the vocabulary
    loader. *)
Lemma load_params_from_gguf_vocab (ctx : gguf_context) (m m' : SanaTextEncoderModel) :
  load_params_from_gguf ctx m = Some (true, m') ->
  load_from_gguf ctx (vocab m) = Some (true, vocab m')
  /\ n_vocab (params m') =
       if bool_decide (id_to_token (vocab m') = []) then 32000%Z
       else to_uint32 (Z.of_nat (length (id_to_token (vocab m')))).
Proof.
  intros H. unfold load_params_from_gguf in H.
  destruct (load_from_gguf ctx (vocab m)) as [[ok vocab']|]; [|discriminate].
  cbn [mbind option_bind] in H. destruct ok; [|discriminate]. cbn [negb] in H.
  revert H.
  step_u32 embd H1. step_u32 layer H2. step_u32 nhead H3. step_u32 ff H4.
  step_f32 eps H5.
  destruct (if Qeq_bool eps (-1)
            then get_f32_optional ctx "attention.layer_norm_epsilon" float_1e_6
            else Some eps) as [eps'|]; [|discriminate].
  cbn [mbind option_bind].
  step_u32 rot H7. step_f32 fbase H8. step_f32 fscale H9. step_u32 ctx_train H10.
  step_u32 bkts H11.
  intros [= <-]. by split.
Qed.

(** X9: after a successful [load_params_from_gguf] on a fresh model, every
    id that the model's [tokenize] emits, the unknown id apart, is below
    [params.n_vocab] as an unsigned number: it names a row of a token
    embedding with [n_vocab] rows.  The unknown id is emitted as stored,
    without a comparison against the vocabulary size. *)
Theorem model_tokenize_ids_below_n_vocab (ctx : gguf_context)
    (m m' : SanaTextEncoderModel) (a : list (option (list ascii)))
    (text : list ascii) (add_bos add_eos : bool) (id : Z) :
  token_to_id (vocab m) = ∅ ->
  gguf_value_at ctx (gguf_find_key ctx "tokenizer.ggml.tokens") = Some (gguf_strings a) ->
  (Z.of_nat (length a) <= 2 ^ 31)%Z ->
  load_params_from_gguf ctx m = Some (true, m') ->
  id ∈ SanaTextEncoderModel_tokenize m' text add_bos add_eos ->
  (id = unk_token_id (vocab m') /\ unk_token_id (vocab m') <> (-1)%Z)
  \/ (0 <= to_uint32 id < n_vocab (params m'))%Z.
Proof.
  intros Hempty Ha Hlen Hload Hid.
  apply load_params_from_gguf_vocab in Hload as [Hload Hn].
  destruct (load_from_gguf_loaded ctx (vocab m) (vocab m') a Ha Hlen Hload) as (Hlen' & _).
  assert (Hin : forall x, (0 <= x < Z.of_nat (length (id_to_token (vocab m'))))%Z ->
                  (0 <= x < n_vocab (params m'))%Z).
  { intros x Hx. rewrite Hn.
    rewrite bool_decide_eq_false_2 by (intros E; rewrite E in Hx; simpl in Hx; lia).
    rewrite to_uint32_small by lia. exact Hx. }
  unfold SanaTextEncoderModel_tokenize in Hid.
  apply tokenize_emitted in Hid
    as [(_ & -> & Hr) | [(_ & -> & Hr) | [Hunk | [piece Hpiece]]]].
  - right. apply Hin. unfold special_in_range in Hr. apply andb_true_iff in Hr as [_ H2].
    apply Z.ltb_lt in H2. unfold to_uint32 in *.
    pose proof (Z.mod_pos_bound (bos_token_id (vocab m')) (2 ^ 32) ltac:(lia)). lia.
  - right. apply Hin. unfold special_in_range in Hr. apply andb_true_iff in Hr as [_ H2].
    apply Z.ltb_lt in H2. unfold to_uint32 in *.
    pose proof (Z.mod_pos_bound (eos_token_id (vocab m')) (2 ^ 32) ltac:(lia)). lia.
  - by left.
  - right.
    destruct (load_from_gguf_lookup ctx (vocab m) (vocab m') a piece id
                Hempty Ha Hlen Hload Hpiece) as [Hpos Hback].
    apply lookup_lt_Some in Hback.
    rewrite to_uint32_small by lia. apply Hin. lia.
Qed.

Lemma model_tokenize_ids_below_n_vocab_witness :
  let m' := (default (false, SanaTextEncoderModel_default)
               (load_params_from_gguf gguf_text_encoder_small
                  SanaTextEncoderModel_default)).2 in
  (3%Z = unk_token_id (vocab m') /\ unk_token_id (vocab m') <> (-1)%Z)
  \/ (0 <= to_uint32 3 < n_vocab (params m'))%Z.
Proof.
  apply (model_tokenize_ids_below_n_vocab gguf_text_encoder_small
           SanaTextEncoderModel_default _
           [Some (str "<unk>"); Some (str "a"); Some (str "b"); Some (str "ab")]
           (str "ab") false false 3%Z).
  - reflexivity.
  - reflexivity.
  - vm_compute. discriminate.
  - vm_compute. reflexivity.
  - vm_compute. apply list_elem_of_here.
Defined.


(** ** The stages of [load_from_gguf] *)

(** [load_from_gguf] as the sequence of its parts. *)
Lemma load_from_gguf_stages (ctx : gguf_context) (v : SanaVocab) :
  load_from_gguf ctx v =
    if (gguf_find_key ctx "tokenizer.ggml.tokens" =? -1)%Z then Some (false, v)
    else
      v1 ← load_model_type ctx v;
      arr_n ← gguf_get_arr_n ctx (gguf_find_key ctx "tokenizer.ggml.tokens");
      r ← load_scores_stage ctx (Z.to_nat (to_uint32 arr_n))
             (set_id_to_token v1
                (resize (Z.to_nat (to_uint32 arr_n)) [] (id_to_token v1)));
      r' ← load_tokens_loop ctx (gguf_find_key ctx "tokenizer.ggml.tokens") r.1
              (seq 0 (Z.to_nat (to_uint32 arr_n))) r.2;
      match r' with
      | inl v4 => Some (false, v4)
      | inr v4 => v5 ← load_special_stage ctx v4; Some (true, v5)
      end.
Proof.
  unfold load_from_gguf, load_scores_stage, load_special_stage. cbv zeta.
  destruct (_ =? -1)%Z; [reflexivity|].
  destruct (load_model_type ctx v) as [v1|]; [|reflexivity]. cbn [mbind option_bind].
  destruct (gguf_get_arr_n ctx (gguf_find_key ctx "tokenizer.ggml.tokens")) as [arr_n|];
    [|reflexivity].
  cbn [mbind option_bind].
  match goal with
  | |- mbind _ ?e = _ => destruct e as [[s v3]|]; [|reflexivity]
  end.
  cbn [mbind option_bind fst snd].
  destruct (load_tokens_loop _ _ _ _ _) as [[v4|v4]|]; [reflexivity | | reflexivity].
  cbn [mbind option_bind].
  destruct (load_special_token ctx "tokenizer.ggml.bos_token_id" _); [|reflexivity].
  cbn [mbind option_bind].
  destruct (load_special_token ctx "tokenizer.ggml.eos_token_id" _); [|reflexivity].
  cbn [mbind option_bind].
  destruct (load_special_token ctx "tokenizer.ggml.unk_token_id" _); [|reflexivity].
  cbn [mbind option_bind].
  destruct (load_pad_token ctx _); reflexivity.
Qed.


(** *** What a stage leaves alone

    [f] reads a part of the store; a stage that only assigns other members
    leaves it as it was. *)

Section Frame.

Context {A : Type} (f : SanaVocab -> A).

Lemma load_merge_frame (ctx : gguf_context) (merges_idx : Z) (i : nat)
    (v v' : SanaVocab) :
  (forall w x, f (set_bpe_merges w x) = f w) ->
  (forall w x, f (set_bpe_ranks w x) = f w) ->
  load_merge ctx merges_idx i v = Some v' -> f v' = f v.
Proof.
  intros Hm Hr H. unfold load_merge in H.
  destruct (gguf_get_arr_str ctx merges_idx i) as [s|]; [|discriminate].
  cbn [mbind option_bind] in H. injection H as <-.
  assert (Hv1 : f match s with
                  | Some s0 => set_bpe_merges v (<[i:=s0]> (bpe_merges v))
                  | None => v
                  end = f v) by (destruct s; [apply Hm | reflexivity]).
  destruct (find_space _); [|exact Hv1].
  destruct (_ && _); [|exact Hv1]. by rewrite Hr.
Qed.

Lemma load_merges_loop_frame (ctx : gguf_context) (merges_idx : Z) (idxs : list nat)
    (v v' : SanaVocab) :
  (forall w x, f (set_bpe_merges w x) = f w) ->
  (forall w x, f (set_bpe_ranks w x) = f w) ->
  load_merges_loop ctx merges_idx idxs v = Some v' -> f v' = f v.
Proof.
  intros Hm Hr. revert v. induction idxs as [|i idxs IH]; intros v H.
  - by injection H as <-.
  - cbn [load_merges_loop] in H.
    destruct (load_merge ctx merges_idx i v) as [v1|] eqn:E; [|discriminate].
    cbn [mbind option_bind] in H. rewrite (IH _ H). by apply (load_merge_frame _ _ _ _ _ Hm Hr E).
Qed.

Lemma load_model_type_frame (ctx : gguf_context) (v v' : SanaVocab) :
  (forall w x, f (set_type w x) = f w) ->
  (forall w x, f (set_bpe_merges w x) = f w) ->
  (forall w x, f (set_bpe_ranks w x) = f w) ->
  load_model_type ctx v = Some v' -> f v' = f v.
Proof.
  intros Ht Hm Hr H. unfold load_model_type in H. cbv zeta in H.
  destruct (negb _); [|by injection H as <-].
  destruct (gguf_get_val_str _ _) as [model_name|]; [|discriminate].
  cbn [mbind option_bind] in H.
  destruct (_ || _); [|injection H as <-; apply Ht].
  destruct (negb _); [|injection H as <-; apply Ht].
  destruct (gguf_get_arr_n _ _) as [arr_n|]; [|discriminate].
  cbn [mbind option_bind] in H.
  apply (load_merges_loop_frame _ _ _ _ _ Hm Hr) in H. by rewrite H, Hm, Ht.
Qed.

Lemma load_scores_stage_frame (ctx : gguf_context) (n : nat) (v2 : SanaVocab)
    (r : Z * SanaVocab) :
  (forall w x, f (set_id_to_score w x) = f w) ->
  load_scores_stage ctx n v2 = Some r -> f r.2 = f v2.
Proof.
  intros Hs H. unfold load_scores_stage in H. cbv zeta in H.
  destruct (_ && _); [|by injection H as <-].
  destruct (gguf_get_arr_n _ _) as [scores_n|]; [|discriminate].
  cbn [mbind option_bind] in H.
  destruct (_ =? _)%Z; injection H as <-; [apply Hs | reflexivity].
Qed.

Lemma load_token_frame (ctx : gguf_context) (tokens_idx scores_idx : Z) (i : nat)
    (v : SanaVocab) (r : SanaVocab + SanaVocab) :
  (forall w x, f (set_id_to_token w x) = f w) ->
  (forall w x, f (set_token_to_id w x) = f w) ->
  (forall w x, f (set_id_to_score w x) = f w) ->
  load_token ctx tokens_idx scores_idx i v = Some r ->
  f match r with inl w | inr w => w end = f v.
Proof.
  intros Hi Hm Hs H. unfold load_token in H.
  destruct (gguf_get_arr_str ctx tokens_idx i) as [[t|]|]; [| |discriminate];
    cbn [mbind option_bind] in H; [|by injection H as <-].
  destruct (_ && _).
  - destruct (gguf_get_arr_data _ _) as [score_data|]; [|discriminate].
    cbn [mbind option_bind] in H.
    destruct (score_data !! i); [|discriminate]. injection H as <-.
    by rewrite Hs, Hm, Hi.
  - injection H as <-. by rewrite Hm, Hi.
Qed.

Lemma load_tokens_loop_frame (ctx : gguf_context) (tokens_idx scores_idx : Z)
    (idxs : list nat) (v : SanaVocab) (r : SanaVocab + SanaVocab) :
  (forall w x, f (set_id_to_token w x) = f w) ->
  (forall w x, f (set_token_to_id w x) = f w) ->
  (forall w x, f (set_id_to_score w x) = f w) ->
  load_tokens_loop ctx tokens_idx scores_idx idxs v = Some r ->
  f match r with inl w | inr w => w end = f v.
Proof.
  intros Hi Hm Hs. revert v. induction idxs as [|i idxs IH]; intros v H.
  - by injection H as <-.
  - cbn [load_tokens_loop] in H.
    destruct (load_token ctx tokens_idx scores_idx i v) as [r1|] eqn:E; [|discriminate].
    cbn [mbind option_bind] in H.
    apply (load_token_frame _ _ _ _ _ _ Hi Hm Hs) in E.
    destruct r1 as [w|w]; [by injection H as <-|].
    rewrite (IH _ H). exact E.
Qed.

Lemma load_pad_token_frame (ctx : gguf_context) (v v' : SanaVocab) :
  (forall w x, f (set_pad_token_id w x) = f w) ->
  load_pad_token ctx v = Some v' -> f v' = f v.
Proof.
  intros Hp H. unfold load_pad_token in H. cbv zeta in H.
  destruct (negb _); [|injection H as <-; apply Hp].
  destruct (gguf_get_kv_type _ _) as [ty|]; [|discriminate].
  cbn [mbind option_bind] in H.
  destruct ty; try (by injection H as <-).
  - destruct (gguf_get_val_u32 _ _); [|discriminate]. injection H as <-. apply Hp.
  - destruct (gguf_get_val_i32 _ _); [|discriminate]. injection H as <-. apply Hp.
Qed.

Lemma load_special_stage_frame (ctx : gguf_context) (v4 v5 : SanaVocab) :
  (forall w x, f (set_bos_token_id w x) = f w) ->
  (forall w x, f (set_eos_token_id w x) = f w) ->
  (forall w x, f (set_unk_token_id w x) = f w) ->
  (forall w x, f (set_pad_token_id w x) = f w) ->
  load_special_stage ctx v4 = Some v5 -> f v5 = f v4.
Proof.
  intros Hb He Hu Hp H. unfold load_special_stage in H.
  destruct (load_special_token ctx "tokenizer.ggml.bos_token_id" _) as [bos|];
    [|discriminate]. cbn [mbind option_bind] in H.
  destruct (load_special_token ctx "tokenizer.ggml.eos_token_id" _) as [eos|];
    [|discriminate]. cbn [mbind option_bind] in H.
  destruct (load_special_token ctx "tokenizer.ggml.unk_token_id" _) as [unk|];
    [|discriminate]. cbn [mbind option_bind] in H.
  apply (load_pad_token_frame _ _ _ Hp) in H. by rewrite H, Hu, He, Hb.
Qed.

End Frame.


(** ** When the loader fails *)

(** The token loop stops with [return false] at the first null entry. *)
Lemma load_tokens_loop_null (ctx : gguf_context) (tokens_idx scores_idx : Z)
    (a : list (option (list ascii))) (m0 : gmap (list ascii) Z) (n m k : nat)
    (v : SanaVocab) (r : SanaVocab + SanaVocab) :
  gguf_value_at ctx tokens_idx = Some (gguf_strings a) ->
  k + m <= n ->
  tokens_loaded a m0 n k v ->
  load_tokens_loop ctx tokens_idx scores_idx (seq k m) v = Some r ->
  match r with
  | inr v' => tokens_loaded a m0 n (k + m) v'
  | inl v' => exists j, k <= j < k + m /\ a !! j = Some None /\ tokens_loaded a m0 n j v'
  end.
Proof.
  intros Ha. revert k v. induction m as [|m IH]; intros k v Hk Hinv H.
  - injection H as <-. by rewrite Nat.add_0_r.
  - cbn [seq load_tokens_loop] in H.
    destruct (load_token ctx tokens_idx scores_idx k v) as [[v1|v1]|] eqn:E;
      [| |discriminate]; cbn [mbind option_bind] in H.
    + injection H as <-. exists k. split; [lia|].
      unfold load_token, gguf_get_arr_str in E. rewrite Ha in E.
      destruct (a !! k) as [[t|]|]; [| |discriminate]; cbn [mbind option_bind] in E.
      * destruct (_ && _); [|discriminate].
        destruct (gguf_get_arr_data _ _) as [sd|]; [|discriminate].
        cbn [mbind option_bind] in E. destruct (sd !! k); discriminate.
      * injection E as <-. by split.
    + pose proof (load_token_step ctx tokens_idx scores_idx a m0 n k v v1 Ha
                    ltac:(lia) Hinv E) as Hinv1.
      specialize (IH (S k) v1 ltac:(lia) Hinv1 H).
      destruct r as [v'|v'].
      * destruct IH as (j & Hj & Hnull & Hinv'). exists j. split; [lia | by split].
      * by replace (k + S m) with (S k + m) by lia.
Qed.

(** X10: with a token array of at most 2^31 entries, [load_from_gguf]
    returns [true] exactly when no entry of the array is a null string.
    When it returns [false] it has stopped at a null entry [k]: the store is
    left half loaded, with [id_to_token] already resized to the length of
    the array, the tokens before [k] stored and mapped, and the four special
    ids as they were before the call. *)
Theorem load_from_gguf_null_token (ctx : gguf_context) (v v' : SanaVocab) (flag : bool)
    (a : list (option (list ascii))) :
  gguf_value_at ctx (gguf_find_key ctx "tokenizer.ggml.tokens") = Some (gguf_strings a) ->
  (Z.of_nat (length a) <= 2 ^ 31)%Z ->
  load_from_gguf ctx v = Some (flag, v') ->
  (flag = true <-> Forall is_Some a)
  /\ (flag = false ->
      length (id_to_token v') = length a
      /\ (exists k, a !! k = Some None
            /\ forall i, i < k ->
                 exists t, a !! i = Some (Some t) /\ id_to_token v' !! i = Some t
                           /\ is_Some (token_to_id v' !! t))
      /\ bos_token_id v' = bos_token_id v /\ eos_token_id v' = eos_token_id v
      /\ unk_token_id v' = unk_token_id v /\ pad_token_id v' = pad_token_id v).
Proof.
  intros Ha Hlen H. rewrite load_from_gguf_stages in H.
  destruct (Z.eqb_spec (gguf_find_key ctx "tokenizer.ggml.tokens") (-1)) as [E|E].
  { rewrite E in Ha. discriminate Ha. }
  destruct (load_model_type ctx v) as [v1|] eqn:E1; [|discriminate].
  cbn [mbind option_bind] in H.
  assert (Hn : gguf_get_arr_n ctx (gguf_find_key ctx "tokenizer.ggml.tokens")
               = Some (Z.of_nat (length a))) by (unfold gguf_get_arr_n; by rewrite Ha).
  rewrite Hn in H. cbn [mbind option_bind] in H.
  rewrite to_uint32_small, Nat2Z.id in H by lia.
  set (v2 := set_id_to_token v1 _) in H.
  destruct (load_scores_stage ctx (length a) v2) as [r|] eqn:E3; [|discriminate].
  cbn [mbind option_bind] in H.
  destruct (load_tokens_loop _ _ _ _ _) as [r'|] eqn:E4; [|discriminate].
  cbn [mbind option_bind] in H.
  assert (Hinv : tokens_loaded a (token_to_id v) (length a) 0 r.2).
  { apply load_model_type_tokens in E1 as [Em1 Ei1].
    pose proof (load_scores_stage_frame token_to_id ctx _ _ _ ltac:(done) E3) as Em3.
    pose proof (load_scores_stage_frame id_to_token ctx _ _ _ ltac:(done) E3) as Ei3.
    split; [|split].
    - rewrite Ei3. subst v2. cbn. apply length_resize.
    - intros i Hi. lia.
    - intros t. right. split; [intros j Hj; lia|].
      rewrite Em3. subst v2. cbn. by rewrite Em1. }
  pose proof (load_tokens_loop_null ctx _ _ a (token_to_id v) (length a) (length a) 0
                r.2 r' Ha ltac:(lia) Hinv E4) as Hres.
  destruct r' as [v4|v4].
  - injection H as <- <-.
    destruct Hres as (k & Hk & Hnull & Hlen4 & Hids & Hmap).
    split.
    { split; [discriminate|]. intros Hall. rewrite Forall_lookup in Hall.
      destruct (Hall _ _ Hnull) as [? ?]. discriminate. }
    intros _. split; [exact Hlen4|]. split.
    { exists k. split; [exact Hnull|]. intros i Hi.
      destruct (Hids i Hi) as (t & Hai & Hti). exists t. split; [exact Hai|].
      split; [exact Hti|].
      destruct (Hmap t) as [(j & _ & _ & _ & Hl) | [Hnone _]]; [by eexists|].
      exfalso. by apply (Hnone i Hi). }
    assert (Hframe : forall (f : SanaVocab -> Z),
              (forall w x, f (set_type w x) = f w) ->
              (forall w x, f (set_bpe_merges w x) = f w) ->
              (forall w x, f (set_bpe_ranks w x) = f w) ->
              (forall w x, f (set_id_to_token w x) = f w) ->
              (forall w x, f (set_token_to_id w x) = f w) ->
              (forall w x, f (set_id_to_score w x) = f w) ->
              f v4 = f v).
    { intros f H1 H2 H3 H4 H5 H6.
      rewrite (load_tokens_loop_frame f _ _ _ _ _ _ H4 H5 H6 E4).
      rewrite (load_scores_stage_frame f _ _ _ _ H6 E3). subst v2. rewrite H4.
      apply (load_model_type_frame f _ _ _ H1 H2 H3 E1). }
    repeat split; apply Hframe; done.
  - destruct (load_special_stage ctx v4) as [v5|]; [|discriminate].
    injection H as <- <-.
    destruct Hres as (_ & Hids & _).
    split; [|discriminate]. split; [|done]. intros _.
    apply Forall_lookup. intros i x Hi.
    destruct (Hids i) as (t & Hai & _); [by apply lookup_lt_Some in Hi|].
    rewrite Hai in Hi. injection Hi as <-. by eexists.
Qed.

Lemma load_from_gguf_null_token_witness :
  (false = true <-> Forall is_Some [Some (str "a"); None; Some (str "b")])
  /\ (false = false ->
      length (id_to_token (load_fresh gguf_null_token)) = 3
      /\ (exists k, [Some (str "a"); None; Some (str "b")] !! k = Some None
            /\ forall i, i < k ->
                 exists t, [Some (str "a"); None; Some (str "b")] !! i = Some (Some t)
                           /\ id_to_token (load_fresh gguf_null_token) !! i = Some t
                           /\ is_Some (token_to_id (load_fresh gguf_null_token) !! t))
      /\ bos_token_id (load_fresh gguf_null_token) = bos_token_id SanaVocab_default
      /\ eos_token_id (load_fresh gguf_null_token) = eos_token_id SanaVocab_default
      /\ unk_token_id (load_fresh gguf_null_token) = unk_token_id SanaVocab_default
      /\ pad_token_id (load_fresh gguf_null_token) = pad_token_id SanaVocab_default).
Proof.
  apply (load_from_gguf_null_token gguf_null_token SanaVocab_default
           (load_fresh gguf_null_token) false [Some (str "a"); None; Some (str "b")]).
  - reflexivity.
  - vm_compute. discriminate.
  - vm_compute. reflexivity.
Defined.

(** The store left behind by the null entry: three slots, the first
    filled, and the ids 0, 1, 2 of the member initialisers still in place. *)
Example load_from_gguf_null_token_state :
  load_from_gguf gguf_null_token SanaVocab_default
    = Some (false, load_fresh gguf_null_token)
  /\ id_to_token (load_fresh gguf_null_token) = [str "a"; []; []]
  /\ token_to_id (load_fresh gguf_null_token) !! str "a" = Some 0%Z
  /\ unk_token_id (load_fresh gguf_null_token) = 2%Z.
Proof. repeat split; vm_compute; reflexivity. Qed.


(** ** Special ids after a load *)

Lemma load_special_token_absent (ctx : gguf_context) (key_name : string) (d : Z) :
  gguf_find_key ctx key_name = (-1)%Z -> load_special_token ctx key_name d = Some d.
Proof. intros E. unfold load_special_token. cbv zeta. by rewrite E. Qed.

(** What a successful [load_from_gguf] went through. *)
Lemma load_from_gguf_true (ctx : gguf_context) (v v' : SanaVocab) :
  load_from_gguf ctx v = Some (true, v') ->
  exists v1 arr_n r v4,
    load_model_type ctx v = Some v1
    /\ gguf_get_arr_n ctx (gguf_find_key ctx "tokenizer.ggml.tokens") = Some arr_n
    /\ load_scores_stage ctx (Z.to_nat (to_uint32 arr_n))
         (set_id_to_token v1 (resize (Z.to_nat (to_uint32 arr_n)) [] (id_to_token v1)))
       = Some r
    /\ load_tokens_loop ctx (gguf_find_key ctx "tokenizer.ggml.tokens") r.1
         (seq 0 (Z.to_nat (to_uint32 arr_n))) r.2 = Some (inr v4)
    /\ load_special_stage ctx v4 = Some v'.
Proof.
  intros H. rewrite load_from_gguf_stages in H.
  destruct (_ =? -1)%Z; [discriminate|].
  destruct (load_model_type ctx v) as [v1|] eqn:E1; [|discriminate].
  cbn [mbind option_bind] in H.
  destruct (gguf_get_arr_n _ _) as [arr_n|] eqn:E2; [|discriminate].
  cbn [mbind option_bind] in H.
  destruct (load_scores_stage _ _ _) as [r|] eqn:E3; [|discriminate].
  cbn [mbind option_bind] in H.
  destruct (load_tokens_loop _ _ _ _ _) as [[v4|v4]|] eqn:E4;
    [discriminate | | discriminate].
  cbn [mbind option_bind] in H.
  destruct (load_special_stage ctx v4) as [v5|] eqn:E5; [|discriminate].
  injection H as <-. by exists v1, arr_n, r, v4.
Qed.

(** X11: a file that has none of the keys for the begin, end, unknown and
    padding ids leaves all four unset after a successful load: the values
    0, 1 and 2 of the member initialisers do not survive it.  On such a
    store [tokenize] adds no begin or end id whatever is asked for, and
    every id it emits is the id stored under a key of the vocabulary:
    unmapped codepoints vanish from the output. *)
Theorem load_from_gguf_without_special_keys (ctx : gguf_context) (v v' : SanaVocab) :
  load_from_gguf ctx v = Some (true, v') ->
  gguf_find_key ctx "tokenizer.ggml.bos_token_id" = (-1)%Z ->
  gguf_find_key ctx "tokenizer.ggml.eos_token_id" = (-1)%Z ->
  gguf_find_key ctx "tokenizer.ggml.unk_token_id" = (-1)%Z ->
  gguf_find_key ctx "tokenizer.ggml.padding_token_id" = (-1)%Z ->
  gguf_find_key ctx "tokenizer.ggml.pad_token_id" = (-1)%Z ->
  (bos_token_id v' = (-1)%Z /\ eos_token_id v' = (-1)%Z
   /\ unk_token_id v' = (-1)%Z /\ pad_token_id v' = (-1)%Z)
  /\ (forall text add_bos add_eos,
        tokenize v' text add_bos add_eos = tokenize v' text false false)
  /\ (forall text add_bos add_eos id,
        id ∈ tokenize v' text add_bos add_eos ->
        exists piece, token_to_id v' !! piece = Some id).
Proof.
  intros H Hbos Heos Hunk Hpadding Hpad.
  apply load_from_gguf_true in H as (v1 & arr_n & r & v4 & _ & _ & _ & _ & H5).
  unfold load_special_stage in H5.
  rewrite !load_special_token_absent in H5 by assumption.
  cbn [mbind option_bind] in H5. unfold load_pad_token in H5. cbv zeta in H5.
  rewrite Hpadding, Z.eqb_refl, Hpad in H5. cbn [Z.eqb negb] in H5.
  injection H5 as <-.
  split; [by repeat split|].
  assert (Htok : forall text add_bos add_eos,
    tokenize (set_pad_token_id
                (set_unk_token_id (set_eos_token_id (set_bos_token_id v4 (-1)) (-1)) (-1))
                (-1)) text add_bos add_eos
    = tokenize (set_pad_token_id
                  (set_unk_token_id (set_eos_token_id (set_bos_token_id v4 (-1)) (-1))
                     (-1)) (-1)) text false false).
  { intros text add_bos add_eos. unfold tokenize, special_in_range.
    cbn [bos_token_id eos_token_id set_pad_token_id set_unk_token_id set_eos_token_id
         set_bos_token_id].
    change (negb (-1 =? -1)%Z) with false. cbn [andb]. by rewrite !andb_false_r. }
  split; [exact Htok|].
  intros text add_bos add_eos id Hid. rewrite Htok in Hid.
  apply tokenize_emitted in Hid as [(E & _) | [(E & _) | [[_ Hu] | Hp]]];
    [discriminate | discriminate | | exact Hp].
  exfalso. by apply Hu.
Qed.

Lemma load_from_gguf_without_special_keys_witness :
  (bos_token_id (load_fresh gguf_bpe_no_special) = (-1)%Z
   /\ eos_token_id (load_fresh gguf_bpe_no_special) = (-1)%Z
   /\ unk_token_id (load_fresh gguf_bpe_no_special) = (-1)%Z
   /\ pad_token_id (load_fresh gguf_bpe_no_special) = (-1)%Z)
  /\ (forall text add_bos add_eos,
        tokenize (load_fresh gguf_bpe_no_special) text add_bos add_eos
        = tokenize (load_fresh gguf_bpe_no_special) text false false)
  /\ (forall text add_bos add_eos id,
        id ∈ tokenize (load_fresh gguf_bpe_no_special) text add_bos add_eos ->
        exists piece, token_to_id (load_fresh gguf_bpe_no_special) !! piece = Some id).
Proof.
  apply (load_from_gguf_without_special_keys gguf_bpe_no_special SanaVocab_default
           (load_fresh gguf_bpe_no_special)); vm_compute; reflexivity.
Defined.

(** On that store the unmapped ['x'] leaves no trace, and neither the
    begin id nor the end id is added. *)
Example tokenize_without_special_keys :
  tokenize (load_fresh gguf_bpe_no_special) (str "axb") true true = [0%Z; 1%Z].
Proof. vm_compute. reflexivity. Qed.


(** ** The scores of a loaded store *)

(** The token loop copies the scores of the indices it passes. *)
Lemma load_tokens_loop_scores (ctx : gguf_context) (tokens_idx scores_idx : Z)
    (s : list Q) (n m k : nat) (v v' : SanaVocab) :
  scores_idx <> (-1)%Z ->
  gguf_get_arr_data ctx scores_idx = Some s ->
  k + m <= n ->
  length (id_to_score v) = n ->
  (forall i, i < k -> id_to_score v !! i = s !! i) ->
  load_tokens_loop ctx tokens_idx scores_idx (seq k m) v = Some (inr v') ->
  length (id_to_score v') = n
  /\ forall i, i < k + m -> id_to_score v' !! i = s !! i.
Proof.
  intros Hidx Hs. revert k v. induction m as [|m IH]; intros k v Hk Hlen Hinv H.
  - injection H as <-. by rewrite Nat.add_0_r.
  - cbn [seq load_tokens_loop] in H.
    destruct (load_token ctx tokens_idx scores_idx k v) as [[v1|v1]|] eqn:E;
      [discriminate | | discriminate].
    cbn [mbind option_bind] in H.
    replace (k + S m) with (S k + m) by lia.
    apply (IH (S k) v1); [lia | | | exact H]; clear IH H.
    + unfold load_token in E.
      destruct (gguf_get_arr_str ctx tokens_idx k) as [[t|]|]; [| |discriminate];
        cbn [mbind option_bind] in E; [|discriminate].
      destruct (_ && _).
      * rewrite Hs in E. cbn [mbind option_bind] in E.
        destruct (s !! k); [|discriminate]. injection E as <-.
        cbn. by rewrite length_insert.
      * by injection E as <-.
    + intros i Hi. unfold load_token in E.
      destruct (gguf_get_arr_str ctx tokens_idx k) as [[t|]|]; [| |discriminate];
        cbn [mbind option_bind] in E; [|discriminate].
      cbn [id_to_score set_token_to_id set_id_to_token] in E.
      destruct (Z.eqb_spec scores_idx (-1)); [done|]. cbn [negb andb] in E.
      destruct (Nat.ltb_spec k (length (id_to_score v))); [|lia].
      rewrite Hs in E. cbn [mbind option_bind] in E.
      destruct (s !! k) as [x|] eqn:Hx; [|discriminate]. injection E as <-.
      cbn [id_to_score set_id_to_score].
      destruct (decide (i = k)) as [->|Hne].
      * rewrite list_lookup_insert_eq by lia. by rewrite Hx.
      * rewrite list_lookup_insert_ne by done. apply Hinv. lia.
Qed.

(** Without a score index the token loop leaves [id_to_score] alone. *)
Lemma load_tokens_loop_no_scores (ctx : gguf_context) (tokens_idx : Z)
    (idxs : list nat) (v : SanaVocab) (r : SanaVocab + SanaVocab) :
  load_tokens_loop ctx tokens_idx (-1) idxs v = Some r ->
  id_to_score match r with inl w | inr w => w end = id_to_score v.
Proof.
  revert v. induction idxs as [|i idxs IH]; intros v H.
  - by injection H as <-.
  - cbn [load_tokens_loop] in H.
    destruct (load_token ctx tokens_idx (-1) i v) as [r1|] eqn:E; [|discriminate].
    cbn [mbind option_bind] in H.
    assert (E' : id_to_score match r1 with inl w | inr w => w end = id_to_score v).
    { unfold load_token in E.
      destruct (gguf_get_arr_str ctx tokens_idx i) as [[t|]|]; [| |discriminate];
        cbn [mbind option_bind] in E; [|by injection E as <-].
      rewrite Z.eqb_refl in E. cbn [negb andb] in E. by injection E as <-. }
    destruct r1 as [w|w]; [by injection H as <-|].
    rewrite (IH _ H). exact E'.
Qed.

Lemma gguf_value_at_found (ctx : gguf_context) (idx : Z) (x : gguf_value) :
  gguf_value_at ctx idx = Some x -> idx <> (-1)%Z.
Proof. intros H ->. discriminate H. Qed.

(** X12: for an SPM store, when the score array of the file has as many
    entries as the token array, a successful load leaves [id_to_score]
    equal to the score array: the score of token [i] is entry [i], and the
    two tables have the same length. *)
Theorem load_from_gguf_scores_loaded (ctx : gguf_context) (v v' : SanaVocab)
    (a : list (option (list ascii))) (s : list Q) :
  gguf_value_at ctx (gguf_find_key ctx "tokenizer.ggml.tokens") = Some (gguf_strings a) ->
  gguf_value_at ctx (gguf_find_key ctx "tokenizer.ggml.scores") = Some (gguf_floats s) ->
  (Z.of_nat (length a) <= 2 ^ 31)%Z ->
  length s = length a ->
  load_from_gguf ctx v = Some (true, v') ->
  type v' = SPM ->
  id_to_score v' = s /\ length (id_to_score v') = length (id_to_token v').
Proof.
  intros Ha Hs Hlen Heq H Hty.
  pose proof (load_from_gguf_loaded ctx v v' a Ha Hlen H) as (Hlen' & _).
  apply load_from_gguf_true in H as (v1 & arr_n & r & v4 & E1 & E2 & E3 & E4 & E5).
  assert (arr_n = Z.of_nat (length a)) as ->.
  { unfold gguf_get_arr_n in E2. rewrite Ha in E2. by injection E2 as <-. }
  rewrite to_uint32_small, Nat2Z.id in E3, E4 by lia.
  set (v2 := set_id_to_token v1 _) in *.
  assert (Hty2 : type v2 = SPM).
  { rewrite <- Hty.
    rewrite (load_special_stage_frame type _ _ _ ltac:(done) ltac:(done) ltac:(done)
               ltac:(done) E5).
    rewrite (load_tokens_loop_frame type _ _ _ _ _ _ ltac:(done) ltac:(done)
               ltac:(done) E4).
    by rewrite (load_scores_stage_frame type _ _ _ _ ltac:(done) E3). }
  unfold load_scores_stage in E3. cbv zeta in E3.
  pose proof (gguf_value_at_found _ _ _ Hs) as Hidx.
  destruct (Z.eqb_spec (gguf_find_key ctx "tokenizer.ggml.scores") (-1)); [done|].
  rewrite Hty2 in E3. cbn [negb andb] in E3.
  unfold gguf_get_arr_n in E3. rewrite Hs in E3. cbn [mbind option_bind] in E3.
  rewrite Heq, Z.eqb_refl in E3. injection E3 as <-. cbn [fst snd] in E4.
  assert (Hdata : gguf_get_arr_data ctx (gguf_find_key ctx "tokenizer.ggml.scores")
                  = Some s) by (unfold gguf_get_arr_data; by rewrite Hs).
  destruct (load_tokens_loop_scores ctx (gguf_find_key ctx "tokenizer.ggml.tokens")
              (gguf_find_key ctx "tokenizer.ggml.scores") s (length a) (length a) 0
              (set_id_to_score v2 (resize (length a) 0%Q (id_to_score v1))) v4
              Hidx Hdata ltac:(lia) (length_resize _ _ _) ltac:(intros i Hi; lia) E4)
    as [Hl4 Hi4].
  rewrite (load_special_stage_frame id_to_score _ _ _ ltac:(done) ltac:(done)
               ltac:(done) ltac:(done) E5).
  split; [|lia].
  apply list_eq. intros i. destruct (decide (i < length a)) as [Hi|Hi].
  - apply Hi4. lia.
  - rewrite !lookup_ge_None_2 by lia. reflexivity.
Qed.

Lemma load_from_gguf_scores_loaded_witness :
  id_to_score (load_fresh gguf_spm_small) = [0%Q; 0%Q; 0%Q; (-2)%Q; (-2)%Q; (-1)%Q]
  /\ length (id_to_score (load_fresh gguf_spm_small))
     = length (id_to_token (load_fresh gguf_spm_small)).
Proof.
  apply (load_from_gguf_scores_loaded gguf_spm_small SanaVocab_default
           (load_fresh gguf_spm_small)
           [Some (str "<unk>"); Some (str "<s>"); Some (str "</s>");
            Some (str "a"); Some (str "b"); Some (str "ab")]).
  - reflexivity.
  - reflexivity.
  - vm_compute. discriminate.
  - reflexivity.
  - vm_compute. reflexivity.
  - reflexivity.
Defined.

(** X13: for an SPM store loaded into a fresh [SanaVocab], a score array
    that is missing, or whose length differs from that of the token array,
    is not used at all: [id_to_score] stays empty after a successful load,
    and [tokenize] then answers every non-empty text with the unknown id
    alone (or with nothing when that is unset), although the tokens
    themselves are loaded. *)
Theorem load_from_gguf_scores_mismatch (ctx : gguf_context) (v v' : SanaVocab)
    (a : list (option (list ascii))) :
  id_to_score v = [] ->
  gguf_value_at ctx (gguf_find_key ctx "tokenizer.ggml.tokens") = Some (gguf_strings a) ->
  (Z.of_nat (length a) <= 2 ^ 31)%Z ->
  load_from_gguf ctx v = Some (true, v') ->
  type v' = SPM ->
  (gguf_find_key ctx "tokenizer.ggml.scores" = (-1)%Z
   \/ exists s, gguf_value_at ctx (gguf_find_key ctx "tokenizer.ggml.scores")
                  = Some (gguf_floats s)
                /\ length s <> length a) ->
  id_to_score v' = []
  /\ forall text, tokenize v' text false false
                  = if bool_decide (text = []) then [] else push_unk v'.
Proof.
  intros Hv Ha Hlen H Hty Hscores.
  apply load_from_gguf_true in H as (v1 & arr_n & r & v4 & E1 & E2 & E3 & E4 & E5).
  assert (arr_n = Z.of_nat (length a)) as ->.
  { unfold gguf_get_arr_n in E2. rewrite Ha in E2. by injection E2 as <-. }
  rewrite to_uint32_small, Nat2Z.id in E3, E4 by lia.
  set (v2 := set_id_to_token v1 _) in *.
  assert (Hty2 : type v2 = SPM).
  { rewrite <- Hty.
    rewrite (load_special_stage_frame type _ _ _ ltac:(done) ltac:(done) ltac:(done)
               ltac:(done) E5).
    rewrite (load_tokens_loop_frame type _ _ _ _ _ _ ltac:(done) ltac:(done)
               ltac:(done) E4).
    by rewrite (load_scores_stage_frame type _ _ _ _ ltac:(done) E3). }
  assert (Hr : r = ((-1)%Z, v2)).
  { unfold load_scores_stage in E3. cbv zeta in E3.
    destruct Hscores as [Habs | (s & Hs & Hne)].
    - rewrite Habs in E3. cbn in E3. by injection E3 as <-.
    - pose proof (gguf_value_at_found _ _ _ Hs) as Hidx.
      destruct (Z.eqb_spec (gguf_find_key ctx "tokenizer.ggml.scores") (-1)); [done|].
      cbn [negb andb] in E3.
      rewrite Hty2 in E3.
      unfold gguf_get_arr_n in E3. rewrite Hs in E3. cbn [mbind option_bind] in E3.
      destruct (Z.eqb_spec (Z.of_nat (length s)) (Z.of_nat (length a))); [lia|].
      by injection E3 as <-. }
  subst r. cbn [fst snd] in E4.
  assert (Hs' : id_to_score v' = []).
  { rewrite (load_special_stage_frame id_to_score _ _ _ ltac:(done) ltac:(done)
               ltac:(done) ltac:(done) E5).
    rewrite (load_tokens_loop_no_scores _ _ _ _ _ E4). subst v2. cbn [id_to_score set_id_to_token].
    by rewrite (load_model_type_frame id_to_score _ _ _ ltac:(done) ltac:(done)
                  ltac:(done) E1). }
  split; [exact Hs'|].
  intros text. unfold tokenize. cbn [andb app]. rewrite Hty.
  unfold tokenize_spm. by rewrite (tokenize_spm_run_no_scores v' text Hs').
Qed.

Lemma load_from_gguf_scores_mismatch_witness :
  id_to_score (load_fresh gguf_spm_mismatch) = []
  /\ forall text, tokenize (load_fresh gguf_spm_mismatch) text false false
                  = if bool_decide (text = []) then []
                    else push_unk (load_fresh gguf_spm_mismatch).
Proof.
  apply (load_from_gguf_scores_mismatch gguf_spm_mismatch SanaVocab_default
           (load_fresh gguf_spm_mismatch)
           [Some (str "<unk>"); Some (str "a"); Some (str "b")]).
  - reflexivity.
  - reflexivity.
  - vm_compute. discriminate.
  - vm_compute. reflexivity.
  - reflexivity.
  - right. exists [0%Q; (-1)%Q]. split; [reflexivity | vm_compute; discriminate].
Defined.

(** The token ["a"] is loaded with the id 1, yet the text ["a"] is
    answered with the unknown id 0. *)
Example tokenize_scores_mismatch :
  token_to_id (load_fresh gguf_spm_mismatch) !! str "a" = Some 1%Z
  /\ tokenize (load_fresh gguf_spm_mismatch) (str "a") false false = [0%Z].
Proof. split; vm_compute; reflexivity. Qed.


(** ** The rank table of a loaded store *)

Lemma find_space_spec (s : list ascii) (pos : nat) :
  find_space s = Some pos ->
  s !! pos = Some " "%char /\ (" "%char ∉ take pos s).
Proof.
  revert pos. induction s as [|c s IH]; intros pos H; [discriminate|].
  cbn [find_space] in H. destruct (decide (c = " "%char)) as [->|Hne].
  - rewrite bool_decide_eq_true_2 in H by reflexivity. injection H as <-.
    split; [reflexivity|]. cbn. apply not_elem_of_nil.
  - rewrite bool_decide_eq_false_2 in H by exact Hne.
    destruct (find_space s) as [pos'|]; [|discriminate]. cbn in H. injection H as <-.
    destruct (IH pos' eq_refl) as [H1 H2]. split; [exact H1|].
    cbn. intros Hin. apply elem_of_cons in Hin as [Hin | Hin]; [congruence | by apply H2].
Qed.

Lemma load_merge_ranks_from (ctx : gguf_context) (merges_idx : Z) (n k : nat)
    (v v' : SanaVocab) :
  k < n ->
  length (bpe_merges v) = n ->
  ranks_from_merges k v ->
  load_merge ctx merges_idx k v = Some v' ->
  length (bpe_merges v') = n /\ ranks_from_merges (S k) v'.
Proof.
  intros Hk Hlen Hinv H. unfold load_merge in H.
  destruct (gguf_get_arr_str ctx merges_idx k) as [s|]; [|discriminate].
  cbn [mbind option_bind] in H. injection H as <-.
  set (v1 := match s with
             | Some s0 => set_bpe_merges v (<[k:=s0]> (bpe_merges v))
             | None => v
             end).
  assert (Hlen1 : length (bpe_merges v1) = n).
  { subst v1. destruct s; cbn; [by rewrite length_insert | exact Hlen]. }
  assert (Hr1 : bpe_ranks v1 = bpe_ranks v) by (subst v1; by destruct s).
  assert (Hm1 : forall i, i < k -> bpe_merges v1 !! i = bpe_merges v !! i).
  { intros i Hi. subst v1. destruct s; cbn; [|reflexivity].
    apply list_lookup_insert_ne. lia. }
  assert (Hinv1 : ranks_from_merges (S k) v1).
  { intros p1 p2 r Hr. rewrite Hr1 in Hr.
    destruct (Hinv p1 p2 r Hr) as (H1 & H2 & H3 & i & Hi & -> & Hmi).
    split; [exact H1|]. split; [exact H2|]. split; [exact H3|].
    exists i. split; [lia|]. split; [reflexivity|]. by rewrite Hm1. }
  destruct (lookup_lt_is_Some_2 (bpe_merges v1) k ltac:(lia)) as [merge Hmerge].
  rewrite Hmerge. cbn [default]. unfold id.
  destruct (find_space merge) as [pos|] eqn:Hfind; [|split; [exact Hlen1 | exact Hinv1]].
  destruct (Nat.ltb_spec 0 pos) as [Hpos|]; [|split; [exact Hlen1 | exact Hinv1]].
  destruct (Nat.ltb_spec pos (length merge - 1)) as [Hend|];
    [|split; [exact Hlen1 | exact Hinv1]].
  cbn [andb]. split; [exact Hlen1|].
  destruct (find_space_spec merge pos Hfind) as [Hsp Hnosp].
  intros p1 p2 r Hr. cbn [bpe_ranks bpe_merges set_bpe_ranks] in Hr |- *.
  destruct (decide ((p1, p2) = (take pos merge, drop (pos + 1) merge))) as [E|E].
  - injection E as -> ->. rewrite lookup_insert_eq in Hr. injection Hr as <-.
    split; [intros E; apply (f_equal length) in E; rewrite length_take in E;
            simpl in E; lia|].
    split; [intros E; apply (f_equal length) in E; rewrite length_drop in E;
            simpl in E; lia|].
    split; [exact Hnosp|].
    exists k. split; [lia|]. split; [reflexivity|]. rewrite Hmerge. f_equal.
    rewrite <- (take_drop pos merge) at 1. f_equal.
    rewrite (drop_S _ _ _ Hsp). f_equal. f_equal. lia.
  - rewrite lookup_insert_ne in Hr by congruence. by apply Hinv1.
Qed.

Lemma load_merges_loop_ranks_from (ctx : gguf_context) (merges_idx : Z) (n m k : nat)
    (v v' : SanaVocab) :
  k + m <= n ->
  length (bpe_merges v) = n ->
  ranks_from_merges k v ->
  load_merges_loop ctx merges_idx (seq k m) v = Some v' ->
  ranks_from_merges (k + m) v'.
Proof.
  revert k v. induction m as [|m IH]; intros k v Hk Hlen Hinv H.
  - injection H as <-. by rewrite Nat.add_0_r.
  - cbn [seq load_merges_loop] in H.
    destruct (load_merge ctx merges_idx k v) as [v1|] eqn:E; [|discriminate].
    cbn [mbind option_bind] in H.
    destruct (load_merge_ranks_from ctx merges_idx n k v v1 ltac:(lia) Hlen Hinv E)
      as [Hlen1 Hinv1].
    replace (k + S m) with (S k + m) by lia.
    apply (IH (S k) v1); [lia | exact Hlen1 | exact Hinv1 | exact H].
Qed.

Lemma load_model_type_ranks_from (ctx : gguf_context) (v v' : SanaVocab) :
  bpe_ranks v = ∅ ->
  load_model_type ctx v = Some v' ->
  ranks_from_merges (length (bpe_merges v')) v'.
Proof.
  intros Hempty H.
  assert (Hvac : forall w k, bpe_ranks w = ∅ -> ranks_from_merges k w).
  { intros w k Hw p1 p2 r Hr. rewrite Hw in Hr. by rewrite lookup_empty in Hr. }
  unfold load_model_type in H. cbv zeta in H.
  destruct (negb _); [|injection H as <-; by apply Hvac].
  destruct (gguf_get_val_str _ _) as [model_name|]; [|discriminate].
  cbn [mbind option_bind] in H.
  destruct (_ || _); [|injection H as <-; by apply Hvac].
  destruct (negb _); [|injection H as <-; by apply Hvac].
  destruct (gguf_get_arr_n _ _) as [arr_n|]; [|discriminate].
  cbn [mbind option_bind] in H.
  set (n := Z.to_nat (to_uint32 arr_n)) in *.
  set (v2 := set_bpe_merges _ _) in H.
  assert (Hlen2 : length (bpe_merges v2) = n) by (subst v2; cbn; apply length_resize).
  pose proof (load_merges_loop_ranks_from ctx _ n n 0 v2 v' ltac:(lia) Hlen2
                (Hvac v2 0 Hempty) H) as Hinv.
  intros p1 p2 r Hr.
  destruct (Hinv p1 p2 r Hr) as (H1 & H2 & H3 & i & Hi & -> & Hmi).
  split; [exact H1|]. split; [exact H2|]. split; [exact H3|].
  exists i. split; [by apply lookup_lt_Some in Hmi | by split].
Qed.

(** X14: in a store loaded with an empty rank table and at most 2^31
    merges, every entry of [bpe_ranks] comes from a merge line: the rank
    [r] of the pair [(p1, p2)] is the index of a line of [bpe_merges] that
    reads [p1], one space, [p2], where [p1] and [p2] are not empty and
    [p1] holds no space (the line is cut at its first space).  Lines
    without a space, or with the first space at either end, give no rank.
    This holds whether or not the load succeeds afterwards. *)
Theorem load_from_gguf_merge_ranks (ctx : gguf_context) (v v' : SanaVocab) (flag : bool)
    (p1 p2 : list ascii) (r : Z) :
  bpe_ranks v = ∅ ->
  (Z.of_nat (length (bpe_merges v')) <= 2 ^ 31)%Z ->
  load_from_gguf ctx v = Some (flag, v') ->
  bpe_ranks v' !! (p1, p2) = Some r ->
  p1 <> [] /\ p2 <> [] /\ (" "%char ∉ p1)
  /\ (0 <= r)%Z /\ bpe_merges v' !! Z.to_nat r = Some (p1 ++ " "%char :: p2).
Proof.
  intros Hempty Hlen H Hr. rewrite load_from_gguf_stages in H.
  destruct (_ =? -1)%Z.
  { injection H as <- <-. rewrite Hempty in Hr. by rewrite lookup_empty in Hr. }
  destruct (load_model_type ctx v) as [v1|] eqn:E1; [|discriminate].
  cbn [mbind option_bind] in H.
  destruct (gguf_get_arr_n _ _) as [arr_n|]; [|discriminate].
  cbn [mbind option_bind] in H.
  destruct (load_scores_stage _ _ _) as [rs|] eqn:E3; [|discriminate].
  cbn [mbind option_bind] in H.
  destruct (load_tokens_loop _ _ _ _ _) as [r'|] eqn:E4; [|discriminate].
  cbn [mbind option_bind] in H.
  pose proof (load_model_type_ranks_from ctx v v1 Hempty E1) as Hinv.
  assert (Hframe : forall {A} (f : SanaVocab -> A),
            (forall w x, f (set_id_to_token w x) = f w) ->
            (forall w x, f (set_token_to_id w x) = f w) ->
            (forall w x, f (set_id_to_score w x) = f w) ->
            (forall w x, f (set_bos_token_id w x) = f w) ->
            (forall w x, f (set_eos_token_id w x) = f w) ->
            (forall w x, f (set_unk_token_id w x) = f w) ->
            (forall w x, f (set_pad_token_id w x) = f w) ->
            f v' = f v1).
  { intros A f H1 H2 H3 H4 H5 H6 H7.
    pose proof (load_tokens_loop_frame f _ _ _ _ _ _ H1 H2 H3 E4) as F4.
    pose proof (load_scores_stage_frame f _ _ _ _ H3 E3) as F3.
    rewrite H1 in F3.
    destruct r' as [v4|v4].
    - injection H as <- <-. congruence.
    - destruct (load_special_stage ctx v4) as [v5|] eqn:E5; [|discriminate].
      injection H as <- <-.
      rewrite (load_special_stage_frame f _ _ _ H4 H5 H6 H7 E5). congruence. }
  rewrite (Hframe _ bpe_ranks) in Hr by done.
  rewrite (Hframe _ bpe_merges) in Hlen |- * by done.
  destruct (Hinv p1 p2 r Hr) as (H1 & H2 & H3 & i & Hi & -> & Hmi).
  split; [exact H1|]. split; [exact H2|]. split; [exact H3|].
  rewrite to_int32_small by lia. rewrite Nat2Z.id. split; [lia | exact Hmi].
Qed.

Lemma load_from_gguf_merge_ranks_witness :
  str "a" <> [] /\ str "b" <> [] /\ (" "%char ∉ str "a")
  /\ (0 <= 0)%Z
  /\ bpe_merges (load_fresh gguf_bpe_small) !! Z.to_nat 0
     = Some (str "a" ++ " "%char :: str "b").
Proof.
  apply (load_from_gguf_merge_ranks gguf_bpe_small SanaVocab_default
           (load_fresh gguf_bpe_small) true (str "a") (str "b") 0%Z).
  - reflexivity.
  - vm_compute. discriminate.
  - vm_compute. reflexivity.
  - vm_compute. reflexivity.
Defined.


(** ** The pre-tokens *)




(** A sentence with a contraction, digits and punctuation. *)
Example bpe_pre_tokenize_gpt2_sentence :
  bpe_pre_tokenize_gpt2 (str "it's 42!")
  = [str "it"; str "'s"; str " "; str "42"; str "!"].
Proof. vm_compute. reflexivity. Qed.

(** ** The tokenizers return *)


